(** * Attachment lifecycle of the warranty detail page (detail.js)

    A shallow embedding of the attachment code of [detail.js]: the
    resilient transport ([fetchWithRetry]), the record synchronizer
    ([fetchCurrentImagesFromAirtable], [getRecordIdByWarrantyId],
    [updateAirtableRecord]), the merge step of the upload pipeline
    ([uploadToDropbox]), the token-expiry retry of [uploadFileToDropbox],
    the deletion coordinator ([deleteImagesByLotName]) and the carousel
    ([openCarousel], [displayCarouselItem], [nextImage], [prevImage],
    [closeCarousel] and the per-item delete handler).

    Asynchronous functions are embedded as computations in a state and
    exception monad over the outside world (network, timers, DOM sinks):
    an [await] is sequential composition, a rejected promise is a thrown
    exception.  Interleaving of other event handlers between two awaits
    is not modelled.

    Numbers are integers ([Z], [nat] for counters): the indices, lengths,
    statuses and delays of the code are integers on which JavaScript's
    doubles are exact.  Strings are well-formed, so that building a URL
    ([encodeURIComponent]) does not raise.  The URL and options of a
    request are kept in structured form ([Request]), the JSON of a
    response by the shapes the code inspects ([Body]). *)

From stdpp Require Import base option list strings gmap pretty.
From Stdlib Require Import ZArith.

(** ** JavaScript outcomes and the effect monad *)

Module Js.

(** The exceptions the embedded code can raise or observe. *)
Inductive Exn :=
| NetworkError            (* fetch() rejected *)
| MaxRetriesReached       (* new Error("Max retries reached for ...") *)
| TypeError               (* property access on undefined *)
| ReferenceError          (* read of a variable that was never assigned *)
| SyntaxError             (* response.json() on a body that is not JSON *)
| Error (message : string). (* any other new Error(message) *)

(** [OutOfFuel] is the model's own outcome: the bounded unrolling of a
    loop or of a recursion was too short. *)
Inductive Outcome (A : Type) :=
| Returns (a : A)
| Throws (e : Exn)
| OutOfFuel.
Arguments Returns {A} a.
Arguments Throws {A} e.
Arguments OutOfFuel {A}.

Definition M (S A : Type) : Type := S -> Outcome A * S.

Definition ret {S A} (a : A) : M S A := fun s => (Returns a, s).

Definition throw {S A} (e : Exn) : M S A := fun s => (Throws e, s).

Definition diverge {S A} : M S A := fun s => (OutOfFuel, s).

Definition bind {S A B} (m : M S A) (k : A -> M S B) : M S B :=
  fun s =>
    match m s with
    | (Returns a, s') => k a s'
    | (Throws e, s') => (Throws e, s')
    | (OutOfFuel, s') => (OutOfFuel, s')
    end.

(** [try { m } catch (error) { h error }] *)
Definition try_catch {S A} (m : M S A) (h : Exn -> M S A) : M S A :=
  fun s =>
    match m s with
    | (Throws e, s') => h e s'
    | r => r
    end.

(** [try { m } finally { f }] where [f] is a plain state update. *)
Definition finally {S A} (m : M S A) (f : S -> S) : M S A :=
  fun s => let (r, s') := m s in (r, f s').

Definition get {S} : M S S := fun s => (Returns s, s).

Definition modify {S} (f : S -> S) : M S unit := fun s => (Returns tt, f s).

(** Reading the world without changing it. *)
Definition reads {S A} (f : S -> A) : M S A := fun s => (Returns (f s), s).

(** Running a computation on a component of the state. *)
Definition zoom {S T A} (proj : T -> S) (upd : S -> T -> T) (m : M S A) : M T A :=
  fun t => let (r, s') := m (proj t) in (r, upd s' t).

(** Truthiness of an optional string property: [undefined] and the
    empty string are falsy. *)
Definition truthy (o : option string) : bool :=
  match o with
  | Some s => negb (String.eqb s "")
  | None => false
  end.

(** [s.startsWith(p)] *)
Definition startsWith (s p : string) : bool := String.prefix p s.

End Js.

Import Js.

Notation "'let*' x ':=' m 'in' k" := (bind m (fun x => k))
  (at level 10, x name, m at level 100, k at level 200,
   format "'[v' 'let*'  x  ':='  m  'in' '/' k ']'").
Notation "m '>>' k" := (bind m (fun _ => k))
  (at level 190, right associativity, only parsing).

(** ** Data model *)

(** An attachment object [{ id, url, filename, type }]; every property may
    be absent ([undefined]). *)
Record Attachment := {
  att_id : option string;
  att_url : option string;
  att_filename : option string;
  att_type : option string
}.

#[global] Instance Attachment_eq_dec : EqDecision Attachment.
Proof. solve_decision. Defined.

(** A local file handed to the upload pipeline. *)
Record File := { file_name : string; file_type : string }.

#[global] Instance File_eq_dec : EqDecision File.
Proof. solve_decision. Defined.

(** The value of a record field as the code reads and writes it. *)
Inductive FieldValue :=
| FText (s : string)
| FAttachments (l : list Attachment)
| FLinks (ids : list string).

#[global] Instance FieldValue_eq_dec : EqDecision FieldValue.
Proof. solve_decision. Defined.

(** A record of the store as it appears in a list response:
    [{ id, fields }]. *)
Record ARecord := {
  rec_id : string;
  rec_fields : option (gmap string (list Attachment))
}.

(** The single record of the credential table, by the text fields the
    code reads. *)
Record TokenRecord := {
  tok_id : option string;
  tok_appKey : option string;         (* fields["Dropbox App Key"] *)
  tok_appSecret : option string;      (* fields["Dropbox App Secret"] *)
  tok_token : option string;          (* fields["Dropbox Token"] *)
  tok_refreshToken : option string    (* fields["Dropbox Refresh Token"] *)
}.

(** ** HTTP requests and responses

    The URL and option object of each [fetch] call are kept in structured
    form, one constructor per endpoint the code addresses. *)

Inductive Request :=
| AirtableImages (table warrantyId imageField : string)
    (* GET /v0/BASE/table?filterByFormula={Warranty Record ID} = 'warrantyId'&fields[]=imageField *)
| AirtableLookup (table warrantyId : string)
    (* GET /v0/BASE/table?filterByFormula={Warranty Record ID} = "warrantyId"&maxRecords=1 *)
| AirtablePatch (table recordId : string) (fields : gmap string FieldValue)
    (* PATCH /v0/BASE/table/recordId  { fields } *)
| TokenTableGet
    (* GET /v0/BASE/tbl6EeKPsNuEvt5yJ?maxRecords=1 *)
| TokenTablePatch (recordId : string) (token : option string)
    (* PATCH /v0/BASE/tbl6EeKPsNuEvt5yJ/recordId  { fields: { "Dropbox Token" } } *)
| DropboxUpload (token : string) (file : File)
    (* POST content.dropboxapi.com/2/files/upload, path /uploads/<file.name> *)
| DropboxOAuth (refreshToken appKey appSecret : option string)
    (* POST api.dropboxapi.com/oauth2/token *)
| DropboxCreateLink (token : option string) (path : option string)
    (* POST api.dropboxapi.com/2/sharing/create_shared_link_with_settings *)
| DropboxListLinks (token : option string) (path : option string).
    (* POST api.dropboxapi.com/2/sharing/list_shared_links *)

(** The JSON body of a response, by the shapes the code inspects. *)
Inductive Body :=
| NotJson
| RecordList (records : list ARecord)
| TokenRecordList (records : list TokenRecord)
| ErrorBody (tag error_summary message : option string)
| UploadMeta (path_lower : option string)
| TokenGrant (access_token : option string)
| SharedLink (url : option string)
| LinkList (links : list (option string)).

Record Response := { status : Z; body : Body }.

(** [response.ok]: the status is in the range 200-299. *)
Definition ok (r : Response) : bool :=
  ((200 <=? status r) && (status r <=? 299))%Z.

(** The promise returned by [fetch]: fulfilled with a response or
    rejected (network failure). *)
Inductive FetchResult :=
| Fulfilled (r : Response)
| Rejected.

(** Events on the user-facing sinks. *)
Inductive UiEvent :=
| Toast (message kind : string)
| Alert (message : string)
| RenderGrid (issueImages completedImages : list Attachment)
| GridError
| HideDeleteButtonCheck
| SaveButtonDisabled (b : bool)
| ScheduleRefresh (ms : Z).

(** The outside world of the page. *)
Class World (W : Type) := {
  fetch : Request -> W -> FetchResult * W;
  (* await new Promise(res => setTimeout(res, ms)) *)
  sleep : Z -> W -> W;
  ui : UiEvent -> W -> W;
  (* navigator.onLine *)
  onLine : W -> bool;
  (* document.getElementById("vendor-dropdown")?.value?.trim() *)
  vendorDropdown : W -> option string;
  (* confirm(message) *)
  confirm : string -> W -> bool;
  (* Date.now() *)
  now : W -> Z;
  (* the image sections and upload inputs of the page exist *)
  imageSectionsPresent : W -> bool;
  (* window.env.AIRTABLE_TABLE_NAME *)
  AIRTABLE_TABLE_NAME : W -> string
}.

(** ** Resilient transport *)

Section Transport.
Context {W : Type} `{World W}.

(** [await fetch(url, options)] *)
Definition await_fetch (req : Request) : M W Response :=
  fun w =>
    match fetch req w with
    | (Fulfilled r, w') => (Returns r, w')
    | (Rejected, w') => (Throws NetworkError, w')
    end.

(** [await new Promise(res => setTimeout(res, ms))] *)
Definition await_sleep (ms : Z) : M W unit := modify (sleep ms).

(** A call on one of the user-facing sinks. *)
Definition emit (e : UiEvent) : M W unit := modify (ui e).

(** The [while (attempt < maxRetries)] loop of [fetchWithRetry], unrolled
    [fuel] times. *)
Fixpoint fetchWithRetry_loop (fuel : nat) (req : Request) (maxRetries attempt : nat)
    (delay : Z) : M W Response :=
  if (attempt <? maxRetries)%nat then
    match fuel with
    | O => diverge
    | S fuel' =>
        let* response := await_fetch req in
        if negb (status response =? 429)%Z then ret response
        else
          await_sleep delay >>
          fetchWithRetry_loop fuel' req maxRetries (S attempt) (delay * 2)%Z
    end
  else throw MaxRetriesReached.

(** [async function fetchWithRetry(url, options = {}, maxRetries = 5)] *)
Definition fetchWithRetry (req : Request) (maxRetries : nat) : M W Response :=
  fetchWithRetry_loop maxRetries req maxRetries 0 500%Z.

End Transport.

(** ** Record synchronizer *)

Section RecordSynchronizer.
Context {W : Type} `{World W}.

(** [await response.json()] *)
Definition json (r : Response) : M W Body :=
  match body r with
  | NotJson => throw SyntaxError
  | b => ret b
  end.

(** [data.records]; [None] is [undefined]. *)
Definition records_of (data : Body) : option (list ARecord) :=
  match data with
  | RecordList rs => Some rs
  | _ => None
  end.

(** [async function fetchCurrentImagesFromAirtable(warrantyId, imageField)] *)
Definition fetchCurrentImagesFromAirtable (warrantyId : option string)
    (imageField : string) : M W (list Attachment) :=
  match warrantyId with
  | Some wid =>
      if negb (truthy warrantyId) then ret []
      else
        let* table := reads AIRTABLE_TABLE_NAME in
        try_catch
          (let* response := fetchWithRetry (AirtableImages table wid imageField) 5 in
           if negb (ok response) then ret []
           else
             let* data := json response in
             match records_of data with
             | None => throw TypeError
             | Some [] => ret []
             | Some (record :: _) =>
                 match rec_fields record with
                 | Some fields =>
                     match fields !! imageField with
                     | Some images => ret images
                     | None => ret []
                     end
                 | None => ret []
                 end
             end)
          (fun _ => ret [])
  | None => ret []
  end.

(** [async function getRecordIdByWarrantyId(warrantyId)]; the result
    [None] is [null]. *)
Definition getRecordIdByWarrantyId (warrantyId : string) : M W (option string) :=
  let* table := reads AIRTABLE_TABLE_NAME in
  try_catch
    (let* response := fetchWithRetry (AirtableLookup table warrantyId) 5 in
     let* data := json response in
     match records_of data with
     | Some (record :: _) => ret (Some (rec_id record))
     | _ => ret None
     end)
    (fun _ => ret None).

(** The resolution step at the head of [updateAirtableRecord]:
    [resolvedRecordId] after the [startsWith("rec")] test. *)
Definition resolvedRecordId (lotNameOrRecordId : option string) : M W (option string) :=
  match lotNameOrRecordId with
  | None => throw TypeError
  | Some key =>
      if negb (startsWith key "rec") then getRecordIdByWarrantyId key
      else ret (Some key)
  end.

(** [error?.message || 'Unknown error'] *)
Definition error_message (details : Body) : string :=
  match details with
  | ErrorBody _ _ (Some m) => if truthy (Some m) then m else "Unknown error"
  | _ => "Unknown error"
  end.

(** [async function updateAirtableRecord(tableName, lotNameOrRecordId, fields)].
    The test [!resolvedRecordId] of the source sits in the lookup branch;
    here it follows the resolution, where it is vacuous for a key with
    the prefix. *)
Definition updateAirtableRecord (tableName : string) (lotNameOrRecordId : option string)
    (fields : gmap string FieldValue) : M W unit :=
  emit (SaveButtonDisabled true) >>
  let* online := reads onLine in
  if negb online then
    emit (Toast "You are offline. Please check your internet connection and try again." "error") >>
    emit (SaveButtonDisabled false)
  else
    finally
      (try_catch
         (let* resolved := resolvedRecordId lotNameOrRecordId in
          match resolved with
          | Some recordId =>
              if negb (truthy resolved) then ret tt
              else
                let* selectedVendorId := reads vendorDropdown in
                let fields :=
                  match selectedVendorId with
                  | Some v =>
                      if truthy selectedVendorId && startsWith v "rec"
                      then <["Material Vendor" := FLinks [v]]> fields
                      else fields
                  | None => fields
                  end in
                let sanitizedFields := delete "Warranty Record ID" fields in
                let* response :=
                  fetchWithRetry (AirtablePatch tableName recordId sanitizedFields) 5 in
                if negb (ok response) then
                  try_catch
                    (let* errorDetails := json response in
                     emit (Toast ("Airtable error: " +:+ error_message errorDetails) "error"))
                    (fun _ =>
                       (* [await response.text()] on the body that [json()]
                          consumed rejects, before the toast of the handler *)
                       throw TypeError)
                else emit (Toast "Record updated successfully!" "success")
          | None => ret tt
          end)
         (fun _ => ret tt))
      (ui (SaveButtonDisabled false)).

(** [async function loadImagesForLot(warrantyId, statusRaw)]: the two
    reads, with the rendering of the grid as one event. *)
Definition loadImagesForLot (warrantyId : option string) : M W unit :=
  let* present := reads imageSectionsPresent in
  if negb present then ret tt
  else
    try_catch
      (let* issueImages := fetchCurrentImagesFromAirtable warrantyId "Picture(s) of Issue" in
       let* completedImages := fetchCurrentImagesFromAirtable warrantyId "Completed  Pictures" in
       emit (RenderGrid issueImages completedImages))
      (fun _ => emit GridError).

End RecordSynchronizer.

(** The results of a read and of a lookup as functions of the answer of
    the transport; the properties below relate the two functions above to
    them. *)
Section Answers.

(** What a read makes of the answer of the transport. *)
Definition images_of_answer (imageField : string) (answer : Outcome Response)
    : list Attachment :=
  match answer with
  | Returns response =>
      if ok response then
        match body response with
        | RecordList (record :: _) => default [] (rec_fields record ≫= (.!! imageField))
        | _ => []
        end
      else []
  | _ => []
  end.

(** What the lookup makes of the answer of the transport. *)
Definition id_of_answer (answer : Outcome Response) : option string :=
  match answer with
  | Returns response =>
      match body response with
      | RecordList (record :: _) => Some (rec_id record)
      | _ => None
      end
  | _ => None
  end.

End Answers.

(** ** Upload pipeline: the merge step *)

Section Merge.

(** [combinedList.some(f => f.url === newFile.url)] *)
Definition some_url (combinedList : list Attachment) (newFile : Attachment) : bool :=
  existsb (fun f => bool_decide (att_url f = att_url newFile)) combinedList.

(** The loop [for (const newFile of uploadedUrls)] over the growing
    [combinedList]. *)
Fixpoint push_unique (combinedList uploadedUrls : list Attachment) : list Attachment :=
  match uploadedUrls with
  | [] => combinedList
  | newFile :: rest =>
      if negb (some_url combinedList newFile)
      then push_unique (combinedList ++ [newFile]) rest
      else push_unique combinedList rest
  end.

(** [{ url: dropboxUrl, filename: file.name || "upload.png" }] *)
Definition uploadedFile (dropboxUrl : string) (file : File) : Attachment :=
  {| att_id := None;
     att_url := Some dropboxUrl;
     att_filename := Some (if truthy (Some (file_name file)) then file_name file else "upload.png");
     att_type := None |}.

(** [uploadedUrls]: the first read of the field followed by the entries
    pushed for the files whose upload produced a link. *)
Definition uploadedUrls (existingImages : list Attachment)
    (uploaded : list (string * File)) : list Attachment :=
  existingImages ++ map (fun p => uploadedFile (fst p) (snd p)) uploaded.

(** [combinedList] as [uploadToDropbox] passes it to
    [updateAirtableRecord]: a copy of the re-read list, then the unique
    new files by URL. *)
Definition combinedList (latestFromAirtable existingImages : list Attachment)
    (uploaded : list (string * File)) : list Attachment :=
  push_unique latestFromAirtable (uploadedUrls existingImages uploaded).

End Merge.

(** ** Deletion coordinator *)

Section Deletion.
Context {W : Type} `{World W}.

(** [imageIdsToDelete.includes(img.id)] *)
Definition includes (imageIdsToDelete : list string) (i : option string) : bool :=
  match i with
  | Some x => bool_decide (x ∈ imageIdsToDelete)
  | None => false
  end.

(** [async function deleteImagesByLotName(warrantyId, imageIdsToDelete, imageField)] *)
Definition deleteImagesByLotName (warrantyId : option string)
    (imageIdsToDelete : list string) (imageField : string) : M W unit :=
  if negb (truthy warrantyId) then ret tt
  else if (length imageIdsToDelete =? 0)%nat then ret tt
  else
    try_catch
      (let* existingImages := fetchCurrentImagesFromAirtable warrantyId imageField in
       if (length existingImages =? 0)%nat then ret tt
       else
         let updatedImages :=
           List.filter (fun img => negb (includes imageIdsToDelete (att_id img))) existingImages in
         if (length updatedImages =? length existingImages)%nat then ret tt
         else
           emit HideDeleteButtonCheck >>
           let* table := reads AIRTABLE_TABLE_NAME in
           updateAirtableRecord table warrantyId {[ imageField := FAttachments updatedImages ]} >>
           loadImagesForLot warrantyId)
      (fun _ => ret tt).

End Deletion.

(** ** Attachment viewer (carousel) *)

Module Carousel.

(** The element appended to [#carousel-body]. *)
Inductive Element :=
| ImgEl (src alt : string)
| IframeEl (src : string)
| AnchorEl (href text : string).

(** The overlay [#attachment-carousel] as [ensureCarouselOverlay] builds
    it: its display style, the children of [#carousel-body] and the
    display style of the two navigation buttons. *)
Record Overlay := {
  ov_display : string;
  ov_body : list Element;
  ov_nav : string
}.

(** The carousel globals of the page and the DOM nodes the carousel
    functions touch.  An absent node is [None].

    The script declares none of [currentCarouselFiles],
    [currentCarouselIndex], [currentCarouselField] and
    [currentWarrantyId]: they exist from their first assignment on, in
    [openCarousel] or [closeCarousel], each of which assigns all four.  A
    [State] holds them from then on, and the functions of this module
    are the carousel functions from then on.  Before, a read of one of
    them raises a [ReferenceError]: see [read_global] and the functions
    built on it. *)
Record State := {
  currentCarouselFiles : list Attachment;
  currentCarouselIndex : Z;
  currentCarouselField : option string;
  currentWarrantyId : option string;
  overlay : option Overlay;
  closeBtn : option string;          (* #carousel-close-button display *)
  saveBtn : option string;           (* #save-job display *)
  bodyOverflow : string;             (* document.body.style.overflow *)
  globalSwipeEnabled : bool
}.

Definition set_overlay (o : option Overlay) (c : State) : State :=
  {| currentCarouselFiles := currentCarouselFiles c;
     currentCarouselIndex := currentCarouselIndex c;
     currentCarouselField := currentCarouselField c;
     currentWarrantyId := currentWarrantyId c;
     overlay := o;
     closeBtn := closeBtn c;
     saveBtn := saveBtn c;
     bodyOverflow := bodyOverflow c;
     globalSwipeEnabled := globalSwipeEnabled c |}.

Definition set_index (i : Z) (c : State) : State :=
  {| currentCarouselFiles := currentCarouselFiles c;
     currentCarouselIndex := i;
     currentCarouselField := currentCarouselField c;
     currentWarrantyId := currentWarrantyId c;
     overlay := overlay c;
     closeBtn := closeBtn c;
     saveBtn := saveBtn c;
     bodyOverflow := bodyOverflow c;
     globalSwipeEnabled := globalSwipeEnabled c |}.

Definition set_files (files : list Attachment) (c : State) : State :=
  {| currentCarouselFiles := files;
     currentCarouselIndex := currentCarouselIndex c;
     currentCarouselField := currentCarouselField c;
     currentWarrantyId := currentWarrantyId c;
     overlay := overlay c;
     closeBtn := closeBtn c;
     saveBtn := saveBtn c;
     bodyOverflow := bodyOverflow c;
     globalSwipeEnabled := globalSwipeEnabled c |}.

(** [currentCarouselFiles.length] as a number. *)
Definition files_length (c : State) : Z := Z.of_nat (length (currentCarouselFiles c)).

(** [files[index]]; [None] is [undefined]. *)
Definition item (files : list Attachment) (index : Z) : option Attachment :=
  if (index <? 0)%Z then None else files !! Z.to_nat index.

(** [s.includes("?")] *)
Definition has_query (s : string) : bool :=
  bool_decide (is_Some (String.index 0 "?" s)).

(** [x || fallback] on an optional string. *)
Definition or_else (x : option string) (fallback : string) : string :=
  match x with
  | Some s => if truthy x then s else fallback
  | None => fallback
  end.

(** What [displayCarouselItem] appends to the emptied body for [file];
    [ts] is [Date.now()]. *)
Definition rendered (ts : Z) (file : Attachment) : list Element :=
  match att_url file with
  | Some u =>
      if truthy (att_url file) then
        if match att_type file with Some t => startsWith t "image/" | None => false end
        then
          let bustedUrl := u +:+ (if has_query u then "&" else "?") +:+ "ts=" +:+ pretty ts in
          [ImgEl bustedUrl (or_else (att_filename file) "Image Preview")]
        else if bool_decide (att_type file = Some "application/pdf")
        then [IframeEl u]
        else [AnchorEl u (or_else (att_filename file) "Download File")]
      else []
  | None => []
  end.

(** [function updateCarouselNavVisibility()] *)
Definition updateCarouselNavVisibility (c : State) : State :=
  match overlay c with
  | None => c
  | Some ov =>
      let nav := if (files_length c <=? 1)%Z then "none" else "block" in
      set_overlay (Some {| ov_display := ov_display ov; ov_body := ov_body ov; ov_nav := nav |}) c
  end.

(** [function displayCarouselItem(index)] *)
Definition displayCarouselItem (ts : Z) (index : Z) (c : State) : State :=
  match overlay c with
  | None => c
  | Some ov =>
      if (index <? 0)%Z || (index >=? files_length c)%Z then c
      else
        match item (currentCarouselFiles c) index with
        | Some file =>
            updateCarouselNavVisibility
              (set_overlay
                 (Some {| ov_display := ov_display ov;
                          ov_body := rendered ts file;
                          ov_nav := ov_nav ov |}) c)
        | None => c
        end
  end.

(** [function ensureCarouselOverlay()]; the overlay it builds holds the
    button [#carousel-close-button], which a page without one gains with
    its display style unset. *)
Definition ensureCarouselOverlay (c : State) : State :=
  match overlay c with
  | Some _ => c
  | None =>
      {| currentCarouselFiles := currentCarouselFiles c;
         currentCarouselIndex := currentCarouselIndex c;
         currentCarouselField := currentCarouselField c;
         currentWarrantyId := currentWarrantyId c;
         overlay := Some {| ov_display := "none"; ov_body := []; ov_nav := "" |};
         closeBtn := match closeBtn c with Some d => Some d | None => Some "" end;
         saveBtn := saveBtn c;
         bodyOverflow := bodyOverflow c;
         globalSwipeEnabled := globalSwipeEnabled c |}
  end.

(** [function openCarousel(files, startIndex = 0, warrantyId, field)] *)
Definition openCarousel (ts : Z) (files : list Attachment) (startIndex : Z)
    (warrantyId field : option string) (c : State) : State :=
  let c := ensureCarouselOverlay c in
  match overlay c with
  | None => c
  | Some ov =>
      let c :=
        {| currentCarouselFiles := files;
           currentCarouselIndex := startIndex;
           currentCarouselField := field;
           currentWarrantyId := warrantyId;
           overlay := Some {| ov_display := "flex"; ov_body := ov_body ov; ov_nav := ov_nav ov |};
           closeBtn := closeBtn c;
           saveBtn := saveBtn c;
           bodyOverflow := bodyOverflow c;
           globalSwipeEnabled := false |} in
      let c := displayCarouselItem ts (currentCarouselIndex c) c in
      {| currentCarouselFiles := currentCarouselFiles c;
         currentCarouselIndex := currentCarouselIndex c;
         currentCarouselField := currentCarouselField c;
         currentWarrantyId := currentWarrantyId c;
         overlay := overlay c;
         closeBtn := closeBtn c;
         saveBtn := saveBtn c;
         bodyOverflow := "hidden";
         globalSwipeEnabled := globalSwipeEnabled c |}
  end.

(** [function closeCarousel()] *)
Definition closeCarousel (c : State) : State :=
  {| currentCarouselFiles := [];
     currentCarouselIndex := 0;
     currentCarouselField := None;
     currentWarrantyId := None;
     overlay :=
       match overlay c with
       | Some ov => Some {| ov_display := "none"; ov_body := ov_body ov; ov_nav := ov_nav ov |}
       | None => None
       end;
     closeBtn := match closeBtn c with Some _ => Some "none" | None => None end;
     saveBtn := match saveBtn c with Some _ => Some "block" | None => None end;
     bodyOverflow := "auto";
     globalSwipeEnabled := true |}.

(** [window.nextImage] *)
Definition nextImage (ts : Z) (c : State) : State :=
  if (files_length c =? 0)%Z then c
  else
    let c := set_index (Z.rem (currentCarouselIndex c + 1) (files_length c)) c in
    displayCarouselItem ts (currentCarouselIndex c) c.

(** [window.prevImage] *)
Definition prevImage (ts : Z) (c : State) : State :=
  if (files_length c =? 0)%Z then c
  else
    let c :=
      set_index (Z.rem (currentCarouselIndex c - 1 + files_length c) (files_length c)) c in
    displayCarouselItem ts (currentCarouselIndex c) c.

(** The carousel in its closed state, on a page whose overlay was
    built. *)
Definition Closed (c : State) : Prop :=
  currentCarouselFiles c = [] /\ currentCarouselIndex c = 0%Z /\
  currentCarouselField c = None /\ currentWarrantyId c = None /\
  globalSwipeEnabled c = true /\ bodyOverflow c = "auto" /\
  match overlay c with Some ov => ov_display ov = "none" | None => True end.

End Carousel.

Import Carousel.

(** ** The page: world, carousel and credential globals *)

Record Page (W : Type) := {
  world : W;
  carousel : Carousel.State;
  dropboxAccessToken : option string;
  dropboxAppKey : option string;
  dropboxAppSecret : option string;
  dropboxRefreshToken : option string
}.
Arguments world {W} _.
Arguments carousel {W} _.
Arguments dropboxAccessToken {W} _.
Arguments dropboxAppKey {W} _.
Arguments dropboxAppSecret {W} _.
Arguments dropboxRefreshToken {W} _.

Section PageState.
Context {W : Type}.

Definition set_world (w : W) (p : Page W) : Page W :=
  {| world := w; carousel := carousel p;
     dropboxAccessToken := dropboxAccessToken p; dropboxAppKey := dropboxAppKey p;
     dropboxAppSecret := dropboxAppSecret p; dropboxRefreshToken := dropboxRefreshToken p |}.

Definition set_carousel (c : Carousel.State) (p : Page W) : Page W :=
  {| world := world p; carousel := c;
     dropboxAccessToken := dropboxAccessToken p; dropboxAppKey := dropboxAppKey p;
     dropboxAppSecret := dropboxAppSecret p; dropboxRefreshToken := dropboxRefreshToken p |}.

Definition set_dropboxAccessToken (t : option string) (p : Page W) : Page W :=
  {| world := world p; carousel := carousel p;
     dropboxAccessToken := t; dropboxAppKey := dropboxAppKey p;
     dropboxAppSecret := dropboxAppSecret p; dropboxRefreshToken := dropboxRefreshToken p |}.

Definition set_app_credentials (key secret refresh : option string) (p : Page W) : Page W :=
  {| world := world p; carousel := carousel p;
     dropboxAccessToken := dropboxAccessToken p; dropboxAppKey := key;
     dropboxAppSecret := secret; dropboxRefreshToken := refresh |}.

(** A computation on the world run from the page. *)
Definition on_world {A} (m : M W A) : M (Page W) A := zoom world set_world m.

(** A carousel function applied to the carousel of the page. *)
Definition on_carousel (f : Carousel.State -> Carousel.State) : M (Page W) unit :=
  modify (fun p => set_carousel (f (carousel p)) p).

End PageState.

(** ** The per-item delete of the open carousel *)

Section CarouselDelete.
Context {W : Type} `{World W}.

(** The click handler of [#delete-current-attachment]. *)
Definition deleteCurrentAttachment : M (Page W) unit :=
  let* c := reads carousel in
  if negb (truthy (currentWarrantyId c)) then
    on_world (emit (Alert "Missing warranty ID. Cannot proceed with deletion."))
  else
    match currentCarouselField c with
    | Some field =>
        if negb (truthy (currentCarouselField c)) then
          on_world (emit (Alert "Missing image field name. Cannot proceed with deletion."))
        else
          match item (currentCarouselFiles c) (currentCarouselIndex c) with
          | None => on_world (emit (Alert "No file selected. Cannot delete."))
          | Some fileToDelete =>
              if negb (truthy (att_id fileToDelete)) then
                on_world (emit (Alert "File is missing a valid ID. Cannot delete."))
              else
                let* yes :=
                  reads (fun p =>
                    confirm ("Delete " +:+ default "undefined" (att_filename fileToDelete) +:+ "?")
                      (world p)) in
                if negb yes then ret tt
                else
                  try_catch
                    (let* existing :=
                       on_world (fetchCurrentImagesFromAirtable (currentWarrantyId c) field) in
                     let updated :=
                       List.filter
                         (fun file => negb (bool_decide (att_id file = att_id fileToDelete)))
                         existing in
                     let* table := reads (fun p => AIRTABLE_TABLE_NAME (world p)) in
                     on_world
                       (updateAirtableRecord table (currentWarrantyId c)
                          {[ field := FAttachments updated ]}) >>
                     on_carousel (set_files updated) >>
                     let* c := reads carousel in
                     (if (files_length c =? 0)%Z then on_carousel closeCarousel
                      else
                        let* ts := reads (fun p => now (world p)) in
                        on_carousel
                          (fun c =>
                             let c :=
                               set_index (Z.min (currentCarouselIndex c) (files_length c - 1)) c in
                             displayCarouselItem ts (currentCarouselIndex c) c)) >>
                     on_world (emit (Toast "File deleted successfully." "success")) >>
                     on_world (emit (ScheduleRefresh 1000)))
                    (fun _ => on_world (emit (Toast "Failed to delete file. Try again." "error")))
          end
    | None =>
        on_world (emit (Alert "Missing image field name. Cannot proceed with deletion."))
    end.

End CarouselDelete.

(** ** Credential broker and the upload of one file *)

Section Dropbox.
Context {W : Type} `{World W}.

(** [s.replace(a, b)]: the first occurrence of [a] is replaced. *)
Definition replace_first (a b s : string) : string :=
  match String.index 0 a s with
  | Some i =>
      String.substring 0 i s +:+ b +:+
      String.substring (i + String.length a) (String.length s - (i + String.length a)) s
  | None => s
  end.

(** [function convertToDirectLink(sharedUrl)]; an [undefined] argument
    makes [sharedUrl.includes] raise. *)
Definition convertToDirectLink (sharedUrl : option string) : M (Page W) (option string) :=
  match sharedUrl with
  | None => throw TypeError
  | Some u =>
      if bool_decide (is_Some (String.index 0 "dropbox.com" u))
      then ret (Some (replace_first "?dl=0" "?raw=1"
                        (replace_first "www.dropbox.com" "dl.dropboxusercontent.com" u)))
      else ret (Some u)
  end.

(** [async function getExistingDropboxLink(filePath)] *)
Definition getExistingDropboxLink (filePath : option string) : M (Page W) (option string) :=
  try_catch
    (let* token := reads dropboxAccessToken in
     let* response := on_world (fetchWithRetry (DropboxListLinks token filePath) 5) in
     if negb (ok response) then throw (Error "Error listing existing shared links")
     else
       let* data := on_world (json response) in
       match data with
       | LinkList (link :: _) => convertToDirectLink link
       | _ => ret None
       end)
    (fun _ => ret None).

(** [async function getDropboxSharedLink(filePath)] *)
Definition getDropboxSharedLink (filePath : option string) : M (Page W) (option string) :=
  try_catch
    (let* token := reads dropboxAccessToken in
     let* response := on_world (fetchWithRetry (DropboxCreateLink token filePath) 5) in
     if (status response =? 409)%Z then getExistingDropboxLink filePath
     else if negb (ok response) then
       let* errorData := on_world (json response) in
       throw (Error "Dropbox shared link error")
     else
       let* data := on_world (json response) in
       convertToDirectLink (match data with SharedLink u => u | _ => None end))
    (fun _ => ret None).

(** [async function refreshDropboxAccessToken(refreshToken, dropboxAppKey, dropboxAppSecret)] *)
Definition refreshDropboxAccessToken (refreshToken appKey appSecret : option string)
    : M (Page W) (option string) :=
  try_catch
    (let* response := on_world (fetchWithRetry (DropboxOAuth refreshToken appKey appSecret) 5) in
     let* data := on_world (json response) in
     if negb (ok response) then ret None
     else
       modify (set_dropboxAccessToken
                 (match data with TokenGrant t => t | _ => None end)) >>
       let* tokenResponse := on_world (await_fetch TokenTableGet) in
       let* tokenData := on_world (json tokenResponse) in
       let recordId :=
         match tokenData with
         | TokenRecordList (r :: _) => tok_id r
         | _ => None
         end in
       match recordId with
       | Some rid =>
           if negb (truthy recordId) then reads dropboxAccessToken
           else
             let* token := reads dropboxAccessToken in
             on_world (await_fetch (TokenTablePatch rid token)) >>
             reads dropboxAccessToken
       | None => reads dropboxAccessToken
       end)
    (fun _ => ret None).

(** [async function fetchDropboxToken()] *)
Definition fetchDropboxToken : M (Page W) (option string) :=
  try_catch
    (let* response := on_world (fetchWithRetry TokenTableGet 5) in
     if negb (ok response) then throw (Error "Error fetching Dropbox token")
     else
       let* data := on_world (json response) in
       match data with
       | TokenRecordList [] => ret None
       | TokenRecordList (record :: _) =>
           modify (set_app_credentials (tok_appKey record) (tok_appSecret record)
                     (tok_refreshToken record)) >>
           if negb (truthy (tok_appKey record)) || negb (truthy (tok_appSecret record))
           then ret None
           else if truthy (tok_token record) then
             modify (set_dropboxAccessToken (tok_token record)) >>
             reads dropboxAccessToken
           else if truthy (tok_refreshToken record) then
             refreshDropboxAccessToken (tok_refreshToken record) (tok_appKey record)
               (tok_appSecret record)
           else ret None
       | _ => throw TypeError
       end)
    (fun _ => ret None).

(** [creds = { appKey, appSecret, refreshToken }] *)
Record Creds := {
  appKey : option string;
  appSecret : option string;
  refreshToken : option string
}.

(** The error body says the access token expired:
    [tag === "expired_access_token" ||
     error_summary?.startsWith("expired_access_token")]. *)
Definition token_expired (errorResponse : Body) : bool :=
  match errorResponse with
  | ErrorBody tag error_summary _ =>
      bool_decide (tag = Some "expired_access_token") ||
      match error_summary with
      | Some s => startsWith s "expired_access_token"
      | None => false
      end
  | _ => false
  end.

(** [async function uploadFileToDropbox(file, token, creds = {}, attempt = 1)];
    the recursion is unrolled [fuel] times. *)
Fixpoint uploadFileToDropbox (fuel : nat) (file : File) (token : option string)
    (creds : Creds) (attempt : nat) : M (Page W) (option string) :=
  match fuel with
  | O => diverge
  | S fuel' =>
      match token with
      | None => ret None
      | Some tok =>
          if negb (truthy token) then ret None
          else
            try_catch
              (let* response := on_world (fetchWithRetry (DropboxUpload tok file) 5) in
               if (status response =? 429)%Z then
                 let delayMs := (2 ^ Z.of_nat attempt * 1000)%Z in
                 if (attempt <=? 5)%nat then
                   on_world (await_sleep delayMs) >>
                   uploadFileToDropbox fuel' file token creds (attempt + 1)
                 else ret None
               else if negb (ok response) then
                 let* errorResponse := on_world (json response) in
                 if token_expired errorResponse then
                   refreshDropboxAccessToken (refreshToken creds) (appKey creds)
                     (appSecret creds) >>
                   let* newToken := fetchDropboxToken in
                   if truthy newToken
                   then uploadFileToDropbox fuel' file newToken creds 1
                   else ret None
                 else ret None
               else
                 let* data := on_world (json response) in
                 getDropboxSharedLink (match data with UploadMeta p => p | _ => None end))
              (fun _ => ret None)
      end
  end.

End Dropbox.

(** The carousel after [closeCarousel] ran on a page whose overlay was
    not built: the four globals hold what [closeCarousel] assigns. *)
Definition blank_carousel : Carousel.State :=
  {| currentCarouselFiles := [];
     currentCarouselIndex := 0;
     currentCarouselField := None;
     currentWarrantyId := None;
     overlay := None;
     closeBtn := None;
     saveBtn := Some "block";
     bodyOverflow := "auto";
     globalSwipeEnabled := true |}.

(** ** Worlds

    Concrete outside worlds against which the page code is run. *)

(** Any world with the list of the requests it received. *)
Record Traced (W : Type) := { inner : W; requests : list Request }.
Arguments inner {W} _.
Arguments requests {W} _.

#[global] Instance Traced_World {W : Type} `{World W} : World (Traced W) := {
  fetch req t :=
    let (r, w') := fetch req (inner t) in
    (r, {| inner := w'; requests := requests t ++ [req] |});
  sleep ms t := {| inner := sleep ms (inner t); requests := requests t |};
  ui e t := {| inner := ui e (inner t); requests := requests t |};
  onLine t := onLine (inner t);
  vendorDropdown t := vendorDropdown (inner t);
  confirm msg t := confirm msg (inner t);
  now t := now (inner t);
  imageSectionsPresent t := imageSectionsPresent (inner t);
  AIRTABLE_TABLE_NAME t := AIRTABLE_TABLE_NAME (inner t)
}.

(** The record-mutation requests of a trace. *)
Definition is_patch (req : Request) : bool :=
  match req with
  | AirtablePatch _ _ _ => true
  | _ => false
  end.

(** A mock endpoint: the [i]-th request it receives is answered by
    [script i]; it counts the requests and adds up the waited delays. *)
Module Endpoint.

Record State := {
  script : nat -> FetchResult;
  issued : nat;
  elapsed : Z
}.

#[global] Instance Endpoint_World : World State := {
  fetch _ e :=
    (script e (issued e),
     {| script := script e; issued := S (issued e); elapsed := elapsed e |});
  sleep ms e := {| script := script e; issued := issued e; elapsed := (elapsed e + ms)%Z |};
  ui _ e := e;
  onLine _ := true;
  vendorDropdown _ := None;
  confirm _ _ := true;
  now _ := 0%Z;
  imageSectionsPresent _ := false;
  AIRTABLE_TABLE_NAME _ := "Warranties"
}.

(** The answer is a response with the rate-limit status. *)
Definition rate_limited (r : FetchResult) : Prop :=
  match r with
  | Fulfilled resp => status resp = 429%Z
  | Rejected => False
  end.

(** 500 + 1000 + ... + 500 * 2^(k-1) *)
Fixpoint doubling_series (k : nat) : Z :=
  match k with
  | O => 0
  | S k' => (doubling_series k' + 500 * 2 ^ Z.of_nat k')%Z
  end.

(** The endpoint after [n] more requests and [d] more milliseconds. *)
Definition advanced (n : nat) (d : Z) (e : State) : State :=
  {| script := script e; issued := issued e + n; elapsed := (elapsed e + d)%Z |}.

End Endpoint.

(** A reliable record store: one table of records, each with its store
    key, its business key (the value of [Warranty Record ID]) and its
    fields.  It answers every request, never with a rate-limit status. *)
Module Store.

Record StoredRecord := {
  sr_id : string;
  sr_key : string;
  sr_fields : gmap string FieldValue
}.

Record State := {
  table : string;
  records : list StoredRecord;
  received : list Request;
  online : bool;
  vendor : option string;
  sections : bool
}.

Definition set_records (rs : list StoredRecord) (s : State) : State :=
  {| table := table s; records := rs; received := received s;
     online := online s; vendor := vendor s; sections := sections s |}.

Definition log (req : Request) (s : State) : State :=
  {| table := table s; records := records s; received := received s ++ [req];
     online := online s; vendor := vendor s; sections := sections s |}.

(** The records selected by [{Warranty Record ID} = key], in table order. *)
Definition matching (key : string) (s : State) : list StoredRecord :=
  List.filter (fun r => String.eqb (sr_key r) key) (records s).

(** An attachment field appears in a response when it is not empty. *)
Definition attachments_of (v : FieldValue) : option (list Attachment) :=
  match v with
  | FAttachments (a :: l) => Some (a :: l)
  | _ => None
  end.

(** A record in the response to a request with [fields[]=field]. *)
Definition project (field : string) (r : StoredRecord) : ARecord :=
  {| rec_id := sr_id r;
     rec_fields :=
       Some match sr_fields r !! field ≫= attachments_of with
            | Some l => {[ field := l ]}
            | None => ∅
            end |}.

(** A record in a response without field selection. *)
Definition project_all (r : StoredRecord) : ARecord :=
  {| rec_id := sr_id r; rec_fields := Some (omap attachments_of (sr_fields r)) |}.

(** PATCH semantics: the given fields replace the stored ones, the
    others are kept. *)
Definition patch_record (rid : string) (fields : gmap string FieldValue)
    (r : StoredRecord) : StoredRecord :=
  if String.eqb (sr_id r) rid
  then {| sr_id := sr_id r; sr_key := sr_key r; sr_fields := fields ∪ sr_fields r |}
  else r.

Definition not_found : Response :=
  {| status := 404; body := ErrorBody None None (Some "NOT_FOUND") |}.

Definition serve (req : Request) (s : State) : Response * State :=
  match req with
  | AirtableImages t key field =>
      if String.eqb t (table s)
      then ({| status := 200; body := RecordList (project field <$> matching key s) |}, s)
      else (not_found, s)
  | AirtableLookup t key =>
      if String.eqb t (table s)
      then ({| status := 200; body := RecordList (project_all <$> take 1 (matching key s)) |}, s)
      else (not_found, s)
  | AirtablePatch t rid fields =>
      if String.eqb t (table s) && existsb (fun r => String.eqb (sr_id r) rid) (records s)
      then ({| status := 200;
               body := RecordList
                         (project_all <$>
                            List.filter (fun r => String.eqb (sr_id r) rid)
                              (patch_record rid fields <$> records s)) |},
            set_records (patch_record rid fields <$> records s) s)
      else (not_found, s)
  | _ => (not_found, s)
  end.

#[global] Instance Store_World : World State := {
  fetch req s := let (r, s') := serve req s in (Fulfilled r, log req s');
  sleep _ s := s;
  ui _ s := s;
  onLine s := online s;
  vendorDropdown s := vendor s;
  confirm _ _ := true;
  now _ := 0%Z;
  imageSectionsPresent s := sections s;
  AIRTABLE_TABLE_NAME s := table s
}.

(** The attachment list the store holds for [field] of the first record
    with business key [key]. *)
Definition stored (key field : string) (s : State) : list Attachment :=
  match matching key s with
  | [] => []
  | r :: _ => default [] (sr_fields r !! field ≫= attachments_of)
  end.

(** The fields [updateAirtableRecord] sends for [fields]. *)
Definition sanitized (fields : gmap string FieldValue) (s : State)
    : gmap string FieldValue :=
  delete "Warranty Record ID"
    match vendor s with
    | Some v =>
        if truthy (vendor s) && startsWith v "rec"
        then <["Material Vendor" := FLinks [v]]> fields
        else fields
    | None => fields
    end.

(** The store key [updateAirtableRecord] resolves for [key]. *)
Definition resolved (key : string) (s : State) : option string :=
  if startsWith key "rec" then Some key else sr_id <$> head (matching key s).

(** The store after [updateAirtableRecord tableName key fields]. *)
Definition after_update (tableName key : string) (fields : gmap string FieldValue)
    (s : State) : State :=
  if online s then
    let s1 := if startsWith key "rec" then s else log (AirtableLookup (table s) key) s in
    match resolved key s with
    | Some recordId =>
        if truthy (Some recordId) then
          let req := AirtablePatch tableName recordId (sanitized fields s) in
          log req (serve req s1).2
        else s1
    | None => s1
    end
  else s.

(** The record-mutation requests the store received. *)
Definition writes (s : State) : list Request := List.filter is_patch (received s).

(** Two states of the store with the same data and the same writes
    received: they differ by read requests at most. *)
Definition same_data (s s' : State) : Prop :=
  table s' = table s /\ records s' = records s /\ online s' = online s /\
  vendor s' = vendor s /\ sections s' = sections s /\ writes s' = writes s.

(** No business key carries the prefix of the store keys, and the
    business key of a record is not among its fields. *)
Definition well_formed (s : State) : Prop :=
  Forall (fun r => startsWith (sr_key r) "rec" = false /\
                   sr_fields r !! "Warranty Record ID" = None) (records s).

(** What a delete of [ids] keeps of a list read from the store. *)
Definition kept (ids : list string) (existing : list Attachment) : list Attachment :=
  List.filter (fun img => negb (includes ids (att_id img))) existing.

End Store.

(** A scripted blob store and credential table: the next [expiries]
    upload requests are answered with an expired-token error; the ones
    after that are accepted, or all refused with a server error when
    [refusing] is set.  The token endpoint grants a token when [granting]
    is set and denies the grant otherwise. *)
Module Blob.

Record State := {
  expiries : nat;
  refusing : bool;
  granting : bool;
  uploads : nat;                     (* upload requests received *)
  refreshes : nat;                   (* token requests received *)
  last_token : option string;        (* the token of the last upload request *)
  credential : TokenRecord
}.

Definition expired : Response :=
  {| status := 401;
     body := ErrorBody (Some "expired_access_token") (Some "expired_access_token/") None |}.

Definition refused : Response :=
  {| status := 500; body := ErrorBody (Some "internal_error") (Some "internal_error/") None |}.

Definition denied : Response :=
  {| status := 400; body := ErrorBody None (Some "invalid_grant") None |}.

Definition shared_url : string := "https://www.dropbox.com/s/abc/photo.jpg?dl=0".

Definition direct_url : string := "https://dl.dropboxusercontent.com/s/abc/photo.jpg?raw=1".

Definition set_token (token : option string) (r : TokenRecord) : TokenRecord :=
  {| tok_id := tok_id r;
     tok_appKey := tok_appKey r;
     tok_appSecret := tok_appSecret r;
     tok_token := token;
     tok_refreshToken := tok_refreshToken r |}.

Definition answer (req : Request) (b : State) : Response * State :=
  match req with
  | DropboxUpload token file =>
      match expiries b with
      | S n =>
          (expired,
           {| expiries := n; refusing := refusing b; granting := granting b;
              uploads := S (uploads b); refreshes := refreshes b;
              last_token := Some token; credential := credential b |})
      | O =>
          (if refusing b then refused
           else {| status := 200; body := UploadMeta (Some ("/uploads/" +:+ file_name file)) |},
           {| expiries := 0; refusing := refusing b; granting := granting b;
              uploads := S (uploads b); refreshes := refreshes b;
              last_token := Some token; credential := credential b |})
      end
  | DropboxOAuth _ _ _ =>
      (if granting b then {| status := 200; body := TokenGrant (Some "fresh-token") |}
       else denied,
       {| expiries := expiries b; refusing := refusing b; granting := granting b;
          uploads := uploads b; refreshes := S (refreshes b);
          last_token := last_token b; credential := credential b |})
  | TokenTableGet => ({| status := 200; body := TokenRecordList [credential b] |}, b)
  | TokenTablePatch _ token =>
      ({| status := 200; body := TokenRecordList [set_token token (credential b)] |},
       {| expiries := expiries b; refusing := refusing b; granting := granting b;
          uploads := uploads b; refreshes := refreshes b;
          last_token := last_token b; credential := set_token token (credential b) |})
  | DropboxCreateLink _ _ => ({| status := 200; body := SharedLink (Some shared_url) |}, b)
  | _ => ({| status := 404; body := NotJson |}, b)
  end.

#[global] Instance Blob_World : World State := {
  fetch req b := let (r, b') := answer req b in (Fulfilled r, b');
  sleep _ b := b;
  ui _ b := b;
  onLine _ := true;
  vendorDropdown _ := None;
  confirm _ _ := true;
  now _ := 0%Z;
  imageSectionsPresent _ := false;
  AIRTABLE_TABLE_NAME _ := "Warranties"
}.

(** The token the credential table holds once a refresh was attempted:
    the granted one, or the one it held before when the grant is denied. *)
Definition readback (b : State) : option string :=
  if granting b then Some "fresh-token" else tok_token (credential b).

(** The credential record has an id, an app key, an app secret and, once
    a refresh was attempted, a token. *)
Definition configured (b : State) : Prop :=
  truthy (tok_id (credential b)) = true /\
  truthy (tok_appKey (credential b)) = true /\
  truthy (tok_appSecret (credential b)) = true /\
  truthy (readback b) = true.

Definition credential0 : TokenRecord :=
  {| tok_id := Some "recTOKEN";
     tok_appKey := Some "key";
     tok_appSecret := Some "secret";
     tok_token := Some "stale-token";
     tok_refreshToken := Some "refresh" |}.

(** A blob store that answers token expiry [k] times. *)
Definition expiring (k : nat) (refuse grant : bool) : State :=
  {| expiries := k; refusing := refuse; granting := grant; uploads := 0; refreshes := 0;
     last_token := None; credential := credential0 |}.

(** A page in front of the blob store, with the stale token cached. *)
Definition page (b : State) : Page State :=
  {| world := b; carousel := blank_carousel;
     dropboxAccessToken := Some "stale-token";
     dropboxAppKey := Some "key";
     dropboxAppSecret := Some "secret";
     dropboxRefreshToken := Some "refresh" |}.

(** The page after a token refresh against the blob store: a granted
    token is cached and written to the credential table; a denied grant
    leaves both as they were. *)
Definition refreshed (p : Page State) : Page State :=
  {| world :=
       {| expiries := expiries (world p); refusing := refusing (world p);
          granting := granting (world p);
          uploads := uploads (world p); refreshes := S (refreshes (world p));
          last_token := last_token (world p);
          credential :=
            if granting (world p)
            then set_token (Some "fresh-token") (credential (world p))
            else credential (world p) |};
     carousel := carousel p;
     dropboxAccessToken :=
       if granting (world p) then Some "fresh-token" else dropboxAccessToken p;
     dropboxAppKey := dropboxAppKey p;
     dropboxAppSecret := dropboxAppSecret p;
     dropboxRefreshToken := dropboxRefreshToken p |}.

(** The page after the token was read back from the credential table. *)
Definition reloaded (p : Page State) : Page State :=
  {| world := world p;
     carousel := carousel p;
     dropboxAccessToken := tok_token (credential (world p));
     dropboxAppKey := tok_appKey (credential (world p));
     dropboxAppSecret := tok_appSecret (credential (world p));
     dropboxRefreshToken := tok_refreshToken (credential (world p)) |}.

Definition creds0 : Creds :=
  {| appKey := Some "key"; appSecret := Some "secret"; refreshToken := Some "refresh" |}.

End Blob.

(** ** Sample data *)

Definition sample_stored : Attachment :=
  {| att_id := Some "attA1"; att_url := Some "https://dl.dropboxusercontent.com/s/a/roof.jpg?raw=1";
     att_filename := Some "roof.jpg"; att_type := Some "image/jpeg" |}.

Definition sample_file : File := {| file_name := "roof-new.jpg"; file_type := "image/jpeg" |}.

Definition sample_pdf : Attachment :=
  {| att_id := Some "attB2"; att_url := Some "https://dl.dropboxusercontent.com/s/b/quote.pdf?raw=1";
     att_filename := Some "quote.pdf"; att_type := Some "application/pdf" |}.

Definition sample_other : Attachment :=
  {| att_id := Some "attC3"; att_url := Some "https://dl.dropboxusercontent.com/s/c/notes.txt";
     att_filename := None; att_type := Some "text/plain" |}.

Definition sample_carousel : Carousel.State :=
  openCarousel 1700000000000 [sample_stored; sample_pdf; sample_other] 0
    (Some "WR-1002") (Some "Picture(s) of Issue") blank_carousel.

(** A store with the record of warranty WR-1002 and its three issue
    pictures. *)
Definition sample_store : Store.State :=
  {| Store.table := "Warranties";
     Store.records :=
       [ {| Store.sr_id := "recABC123"; Store.sr_key := "WR-1002";
            Store.sr_fields :=
              {[ "Picture(s) of Issue" := FAttachments [sample_stored; sample_pdf; sample_other] ]} |};
         {| Store.sr_id := "recDEF456"; Store.sr_key := "WR-1003"; Store.sr_fields := ∅ |} ];
     Store.received := [];
     Store.online := true;
     Store.vendor := None;
     Store.sections := true |}.

(** The page of warranty WR-1002 with the carousel open on its issue
    pictures. *)
Definition sample_page : Page Store.State :=
  {| world := sample_store;
     carousel := sample_carousel;
     dropboxAccessToken := None;
     dropboxAppKey := None;
     dropboxAppSecret := None;
     dropboxRefreshToken := None |}.

(** An endpoint that answers the rate-limit status twice and then 200. *)
Definition sample_endpoint : Endpoint.State :=
  {| Endpoint.script := fun i =>
       if (i <? 2)%nat then Fulfilled {| status := 429; body := NotJson |}
       else Fulfilled {| status := 200; body := RecordList [] |};
     Endpoint.issued := 0;
     Endpoint.elapsed := 0 |}.

(** * Further page code and sample data

    The helpers, handlers and callers around the functions above. *)

(** An endpoint that answers the rate-limit status once and then fails at
    the network level. *)
Definition sample_flaky_endpoint : Endpoint.State :=
  {| Endpoint.script := fun i =>
       if (i <? 1)%nat then Fulfilled {| status := 429; body := NotJson |} else Rejected;
     Endpoint.issued := 0;
     Endpoint.elapsed := 0 |}.


(** A computation that the bounded unrolling never cuts short. *)
Definition terminates {S A : Type} (m : M S A) : Prop :=
  forall s, (m s).1 <> OutOfFuel.

(** A computation that returns a value from every state. *)
Definition always_returns {S A : Type} (m : M S A) : Prop :=
  forall s, exists a s', m s = (Returns a, s').

Section TokenGuard.
Context {W : Type} `{World W}.

(** [async function ensureDropboxToken()] *)
Definition ensureDropboxToken : M (Page W) bool :=
  let* token := reads dropboxAccessToken in
  (if negb (truthy token) then
     let* fetched := fetchDropboxToken in
     modify (set_dropboxAccessToken fetched)
   else ret tt) >>
  let* token := reads dropboxAccessToken in
  if negb (truthy token) then
    on_world (emit (Alert "Error: Could not retrieve Dropbox access token.")) >>
    ret false
  else ret true.

End TokenGuard.

(** ** The carousel globals before their first assignment

    The functions and listeners that read a carousel global before they
    assign it, as the page runs them from its load on.  [assigned] tells
    whether [openCarousel] or [closeCarousel] ran since the page was
    loaded.  When one did, the [Carousel.State] holds the values of the
    four globals.  When none did, the globals do not exist: a read of one
    raises a ReferenceError, and the four components of the state are not
    looked at. *)

(** A read of a carousel global. *)
Definition read_global {S A : Type} (assigned : bool) (global : S -> A) : M S A :=
  if assigned then reads global else throw ReferenceError.

(** A computation that leaves the state as it is. *)
Definition outcome {S A : Type} (f : S -> Outcome A) : M S A := fun s => (f s, s).

(** [window.nextImage] from the load of the page on: its first
    statement reads [currentCarouselFiles]. *)
Definition nextImage_from_load (assigned : bool) (ts : Z) : M Carousel.State unit :=
  read_global assigned currentCarouselFiles >> modify (nextImage ts).

(** [window.prevImage] from the load of the page on. *)
Definition prevImage_from_load (assigned : bool) (ts : Z) : M Carousel.State unit :=
  read_global assigned currentCarouselFiles >> modify (prevImage ts).

(** [function displayCarouselItem(index)] from the load of the page on.
    Every path reads [currentCarouselFiles] first: with the body of the
    overlay on the page, the test [!Array.isArray(currentCarouselFiles)];
    without it, the [console.warn] of the guard, whose argument holds
    [files: currentCarouselFiles]. *)
Definition displayCarouselItem_from_load (assigned : bool) (ts index : Z)
    : M Carousel.State unit :=
  read_global assigned currentCarouselFiles >> modify (displayCarouselItem ts index).

(** [function getWarrantyId()]; [inputValue] is
    [document.getElementById("warranty-id")?.value?.trim()].  The global
    [currentWarrantyId] is read when the input gives no id. *)
Definition getWarrantyId (assigned : bool) (inputValue : option string)
    (c : Carousel.State) : Outcome (option string) :=
  if truthy inputValue then Returns inputValue
  else if negb assigned then Throws ReferenceError
  else if truthy (currentWarrantyId c) then Returns (currentWarrantyId c)
  else Returns None.

Section ViewerDeleteFromLoad.
Context {W : Type} `{World W}.

(** The click handler of [#delete-current-attachment] from the load of
    the page on: its first test reads [currentWarrantyId]. *)
Definition deleteCurrentAttachment_from_load (assigned : bool) : M (Page W) unit :=
  read_global assigned (fun p => currentWarrantyId (carousel p)) >>
  deleteCurrentAttachment.

End ViewerDeleteFromLoad.

(** ** Keyboard, touch and click handlers of the viewer

    Touch coordinates are whole CSS pixels.  [ts] is [Date.now()] at the
    time of the event, as in [displayCarouselItem]. *)

(** The [keydown] listener of the document; [key] is [e.key]. *)
Definition keydown (ts : Z) (key : string) (c : Carousel.State) : Carousel.State :=
  match overlay c with
  | None => c
  | Some ov =>
      if String.eqb (ov_display ov) "none" then c
      else
        let c := if String.eqb key "ArrowRight" then nextImage ts c else c in
        let c := if String.eqb key "ArrowLeft" then prevImage ts c else c in
        if String.eqb key "Escape" then closeCarousel c else c
  end.

(** A touch point: [{ clientX, clientY }]. *)
Record Touch := { clientX : Z; clientY : Z }.

(** The variables [startX], [startY] and [touchMoved] that the listeners
    of [addCarouselSwipeHandlers] share. *)
Record Swipe := { startX : Z; startY : Z; touchMoved : bool }.

(** The variables as [addCarouselSwipeHandlers] initialises them. *)
Definition no_swipe : Swipe := {| startX := 0; startY := 0; touchMoved := false |}.

(** The [touchstart] listener; [touches] is [e.touches]. *)
Definition touchstart (touches : list Touch) (sw : Swipe) : Swipe :=
  match touches with
  | [t] => {| startX := clientX t; startY := clientY t; touchMoved := false |}
  | _ => sw
  end.

(** The test of the [touchmove] listener on a touch point: the move is
    mostly horizontal and longer than 10 pixels. *)
Definition horizontal_move (sw : Swipe) (t : Touch) : bool :=
  let diffX := (clientX t - startX sw)%Z in
  let diffY := (clientY t - startY sw)%Z in
  (Z.abs diffX >? Z.abs diffY)%Z && (Z.abs diffX >? 10)%Z.

(** The [touchmove] listener; [touches] is [e.touches]. *)
Definition touchmove (touches : list Touch) (sw : Swipe) : Swipe :=
  match touches with
  | [t] =>
      if horizontal_move sw t
      then {| startX := startX sw; startY := startY sw; touchMoved := true |}
      else sw
  | _ => sw
  end.

(** The [touchend] listener; [changedTouches] is [e.changedTouches]. *)
Definition touchend (ts : Z) (changedTouches : list Touch) (sw : Swipe)
    (c : Carousel.State) : Carousel.State :=
  if negb (touchMoved sw) then c
  else
    match changedTouches with
    | [t] =>
        let diffX := (clientX t - startX sw)%Z in
        if (Z.abs diffX >? 40)%Z then
          if (diffX >? 0)%Z then prevImage ts c else nextImage ts c
        else c
    | _ => c
    end.

(** The events of the viewer: the preview click that opens it, the three
    buttons of the overlay, a key and the three touch events on its body. *)
Inductive ViewerEvent :=
| Opened (files : list Attachment) (startIndex : Z) (warrantyId field : option string)
| NextClick
| PrevClick
| CloseClick
| KeyDown (key : string)
| TouchStart (touches : list Touch)
| TouchMove (touches : list Touch)
| TouchEnd (changedTouches : list Touch).

(** The listener that an event of the viewer runs, on the swipe variables
    and the carousel globals. *)
Definition viewer_step (ts : Z) (st : Swipe * Carousel.State) (ev : ViewerEvent)
    : Swipe * Carousel.State :=
  let (sw, c) := st in
  match ev with
  | Opened files startIndex warrantyId field =>
      (sw, openCarousel ts files startIndex warrantyId field c)
  | NextClick => (sw, nextImage ts c)
  | PrevClick => (sw, prevImage ts c)
  | CloseClick => (sw, closeCarousel c)
  | KeyDown key => (sw, keydown ts key c)
  | TouchStart touches => (touchstart touches sw, c)
  | TouchMove touches => (touchmove touches sw, c)
  | TouchEnd changedTouches => (sw, touchend ts changedTouches sw c)
  end.

(** A sequence of events of the viewer, in order. *)
Definition viewer_run (ts : Z) (evs : list ViewerEvent) (st : Swipe * Carousel.State)
    : Swipe * Carousel.State :=
  foldl (viewer_step ts) st evs.

(** The overlay exists and is displayed. *)
Definition shown (c : Carousel.State) : bool :=
  match overlay c with
  | Some ov => negb (String.eqb (ov_display ov) "none")
  | None => false
  end.

(** The page swipe is enabled exactly when the overlay is not shown. *)
Definition swipe_locked (c : Carousel.State) : Prop :=
  globalSwipeEnabled c = negb (shown c).

(** The events that leave the viewer open. *)
Definition keeps_open (ev : ViewerEvent) : bool :=
  match ev with
  | Opened _ _ _ _ => false
  | CloseClick => false
  | KeyDown key => negb (String.eqb key "Escape")
  | _ => true
  end.

(** The overlay is displayed with the current item of the list in its
    body, and its navigation buttons are hidden exactly when the list has
    at most one item. *)
Definition showing (ts : Z) (c : Carousel.State) : Prop :=
  exists ov file,
    overlay c = Some ov /\
    item (currentCarouselFiles c) (currentCarouselIndex c) = Some file /\
    ov_display ov = "flex" /\
    ov_body ov = rendered ts file /\
    ov_nav ov = if (files_length c <=? 1)%Z then "none" else "block".

(** [files.findIndex(pred)] from position [i] on; [-1] when no element
    satisfies [pred]. *)
Fixpoint findIndex_from {A : Type} (pred : A -> bool) (l : list A) (i : Z) : Z :=
  match l with
  | [] => (-1)%Z
  | x :: l' => if pred x then i else findIndex_from pred l' (i + 1)%Z
  end.

Definition findIndex {A : Type} (pred : A -> bool) (l : list A) : Z :=
  findIndex_from pred l 0.

(** The click listener that [displayImages] puts on the preview of [file],
    one of [files], in the grid of [fieldName]: the arguments of
    [openCarousel], [getWarrantyId()] among them, are evaluated before it
    runs. *)
Definition previewClick (assigned : bool) (ts : Z) (inputValue : option string)
    (files : list Attachment) (file : Attachment) (fieldName : string)
    : M Carousel.State unit :=
  let fileIndex := findIndex (fun f => bool_decide (att_url f = att_url file)) files in
  let* warrantyId := outcome (getWarrantyId assigned inputValue) in
  modify (openCarousel ts files (if (fileIndex >=? 0)%Z then fileIndex else 0%Z)
            warrantyId (Some fieldName)).

(** The page-level swipe: the variables [touchStartX], [touchEndX] and
    [hasUnsavedChanges], and [window.location.href]. *)
Record Navigation := {
  touchStartX : Z;
  touchEndX : Z;
  hasUnsavedChanges : bool;
  href : string
}.

Section PageSwipe.
Context {W : Type} `{World W}.

(** [function handleSwipeGesture()] *)
Definition handleSwipeGesture (p : Page W) (n : Navigation) : Navigation :=
  if negb (globalSwipeEnabled (carousel p)) then n
  else if (touchStartX n - touchEndX n >? 100)%Z then
    if hasUnsavedChanges n &&
       negb (confirm "Swiped left, You have unsaved changes. Leave page?" (world p))
    then n
    else {| touchStartX := touchStartX n; touchEndX := touchEndX n;
            hasUnsavedChanges := hasUnsavedChanges n; href := "index.html" |}
  else n.

(** The [touchstart] listener of the document; [screenX] is
    [e.changedTouches[0].screenX]. *)
Definition page_touchstart (screenX : Z) (n : Navigation) : Navigation :=
  {| touchStartX := screenX; touchEndX := touchEndX n;
     hasUnsavedChanges := hasUnsavedChanges n; href := href n |}.

(** The [touchend] listener of the document. *)
Definition page_touchend (screenX : Z) (p : Page W) (n : Navigation) : Navigation :=
  handleSwipeGesture p
    {| touchStartX := touchStartX n; touchEndX := screenX;
       hasUnsavedChanges := hasUnsavedChanges n; href := href n |}.

End PageSwipe.

(** ** The grid handlers: bulk delete and refresh *)

Section GridHandlers.
Context {W : Type} `{World W}.

(** The click listener of [#delete-images-btn]; [checked] holds
    [dataset.imageId] of the checked boxes, in document order.  The
    pictographs that open some of the messages of the page are left out of
    the message strings. *)
Definition deleteSelectedImages (assigned : bool) (inputValue : option string)
    (checked : list string) : M (Page W) unit :=
  let* warrantyId := outcome (fun p => getWarrantyId assigned inputValue (carousel p)) in
  if (length checked =? 0)%nat then
    on_world (emit (Alert "Please select at least one image to delete."))
  else
    let imageIdsToDelete := List.filter (fun id => truthy (Some id)) checked in
    if (length imageIdsToDelete =? 0)%nat then ret tt
    else
      on_world (deleteImagesByLotName warrantyId imageIdsToDelete "Picture(s) of Issue") >>
      on_world (deleteImagesByLotName warrantyId imageIdsToDelete "Completed  Pictures") >>
      on_world (loadImagesForLot warrantyId).

(** [async function refreshImageContainers()]; the call of
    [getWarrantyId] is outside its [try]. *)
Definition refreshImageContainers (assigned : bool) (inputValue : option string)
    : M (Page W) unit :=
  let* warrantyId := outcome (fun p => getWarrantyId assigned inputValue (carousel p)) in
  if negb (truthy warrantyId) then ret tt
  else
    try_catch
      (on_world (loadImagesForLot warrantyId))
      (fun _ => on_world (emit (Toast "Error refreshing images. Try again." "error"))).

End GridHandlers.

(** The request is a read of an attachment field. *)
Definition is_image_read (req : Request) : bool :=
  match req with
  | AirtableImages _ _ _ => true
  | _ => false
  end.

(** ** Phone numbers *)

(** The characters that [/[^\d+]/g] leaves: the ten digits and the plus
    sign. *)
Definition digit_or_plus (a : Ascii.ascii) : bool :=
  let n := Ascii.nat_of_ascii a in
  ((48 <=? n)%nat && (n <=? 57)%nat) || (n =? 43)%nat.

(** [s.replace(/[^\d+]/g, "")] *)
Fixpoint strip_phone (s : string) : string :=
  match s with
  | EmptyString => EmptyString
  | String a s' => if digit_or_plus a then String a (strip_phone s') else strip_phone s'
  end.

(** [function normalizePhoneForTel(phoneRaw)] on a string or a missing
    value. *)
Definition normalizePhoneForTel (phoneRaw : option string) : string :=
  match phoneRaw with
  | Some s => if negb (truthy phoneRaw) then "" else strip_phone s
  | None => ""
  end.

(** ** Upload pipeline

    The pipeline writes on the progress elements and on the image grid,
    compresses images with the [imageCompression] library and reads the
    warranty id of the form.  The width of the progress bar is kept as the
    fraction it is computed from.  The call of [refreshImageContainers]
    that is not awaited is recorded as started: its requests are not
    part of the upload. *)

Inductive DomEvent :=
| ProgressDisplay (display : string)
    (* progressContainer.style.display = display *)
| ProgressPercent (numerator denominator : nat)
    (* progressBar.style.width = Math.round(numerator / denominator * 100) + "%" *)
| ProgressLabel (text : string)
    (* progressLabel.textContent = text *)
| DisplayImages (files : list Attachment) (containerId fieldName : string)
    (* await displayImages(files, containerId, fieldName) *)
| HideProgressLater (ms : Z)
    (* setTimeout(() => { progressContainer.style.display = "none" }, ms) *)
| RefreshStarted
    (* refreshImageContainers() *)
| RefreshLater (ms : Z).
    (* setTimeout(() => { refreshImageContainers() }, ms) *)

Class Browser (W : Type) := {
  (* document.getElementById("warranty-id")?.value?.trim() *)
  warrantyIdInput : W -> option string;
  (* await window.imageCompression(file, options); None is a rejection *)
  imageCompression : File -> W -> option File * W;
  (* document.getElementById("upload-progress-container") is an element *)
  progressContainer : W -> bool;
  (* document.getElementById("upload-progress-bar") is an element *)
  progressBar : W -> bool;
  (* document.getElementById("upload-progress-label") is an element *)
  progressLabel : W -> bool;
  render : DomEvent -> W -> W
}.

(** The page with the flag [uploadInProgress]. *)
Record Session (W : Type) := {
  page : Page W;
  uploadInProgress : bool
}.
Arguments page {W} _.
Arguments uploadInProgress {W} _.

(** [s.replace(a, b)] twice, as [convertToDirectLink] applies it to a
    Dropbox URL. *)
Definition direct_link (sharedUrl : string) : string :=
  if bool_decide (is_Some (String.index 0 "dropbox.com" sharedUrl))
  then replace_first "?dl=0" "?raw=1"
         (replace_first "www.dropbox.com" "dl.dropboxusercontent.com" sharedUrl)
  else sharedUrl.

Section UploadPipeline.
Context {W : Type} `{World W} `{Browser W}.

Definition set_page (p : Page W) (s : Session W) : Session W :=
  {| page := p; uploadInProgress := uploadInProgress s |}.

Definition set_uploadInProgress (b : bool) (s : Session W) : Session W :=
  {| page := page s; uploadInProgress := b |}.

(** A computation on the page run from the session. *)
Definition on_page {A} (m : M (Page W) A) : M (Session W) A := zoom page set_page m.

(** A computation on the world run from the session. *)
Definition in_world {A} (m : M W A) : M (Session W) A := on_page (on_world m).

(** A write on the progress elements or the grid. *)
Definition write_dom (e : DomEvent) : M W unit := modify (render e).

(** A property access on an element that may be [null]. *)
Definition element (present : W -> bool) : M W unit :=
  fun w => if present w then (Returns tt, w) else (Throws TypeError, w).

(** [await window.imageCompression(file, options)] *)
Definition await_compression (file : File) : M W File :=
  fun w =>
    match imageCompression file w with
    | (Some compressed, w') => (Returns compressed, w')
    | (None, w') => (Throws (Error "imageCompression"), w')
    end.

(** [async function compressImage(file)] *)
Definition compressImage (file : File) : M W File :=
  try_catch
    (if startsWith (file_type file) "image/" then
       let* compressed := await_compression file in
       ret compressed
     else ret file)
    (fun _ => ret file).

(** The text of the progress label: [`${step} (${index + 1} of ${total})...`]. *)
Definition progress_text (step : string) (index total : nat) : string :=
  step +:+ " (" +:+ pretty (index + 1) +:+ " of " +:+ pretty total +:+ ")...".

(** The loop [for (let index = 0; index < files.length; index++)] of
    [uploadToDropbox], from [index] on: [files] are the files left,
    [uploaded] the links pushed so far, each with its file.  Nothing after
    the push raises, so the handler of an iteration finds the list as it
    was before the iteration. *)
Fixpoint upload_files (fuel : nat) (files : list File) (index total : nat)
    (targetField : string) (creds : Creds) (uploaded : list (string * File))
    : M (Session W) (list (string * File)) :=
  match files with
  | [] => ret uploaded
  | file :: rest =>
      let* uploaded :=
        try_catch
          (in_world (write_dom (ProgressLabel (progress_text "Compressing" index total))) >>
           let* compressedFile := in_world (compressImage file) in
           in_world (write_dom (ProgressLabel (progress_text "Uploading" index total))) >>
           let* token := reads (fun s => dropboxAccessToken (page s)) in
           let* dropboxUrl := on_page (uploadFileToDropbox fuel compressedFile token creds 1) in
           let* uploaded :=
             match dropboxUrl with
             | Some url =>
                 if truthy dropboxUrl then
                   in_world
                     (write_dom
                        (DisplayImages [uploadedFile url file]
                           (if String.eqb targetField "Completed  Pictures"
                            then "completed-pictures" else "issue-pictures")
                           targetField)) >>
                   ret (uploaded ++ [(url, file)])
                 else ret uploaded
             | None => ret uploaded
             end in
           in_world (write_dom (ProgressPercent (index + 1) total)) >>
           ret uploaded)
          (fun _ =>
             in_world (emit (Toast ("Failed to upload " +:+ file_name file) "error")) >>
             ret uploaded) in
      upload_files fuel rest (index + 1) total targetField creds uploaded
  end.

(** [async function uploadToDropbox(files, targetField)]; [fuel] bounds
    the recursion of [uploadFileToDropbox]. *)
Definition uploadToDropbox (assigned : bool) (fuel : nat) (files : list File)
    (targetField : string) : M (Session W) unit :=
  let* token := reads (fun s => dropboxAccessToken (page s)) in
  if negb (truthy token) then ret tt
  else
    modify (set_uploadInProgress true) >>
    let* warrantyId :=
      outcome (fun s => getWarrantyId assigned (warrantyIdInput (world (page s)))
                          (carousel (page s))) in
    let* existingImages := in_world (fetchCurrentImagesFromAirtable warrantyId targetField) in
    let* creds :=
      reads (fun s => {| appKey := dropboxAppKey (page s);
                         appSecret := dropboxAppSecret (page s);
                         refreshToken := dropboxRefreshToken (page s) |}) in
    in_world (element progressContainer) >>
    in_world (write_dom (ProgressDisplay "block")) >>
    in_world (element progressBar) >>
    in_world (write_dom (ProgressPercent 0 1)) >>
    in_world (element progressLabel) >>
    in_world (write_dom (ProgressLabel "Starting upload...")) >>
    let* uploaded := upload_files fuel files 0 (length files) targetField creds [] in
    let* latestFromAirtable :=
      in_world (fetchCurrentImagesFromAirtable warrantyId targetField) in
    let combined := combinedList latestFromAirtable existingImages uploaded in
    let* table := reads (fun s => AIRTABLE_TABLE_NAME (world (page s))) in
    in_world (updateAirtableRecord table warrantyId {[ targetField := FAttachments combined ]}) >>
    modify (set_uploadInProgress false) >>
    in_world (emit HideDeleteButtonCheck) >>
    in_world (write_dom (ProgressPercent 1 1)) >>
    in_world (write_dom (ProgressLabel "Upload complete!")) >>
    in_world (write_dom (HideProgressLater 2000)) >>
    in_world (emit (Toast "All files uploaded successfully!" "success")) >>
    in_world (write_dom RefreshStarted) >>
    in_world (write_dom (RefreshLater 3000)).

(** The [change] listener of an upload input; [info] is the text of
    its first toast. *)
Definition uploadChange (assigned : bool) (fuel : nat) (files : list File)
    (targetField info : string) : M (Session W) unit :=
  if (0 <? length files)%nat then
    let* authenticated := on_page ensureDropboxToken in
    if authenticated then
      in_world (emit (Toast info "info")) >>
      uploadToDropbox assigned fuel files targetField >>
      in_world (emit (Toast "Photo uploaded successfully!" "success"))
    else in_world (emit (Toast "Dropbox authentication failed!" "error"))
  else ret tt.

(** The [beforeunload] listener: the text of the warning, if any. *)
Definition beforeunload (formHasUnsavedChanges : bool) (s : Session W) : option string :=
  if uploadInProgress s
  then Some "Uploads are still in progress. Are you sure you want to leave?"
  else if formHasUnsavedChanges
  then Some "You have unsaved changes. Are you sure you want to leave?"
  else None.

End UploadPipeline.

(** A record store with a blob store and a link service in front of one
    page: the record requests are served by the store, an upload is
    accepted unless the file is refused, and the link service answers the
    shared URL of a path. *)
Module Cloud.

Record State := {
  store : Store.State;
  link : string -> option string;
  refused : File -> bool;
  compressor : File -> option File;
  input : option string;
  progress : bool
}.

Definition set_store (st : Store.State) (c : State) : State :=
  {| store := st; link := link c; refused := refused c; compressor := compressor c;
     input := input c; progress := progress c |}.

Definition answer (req : Request) (c : State) : Response * State :=
  match req with
  | AirtableImages _ _ _ | AirtableLookup _ _ | AirtablePatch _ _ _ =>
      let (r, st) := Store.serve req (store c) in (r, set_store (Store.log req st) c)
  | DropboxUpload _ file =>
      (if refused c file then Blob.refused
       else {| status := 200; body := UploadMeta (Some ("/uploads/" +:+ file_name file)) |},
       c)
  | DropboxCreateLink _ (Some path) =>
      ({| status := 200; body := SharedLink (link c path) |}, c)
  | _ => ({| status := 404; body := NotJson |}, c)
  end.

#[global] Instance Cloud_World : World State := {
  fetch req c := let (r, c') := answer req c in (Fulfilled r, c');
  sleep _ c := c;
  ui _ c := c;
  onLine c := Store.online (store c);
  vendorDropdown c := Store.vendor (store c);
  confirm _ _ := true;
  now _ := 0%Z;
  imageSectionsPresent c := Store.sections (store c);
  AIRTABLE_TABLE_NAME c := Store.table (store c)
}.

#[global] Instance Cloud_Browser : Browser State := {
  warrantyIdInput c := input c;
  imageCompression file c := (compressor c file, c);
  progressContainer c := progress c;
  progressBar c := progress c;
  progressLabel c := progress c;
  render _ c := c
}.

(** The file [compressImage] hands to the upload. *)
Definition compressed (c : State) (file : File) : File :=
  if startsWith (file_type file) "image/"
  then default file (compressor c file)
  else file.

(** The link [uploadFileToDropbox] returns for a file. *)
Definition link_of (c : State) (file : File) : option string :=
  if refused c file then None
  else direct_link <$> link c ("/uploads/" +:+ file_name file).

(** The links [uploadToDropbox] pushes for the files, each with its
    file. *)
Definition pushed (c : State) (files : list File) : list (string * File) :=
  omap (fun file =>
          match link_of c (compressed c file) with
          | Some url => if truthy (Some url) then Some (url, file) else None
          | None => None
          end) files.

End Cloud.

(** The sample store behind the blob store of [sample_file]: photos are
    compressed under the same name, the file [broken.jpg] is refused. *)
Definition sample_cloud : Cloud.State :=
  {| Cloud.store := sample_store;
     Cloud.link := fun path => Some ("https://www.dropbox.com/s" +:+ path +:+ "?dl=0");
     Cloud.refused := fun file => String.eqb (file_name file) "broken.jpg";
     Cloud.compressor := fun file => Some file;
     Cloud.input := Some "WR-1002";
     Cloud.progress := true |}.

Definition sample_session : Session Cloud.State :=
  {| page :=
       {| world := sample_cloud; carousel := blank_carousel;
          dropboxAccessToken := Some "token";
          dropboxAppKey := Some "key";
          dropboxAppSecret := Some "secret";
          dropboxRefreshToken := Some "refresh" |};
     uploadInProgress := false |}.

(** The page in front of the sample cloud before a token was fetched. *)
Definition sample_page_cloud_without_token : Page Cloud.State :=
  {| world := sample_cloud; carousel := blank_carousel;
     dropboxAccessToken := None;
     dropboxAppKey := None;
     dropboxAppSecret := None;
     dropboxRefreshToken := None |}.

(** The session of [sample_session] on a page without the progress
    elements. *)
Definition sample_session_without_progress : Session Cloud.State :=
  {| page :=
       {| world :=
            {| Cloud.store := sample_store;
               Cloud.link := Cloud.link sample_cloud;
               Cloud.refused := Cloud.refused sample_cloud;
               Cloud.compressor := Cloud.compressor sample_cloud;
               Cloud.input := Some "WR-1002";
               Cloud.progress := false |};
          carousel := blank_carousel;
          dropboxAccessToken := Some "token";
          dropboxAppKey := Some "key";
          dropboxAppSecret := Some "secret";
          dropboxRefreshToken := Some "refresh" |};
     uploadInProgress := false |}.

(** The session of [sample_session] on a page whose form holds no
    warranty id. *)
Definition sample_session_without_input : Session Cloud.State :=
  {| page :=
       {| world :=
            {| Cloud.store := sample_store;
               Cloud.link := Cloud.link sample_cloud;
               Cloud.refused := Cloud.refused sample_cloud;
               Cloud.compressor := Cloud.compressor sample_cloud;
               Cloud.input := None;
               Cloud.progress := true |};
          carousel := blank_carousel;
          dropboxAccessToken := Some "token";
          dropboxAppKey := Some "key";
          dropboxAppSecret := Some "secret";
          dropboxRefreshToken := Some "refresh" |};
     uploadInProgress := false |}.

(** The sample store while the browser is offline. *)
Definition sample_offline_store : Store.State :=
  {| Store.table := "Warranties";
     Store.records := Store.records sample_store;
     Store.received := [];
     Store.online := false;
     Store.vendor := None;
     Store.sections := true |}.

(** * Properties *)

(** Unfolds the monad operations and reduces the administrative redexes;
    the embedded functions themselves stay folded. *)
Ltac mred :=
  cbv beta iota delta
    [bind ret throw diverge reads modify get try_catch finally zoom
     emit await_sleep on_world on_carousel];
  repeat (progress (try change (negb true) with false;
                    try change (negb false) with true;
                    cbv beta iota)).

(** ** The merge step of the upload pipeline *)

Section MergeFacts.
Implicit Types (l new : list Attachment) (f e : Attachment).

Lemma some_url_true l f :
  some_url l f = true <-> att_url f ∈ att_url <$> l.
Proof.
  unfold some_url. rewrite existsb_exists, list_elem_of_fmap. split.
  - intros (x & Hx & Heq). apply bool_decide_eq_true in Heq.
    exists x. split; [done | by apply list_elem_of_In].
  - intros (x & Heq & Hx). exists x. split; [by apply list_elem_of_In |].
    by apply bool_decide_eq_true.
Qed.

Lemma some_url_false l f :
  some_url l f = false <-> att_url f ∉ att_url <$> l.
Proof.
  rewrite <- some_url_true. destruct (some_url l f); split; congruence.
Qed.

(** The loop only appends. *)
Lemma push_unique_prefix new : forall l, l `prefix_of` push_unique l new.
Proof.
  induction new as [|f new IH]; intros l; simpl.
  - done.
  - destruct (some_url l f); simpl; [apply IH |].
    etrans; [| apply IH]. by apply prefix_app_r.
Qed.

(** The loop keeps the URLs pairwise distinct. *)
Lemma push_unique_NoDup new :
  forall l, NoDup (att_url <$> l) -> NoDup (att_url <$> push_unique l new).
Proof.
  induction new as [|f new IH]; intros l Hl; simpl; [done |].
  destruct (some_url l f) eqn:Hsome; simpl; [by apply IH |].
  apply IH. rewrite fmap_app. apply NoDup_app. split; [done |].
  split; [| apply NoDup_singleton].
  intros u Hu Hin. apply list_elem_of_singleton in Hin. subst u.
  by apply some_url_false in Hsome.
Qed.

(** An entry of the result is an entry of the initial list or a new file
    whose URL the initial list did not have. *)
Lemma push_unique_elem new :
  forall l e, e ∈ push_unique l new ->
    e ∈ l \/ (e ∈ new /\ att_url e ∉ att_url <$> l).
Proof.
  induction new as [|f new IH]; intros l e He; simpl in He; [by left |].
  destruct (some_url l f) eqn:Hsome; simpl in He.
  - destruct (IH _ _ He) as [?|[? ?]]; [by left |].
    right. split; [by apply list_elem_of_further | done].
  - destruct (IH _ _ He) as [Hin|[Hin Hurl]].
    + apply elem_of_app in Hin as [?|Hin]; [by left |].
      apply list_elem_of_singleton in Hin. subst e.
      right. split; [apply list_elem_of_here | by apply some_url_false].
    + right. split; [by apply list_elem_of_further |].
      intros Hu. apply Hurl. rewrite fmap_app. apply elem_of_app. by left.
Qed.

(** Every URL offered to the loop is in the result. *)
Lemma push_unique_covers new :
  forall l e, e ∈ new -> att_url e ∈ att_url <$> push_unique l new.
Proof.
  induction new as [|f new IH]; intros l e He; [by apply elem_of_nil in He |].
  apply elem_of_cons in He as [->|He]; simpl.
  - destruct (some_url l f) eqn:Hsome; simpl.
    + apply some_url_true in Hsome.
      destruct (push_unique_prefix new l) as [k ->].
      rewrite fmap_app. apply elem_of_app. by left.
    + destruct (push_unique_prefix new (l ++ [f])) as [k ->].
      rewrite !fmap_app. apply elem_of_app. left.
      apply elem_of_app. right. apply list_elem_of_here.
  - destruct (some_url l f); simpl; by apply IH.
Qed.

End MergeFacts.

(** C1: when the re-read list [L] has pairwise distinct URLs, the merged
    list written back by the upload pipeline has pairwise distinct URLs and
    starts with [L]: every entry of [L], and so every id of [L], is in it. *)
Theorem merge_distinct_urls_keeps_stored
    (L existingImages : list Attachment) (uploaded : list (string * File)) :
  NoDup (att_url <$> L) ->
  NoDup (att_url <$> combinedList L existingImages uploaded) /\
  L `prefix_of` combinedList L existingImages uploaded /\
  (forall a, a ∈ L -> a ∈ combinedList L existingImages uploaded) /\
  (forall a, a ∈ L -> att_id a ∈ att_id <$> combinedList L existingImages uploaded).
Proof.
  intros HL. unfold combinedList.
  pose proof (push_unique_prefix (uploadedUrls existingImages uploaded) L) as Hpre.
  split; [by apply push_unique_NoDup |]. split; [done |].
  destruct Hpre as [k Hk]. rewrite Hk. split.
  - intros a Ha. apply elem_of_app. by left.
  - intros a Ha. apply list_elem_of_fmap. exists a. split; [done |].
    apply elem_of_app. by left.
Qed.

Lemma merge_distinct_urls_keeps_stored_witness :
  NoDup (att_url <$> [sample_stored]) /\
  sample_stored ∈ combinedList [sample_stored] [sample_stored]
                    [("https://dl.dropboxusercontent.com/s/b/roof-new.jpg?raw=1", sample_file)].
Proof.
  assert (Hnd : NoDup (att_url <$> [sample_stored])).
  { apply NoDup_singleton. }
  split; [exact Hnd |].
  apply (merge_distinct_urls_keeps_stored [sample_stored] [sample_stored]
           [("https://dl.dropboxusercontent.com/s/b/roof-new.jpg?raw=1", sample_file)] Hnd).
  apply list_elem_of_here.
Defined.

(** When the re-read fails (the empty list) the first read still feeds
    the merge: a first read with pairwise distinct URLs is kept whole. *)
Lemma merge_after_failed_reread (L : list Attachment) (uploaded : list (string * File)) :
  NoDup (att_url <$> L) ->
  L `prefix_of` combinedList [] L uploaded.
Proof.
  intros HL. unfold combinedList, uploadedUrls.
  generalize (map (fun p => uploadedFile p.1 p.2) uploaded). intros new.
  assert (Hgen : forall acc, NoDup (att_url <$> (acc ++ L)) ->
            (acc ++ L) `prefix_of` push_unique acc (L ++ new)).
  { clear HL. induction L as [|a L IH]; intros acc Hnd; simpl.
    - rewrite app_nil_r. apply push_unique_prefix.
    - assert (Hfresh : some_url acc a = false).
      { apply some_url_false. rewrite fmap_app in Hnd. apply NoDup_app in Hnd as (_ & Hdisj & _).
        intros Hin. apply (Hdisj _ Hin). simpl. apply list_elem_of_here. }
      rewrite Hfresh. simpl. replace (acc ++ a :: L) with ((acc ++ [a]) ++ L) in *
        by (by rewrite <- app_assoc). by apply IH. }
  apply (Hgen []). done.
Qed.

(** C4, as stated, fails: on a URL conflict the merged list holds the
    stored entry and not the newly uploaded one. *)
Lemma new_upload_wins_counterexample :
  let url := "https://dl.dropboxusercontent.com/s/a/roof.jpg?raw=1" in
  let newFile := uploadedFile url sample_file in
  att_url newFile = att_url sample_stored /\
  combinedList [sample_stored] [sample_stored] [(url, sample_file)] = [sample_stored] /\
  newFile ∉ combinedList [sample_stored] [sample_stored] [(url, sample_file)].
Proof.
  split; [reflexivity |]. split; [reflexivity |].
  intros Hin. vm_compute in Hin. apply list_elem_of_singleton in Hin. discriminate Hin.
Qed.

(** C4, amended: on a URL conflict between an entry [s] of the re-read
    list and a file [n], the merged list keeps [s]; [n] is in the merged
    list only if it is itself an entry of the re-read list. *)
Theorem stored_entry_wins_url_conflict
    (latestFromAirtable existingImages : list Attachment)
    (uploaded : list (string * File)) (s n : Attachment) :
  s ∈ latestFromAirtable ->
  att_url n = att_url s ->
  s ∈ combinedList latestFromAirtable existingImages uploaded /\
  (n ∈ combinedList latestFromAirtable existingImages uploaded -> n ∈ latestFromAirtable).
Proof.
  intros Hs Hurl. unfold combinedList. split.
  - destruct (push_unique_prefix (uploadedUrls existingImages uploaded) latestFromAirtable)
      as [k ->].
    apply elem_of_app. by left.
  - intros Hn. apply push_unique_elem in Hn as [?|[_ Hfresh]]; [done |].
    exfalso. apply Hfresh. rewrite Hurl. apply list_elem_of_fmap. by exists s.
Qed.

Lemma stored_entry_wins_url_conflict_witness :
  let url := "https://dl.dropboxusercontent.com/s/a/roof.jpg?raw=1" in
  sample_stored ∈ combinedList [sample_stored] [] [(url, sample_file)].
Proof.
  intros url.
  apply (stored_entry_wins_url_conflict [sample_stored] [] [(url, sample_file)]
           sample_stored (uploadedFile url sample_file)).
  - apply list_elem_of_here.
  - reflexivity.
Defined.

(** ** Carousel navigation *)

Section CarouselFacts.
Implicit Types (c : Carousel.State) (ts index : Z).

Lemma updateCarouselNavVisibility_globals c :
  currentCarouselFiles (updateCarouselNavVisibility c) = currentCarouselFiles c /\
  currentCarouselIndex (updateCarouselNavVisibility c) = currentCarouselIndex c.
Proof. unfold updateCarouselNavVisibility. by destruct (overlay c). Qed.

(** Rendering never touches the working set or the index. *)
Lemma displayCarouselItem_globals ts index c :
  currentCarouselFiles (displayCarouselItem ts index c) = currentCarouselFiles c /\
  currentCarouselIndex (displayCarouselItem ts index c) = currentCarouselIndex c.
Proof.
  unfold displayCarouselItem. destruct (overlay c) as [ov|]; [| done].
  destruct (_ || _); [done |].
  destruct (item _ _) as [file|]; [| done].
  match goal with
  | |- context [updateCarouselNavVisibility ?c'] =>
      destruct (updateCarouselNavVisibility_globals c') as [-> ->]
  end.
  done.
Qed.

Lemma files_length_display ts index c :
  files_length (displayCarouselItem ts index c) = files_length c.
Proof. unfold files_length. by rewrite (proj1 (displayCarouselItem_globals _ _ _)). Qed.

Lemma files_length_pos c :
  currentCarouselFiles c <> [] -> (files_length c =? 0)%Z = false.
Proof.
  intros Hne. unfold files_length. by destruct (currentCarouselFiles c).
Qed.

Lemma nextImage_files ts c :
  currentCarouselFiles (nextImage ts c) = currentCarouselFiles c.
Proof.
  unfold nextImage. destruct (_ =? _)%Z; [done |].
  by rewrite (proj1 (displayCarouselItem_globals _ _ _)).
Qed.

Lemma prevImage_files ts c :
  currentCarouselFiles (prevImage ts c) = currentCarouselFiles c.
Proof.
  unfold prevImage. destruct (_ =? _)%Z; [done |].
  by rewrite (proj1 (displayCarouselItem_globals _ _ _)).
Qed.

Lemma nextImage_index ts c :
  (0 < files_length c)%Z ->
  currentCarouselIndex (nextImage ts c) =
    Z.rem (currentCarouselIndex c + 1) (files_length c).
Proof.
  intros Hn. unfold nextImage.
  destruct (Z.eqb_spec (files_length c) 0); [lia |].
  by rewrite (proj2 (displayCarouselItem_globals _ _ _)).
Qed.

Lemma prevImage_index ts c :
  (0 < files_length c)%Z ->
  currentCarouselIndex (prevImage ts c) =
    Z.rem (currentCarouselIndex c - 1 + files_length c) (files_length c).
Proof.
  intros Hn. unfold prevImage.
  destruct (Z.eqb_spec (files_length c) 0); [lia |].
  by rewrite (proj2 (displayCarouselItem_globals _ _ _)).
Qed.

Lemma files_length_next ts c : files_length (nextImage ts c) = files_length c.
Proof. unfold files_length. by rewrite nextImage_files. Qed.

Lemma files_length_prev ts c : files_length (prevImage ts c) = files_length c.
Proof. unfold files_length. by rewrite prevImage_files. Qed.

Lemma files_length_iter_next ts k c :
  files_length (Nat.iter k (nextImage ts) c) = files_length c.
Proof. induction k as [|k IH]; simpl; [done |]. by rewrite files_length_next. Qed.

(** [k] steps forward from a valid index add [k] modulo the length. *)
Lemma nextImage_iter ts k c :
  (0 <= currentCarouselIndex c < files_length c)%Z ->
  currentCarouselIndex (Nat.iter k (nextImage ts) c) =
    ((currentCarouselIndex c + Z.of_nat k) mod files_length c)%Z.
Proof.
  intros Hi. induction k as [|k IH]; simpl.
  - rewrite Z.add_0_r, Z.mod_small; [done | lia].
  - rewrite nextImage_index by (rewrite files_length_iter_next; lia).
    rewrite files_length_iter_next, IH.
    rewrite Z.rem_mod_nonneg.
    + rewrite Zplus_mod_idemp_l. f_equal. lia.
    + pose proof (Z.mod_pos_bound (currentCarouselIndex c + Z.of_nat k)
                    (files_length c)). lia.
    + lia.
Qed.

(** A rendered item: the body of the overlay after [displayCarouselItem]
    at a valid index. *)
Lemma displayCarouselItem_renders ts index c ov file :
  overlay c = Some ov ->
  item (currentCarouselFiles c) index = Some file ->
  ov_body <$> overlay (displayCarouselItem ts index c) = Some (rendered ts file).
Proof.
  intros Hov Hitem. unfold displayCarouselItem. rewrite Hov.
  assert (Hrange : (index <? 0)%Z || (index >=? files_length c)%Z = false).
  { unfold item in Hitem. destruct (Z.ltb_spec index 0); [done |]. simpl.
    apply lookup_lt_Some in Hitem. unfold files_length.
    destruct (Z.geb_spec index (Z.of_nat (length (currentCarouselFiles c)))); [lia | done]. }
  rewrite Hrange, Hitem. unfold updateCarouselNavVisibility. simpl. done.
Qed.

(** Opening captures the working set and the start index and leaves an
    overlay in the page. *)
Lemma openCarousel_globals ts files startIndex warrantyId field c :
  currentCarouselFiles (openCarousel ts files startIndex warrantyId field c) = files /\
  currentCarouselIndex (openCarousel ts files startIndex warrantyId field c) = startIndex /\
  is_Some (overlay (openCarousel ts files startIndex warrantyId field c)).
Proof.
  unfold openCarousel.
  assert (Hov : is_Some (overlay (ensureCarouselOverlay c))).
  { unfold ensureCarouselOverlay. destruct (overlay c) eqn:E; [rewrite E |]; simpl; eauto. }
  destruct Hov as [ov Hov]. rewrite Hov.
  cbn [currentCarouselFiles currentCarouselIndex overlay].
  match goal with
  | |- context [displayCarouselItem ?a ?b ?c'] =>
      destruct (displayCarouselItem_globals a b c') as [-> ->]
  end.
  split; [done |]. split; [done |].
  unfold displayCarouselItem. cbn [overlay].
  destruct (_ || _); [eauto |]. destruct (item _ _); [| eauto].
  unfold updateCarouselNavVisibility, set_overlay. cbn [overlay]. eauto.
Qed.

End CarouselFacts.

(** C5: on a working set of length n >= 1 and from an index in [0, n),
    n times [next] brings the index back, [previous] undoes [next] and
    [next] undoes [previous]; on a 3-item working set opened at index 0,
    [previous] yields index 2 and the body shows files[2]. *)
Theorem carousel_navigation_cyclic (ts : Z) (c : Carousel.State) :
  (1 <= files_length c)%Z ->
  (0 <= currentCarouselIndex c < files_length c)%Z ->
  currentCarouselIndex (Nat.iter (length (currentCarouselFiles c)) (nextImage ts) c)
    = currentCarouselIndex c /\
  currentCarouselIndex (prevImage ts (nextImage ts c)) = currentCarouselIndex c /\
  currentCarouselIndex (nextImage ts (prevImage ts c)) = currentCarouselIndex c /\
  (forall (f0 f1 f2 : Attachment) (warrantyId field : option string),
     let opened := openCarousel ts [f0; f1; f2] 0 warrantyId field c in
     currentCarouselIndex (prevImage ts opened) = 2%Z /\
     item (currentCarouselFiles (prevImage ts opened)) 2 = Some f2 /\
     ov_body <$> overlay (prevImage ts opened) = Some (rendered ts f2)).
Proof.
  intros Hn Hi. set (n := files_length c) in *. set (i := currentCarouselIndex c) in *.
  split; [| split; [| split]].
  - rewrite nextImage_iter by done. fold n i. unfold files_length in n. fold n.
    replace (i + n)%Z with (i + 1 * n)%Z by lia.
    rewrite Z.mod_add by lia. apply Z.mod_small. lia.
  - rewrite prevImage_index by (rewrite files_length_next; lia).
    rewrite files_length_next, nextImage_index by lia. fold n i.
    rewrite !Z.rem_mod_nonneg; try lia.
    + destruct (Z.eq_dec (i + 1) n) as [Heq|Hne].
      * rewrite Heq, Z.mod_same by lia. simpl.
        replace (0 - 1 + n)%Z with i by lia. apply Z.mod_small. lia.
      * rewrite (Z.mod_small (i + 1) n) by lia.
        replace (i + 1 - 1 + n)%Z with (i + 1 * n)%Z by lia.
        rewrite Z.mod_add by lia. apply Z.mod_small. lia.
    + rewrite Z.rem_mod_nonneg by lia.
      pose proof (Z.mod_pos_bound (i + 1) n). lia.
  - rewrite nextImage_index by (rewrite files_length_prev; lia).
    rewrite files_length_prev, prevImage_index by lia. fold n i.
    rewrite !Z.rem_mod_nonneg; try lia.
    + destruct (Z.eq_dec i 0) as [Heq|Hne].
      * rewrite Heq. replace (0 - 1 + n)%Z with (n - 1)%Z by lia.
        rewrite (Z.mod_small (n - 1) n) by lia.
        replace (n - 1 + 1)%Z with n by lia. apply Z.mod_same. lia.
      * replace (i - 1 + n)%Z with (i - 1 + 1 * n)%Z by lia.
        rewrite Z.mod_add by lia. rewrite (Z.mod_small (i - 1) n) by lia.
        replace (i - 1 + 1)%Z with i by lia. apply Z.mod_small. lia.
    + rewrite Z.rem_mod_nonneg by lia.
      pose proof (Z.mod_pos_bound (i - 1 + n) n). lia.
  - intros f0 f1 f2 warrantyId field opened.
    destruct (openCarousel_globals ts [f0; f1; f2] 0 warrantyId field c)
      as (Hfiles & Hidx & [ov Hov]).
    fold opened in Hfiles, Hidx, Hov.
    assert (Hlen : files_length opened = 3%Z) by (unfold files_length; by rewrite Hfiles).
    rewrite prevImage_files, Hfiles. split; [| split; [done |]].
    + rewrite prevImage_index by lia. by rewrite Hlen, Hidx.
    + unfold prevImage. rewrite Hlen, Hidx. simpl.
      by apply (displayCarouselItem_renders _ _ _ ov); simpl; [| rewrite Hfiles].
Qed.

Lemma carousel_navigation_cyclic_witness :
  currentCarouselIndex (prevImage 0 (nextImage 0 sample_carousel))
    = currentCarouselIndex sample_carousel.
Proof.
  assert (Hn : (1 <= files_length sample_carousel)%Z) by (vm_compute; discriminate).
  assert (Hi : (0 <= currentCarouselIndex sample_carousel < files_length sample_carousel)%Z).
  { split; vm_compute; [discriminate | reflexivity]. }
  exact (proj1 (proj2 (carousel_navigation_cyclic 0 sample_carousel Hn Hi))).
Defined.

(** From the first assignment of the globals on: on an empty working
    set [next] and [previous] change nothing, and [displayCarouselItem] at
    an index outside [0, length) changes nothing. *)
Lemma navigation_noop (ts index : Z) (c : Carousel.State) :
  (currentCarouselFiles c = [] -> nextImage ts c = c /\ prevImage ts c = c) /\
  ((index < 0 \/ files_length c <= index)%Z -> displayCarouselItem ts index c = c).
Proof.
  split.
  - intros Hempty. unfold nextImage, prevImage, files_length. by rewrite Hempty.
  - intros Hout. unfold displayCarouselItem. destruct (overlay c); [| done].
    destruct (Z.ltb_spec index 0); [done |]. simpl.
    destruct (Z.geb_spec index (files_length c)); [done | lia].
Qed.

(** C10: on a page where neither [openCarousel] nor [closeCarousel] ran
    yet, [window.nextImage] and [window.prevImage] raise a ReferenceError
    at their guard, and so does [displayCarouselItem] at every index: no
    working set was captured there, and the calls do not return.  From
    the first assignment of the globals on they are no-ops: on an empty
    working set [next] and [previous] return and change nothing, and
    [displayCarouselItem] at an index outside [0, length) returns and
    changes nothing. *)
Theorem navigation_throws_before_first_assignment (ts index : Z) (c : Carousel.State) :
  nextImage_from_load false ts c = (Throws ReferenceError, c) /\
  prevImage_from_load false ts c = (Throws ReferenceError, c) /\
  displayCarouselItem_from_load false ts index c = (Throws ReferenceError, c) /\
  (currentCarouselFiles c = [] ->
   nextImage_from_load true ts c = (Returns tt, c) /\
   prevImage_from_load true ts c = (Returns tt, c)) /\
  ((index < 0 \/ files_length c <= index)%Z ->
   displayCarouselItem_from_load true ts index c = (Returns tt, c)).
Proof.
  split; [done |]. split; [done |]. split; [done |]. split.
  - intros Hempty. destruct (proj1 (navigation_noop ts index c) Hempty) as [Hnext Hprev].
    unfold nextImage_from_load, prevImage_from_load, read_global. mred.
    by rewrite Hnext, Hprev.
  - intros Hout. pose proof (proj2 (navigation_noop ts index c) Hout) as Hshow.
    unfold displayCarouselItem_from_load, read_global. mred. by rewrite Hshow.
Qed.

Lemma navigation_throws_before_first_assignment_witness :
  nextImage_from_load false 5 blank_carousel = (Throws ReferenceError, blank_carousel) /\
  displayCarouselItem_from_load false 5 3 sample_carousel
    = (Throws ReferenceError, sample_carousel) /\
  nextImage_from_load true 5 blank_carousel = (Returns tt, blank_carousel) /\
  displayCarouselItem_from_load true 5 3 sample_carousel = (Returns tt, sample_carousel).
Proof.
  split; [| split; [| split]].
  - exact (proj1 (navigation_throws_before_first_assignment 5 0 blank_carousel)).
  - exact (proj1 (proj2 (proj2
             (navigation_throws_before_first_assignment 5 3 sample_carousel)))).
  - apply (proj1 (proj2 (proj2 (proj2
             (navigation_throws_before_first_assignment 5 0 blank_carousel))))).
    reflexivity.
  - apply (proj2 (proj2 (proj2 (proj2
             (navigation_throws_before_first_assignment 5 3 sample_carousel))))).
    right. vm_compute. discriminate.
Defined.

(** ** Resilient transport *)

Section TransportFacts.
Context {W : Type} `{World W}.

(** The unrolling [fetchWithRetry] chooses is long enough. *)
Lemma fetchWithRetry_loop_fuel (req : Request) (maxRetries : nat) :
  forall fuel attempt delay (w : W),
    maxRetries <= fuel + attempt ->
    (fetchWithRetry_loop fuel req maxRetries attempt delay w).1 <> OutOfFuel.
Proof.
  induction fuel as [|fuel IH]; intros attempt delay w Hfuel; simpl.
  - destruct (Nat.ltb_spec attempt maxRetries); [lia | done].
  - destruct (Nat.ltb_spec attempt maxRetries); [| done].
    unfold bind, await_fetch, await_sleep, modify, ret.
    destruct (fetch req w) as [[r|] w']; [| done].
    destruct (negb _); [done |]. apply IH. lia.
Qed.

Lemma fetchWithRetry_total (req : Request) (maxRetries : nat) (w : W) :
  (fetchWithRetry req maxRetries w).1 <> OutOfFuel.
Proof. apply fetchWithRetry_loop_fuel. lia. Qed.

(** A response without the rate-limit status is returned at once. *)
Lemma fetchWithRetry_first (req : Request) (maxRetries : nat) (w w' : W) (r : Response) :
  0 < maxRetries ->
  fetch req w = (Fulfilled r, w') ->
  status r <> 429%Z ->
  fetchWithRetry req maxRetries w = (Returns r, w').
Proof.
  intros Hm Hfetch Hstatus. unfold fetchWithRetry.
  destruct maxRetries as [|m]; [lia |]. simpl.
  unfold bind, await_fetch. rewrite Hfetch.
  by destruct (Z.eqb_spec (status r) 429).
Qed.

(** A rejected first request makes the call throw. *)
Lemma fetchWithRetry_rejected (req : Request) (maxRetries : nat) (w w' : W) :
  0 < maxRetries ->
  fetch req w = (Rejected, w') ->
  fetchWithRetry req maxRetries w = (Throws NetworkError, w').
Proof.
  intros Hm Hfetch. unfold fetchWithRetry.
  destruct maxRetries as [|m]; [lia |]. simpl.
  unfold bind, await_fetch. by rewrite Hfetch.
Qed.

End TransportFacts.

Section EndpointFacts.
Import Endpoint.
Implicit Types (e : Endpoint.State) (req : Request).

Lemma doubling_series_closed k : doubling_series k = (500 * (2 ^ Z.of_nat k - 1))%Z.
Proof.
  induction k as [|k IH]; [done |].
  cbn [doubling_series]. rewrite IH, Nat2Z.inj_succ, Z.pow_succ_r by lia. lia.
Qed.

Lemma advanced_eq e n d n' d' :
  n = n' -> d = d' -> advanced n d e = advanced n' d' e.
Proof. by intros -> ->. Qed.

(** [k] rate-limit answers, then another answer, with attempts left. *)
Lemma loop_answered req maxRetries r :
  forall k fuel attempt delay e,
    attempt + k < maxRetries ->
    maxRetries <= fuel + attempt ->
    (forall i, i < k -> rate_limited (script e (issued e + i))) ->
    script e (issued e + k) = Fulfilled r ->
    status r <> 429%Z ->
    fetchWithRetry_loop fuel req maxRetries attempt delay e =
      (Returns r, advanced (S k) (delay * (2 ^ Z.of_nat k - 1)) e).
Proof.
  induction k as [|k IH]; intros fuel attempt delay e Hk Hfuel Hlim Hans Hstatus.
  - destruct fuel as [|fuel]; [lia |]. simpl.
    destruct (Nat.ltb_spec attempt maxRetries); [| lia].
    unfold bind, await_fetch. simpl. rewrite Nat.add_0_r in Hans. rewrite Hans.
    destruct (Z.eqb_spec (status r) 429); [done |]. simpl. unfold ret.
    f_equal. unfold advanced. f_equal; lia.
  - destruct fuel as [|fuel]; [lia |]. simpl.
    destruct (Nat.ltb_spec attempt maxRetries); [| lia].
    unfold bind at 1. unfold await_fetch. simpl.
    pose proof (Hlim 0 ltac:(lia)) as H0. rewrite Nat.add_0_r in H0.
    destruct (script e (issued e)) as [r0|] eqn:Hr0; [| done]. simpl in H0.
    rewrite H0. simpl. unfold bind at 1. unfold await_sleep, modify. simpl.
    rewrite (IH fuel (S attempt) (delay * 2)%Z); cbn [script issued elapsed]; try lia.
    + f_equal. unfold advanced. cbn [script issued elapsed]. f_equal; [lia |].
      rewrite Nat2Z.inj_succ, Z.pow_succ_r by lia. lia.
    + intros i Hi. replace (S (issued e) + i) with (issued e + S i) by lia.
      apply Hlim. lia.
    + by replace (S (issued e) + k) with (issued e + S k) by lia.
Qed.

(** As many rate-limit answers as attempts are left. *)
Lemma loop_exhausted req maxRetries :
  forall n fuel attempt delay e,
    attempt + n = maxRetries ->
    n <= fuel ->
    (forall i, i < n -> rate_limited (script e (issued e + i))) ->
    fetchWithRetry_loop fuel req maxRetries attempt delay e =
      (Throws MaxRetriesReached, advanced n (delay * (2 ^ Z.of_nat n - 1)) e).
Proof.
  induction n as [|n IH]; intros fuel attempt delay e Hn Hfuel Hlim.
  - assert (Hdone : (attempt <? maxRetries) = false) by (apply Nat.ltb_ge; lia).
    destruct fuel; simpl; rewrite Hdone; unfold throw; f_equal;
      destruct e; unfold advanced; simpl; f_equal; lia.
  - destruct fuel as [|fuel]; [lia |]. simpl.
    destruct (Nat.ltb_spec attempt maxRetries); [| lia].
    unfold bind at 1. unfold await_fetch. simpl.
    pose proof (Hlim 0 ltac:(lia)) as H0. rewrite Nat.add_0_r in H0.
    destruct (script e (issued e)) as [r0|] eqn:Hr0; [| done]. simpl in H0.
    rewrite H0. simpl. unfold bind at 1. unfold await_sleep, modify. simpl.
    rewrite (IH fuel (S attempt) (delay * 2)%Z); cbn [script issued elapsed]; try lia.
    + f_equal. unfold advanced. cbn [script issued elapsed]. f_equal; [lia |].
      rewrite Nat2Z.inj_succ, Z.pow_succ_r by lia. lia.
    + intros i Hi. replace (S (issued e) + i) with (issued e + S i) by lia.
      apply Hlim. lia.
Qed.

End EndpointFacts.

(** C2: against an endpoint that answers the rate-limit status [k] times,
    [fetchWithRetry] with bound [m] returns the next answer after [k + 1]
    requests and a wait of 500 + 1000 + ... + 500 * 2^(k-1) ms when
    [k < m] (for [k = 0]: the first answer, at once, after one request),
    and throws the max-retries error after exactly [m] requests when
    [m <= k]. *)
Theorem fetchWithRetry_backoff (req : Request) (m k : nat) (e : Endpoint.State) :
  1 <= m ->
  (forall i, i < k -> Endpoint.rate_limited (Endpoint.script e (Endpoint.issued e + i))) ->
  (k < m ->
   forall r, Endpoint.script e (Endpoint.issued e + k) = Fulfilled r ->
             status r <> 429%Z ->
             fetchWithRetry req m e =
               (Returns r, Endpoint.advanced (S k) (Endpoint.doubling_series k) e)) /\
  (m <= k ->
   fetchWithRetry req m e =
     (Throws MaxRetriesReached, Endpoint.advanced m (Endpoint.doubling_series m) e) /\
   Endpoint.issued (fetchWithRetry req m e).2 = Endpoint.issued e + m).
Proof.
  intros Hm Hlim. split.
  - intros Hk r Hans Hstatus. unfold fetchWithRetry.
    rewrite (loop_answered req m r k) by (done || lia).
    f_equal. apply advanced_eq; [done |]. by rewrite doubling_series_closed.
  - intros Hk. assert (Heq : fetchWithRetry req m e =
        (Throws MaxRetriesReached, Endpoint.advanced m (Endpoint.doubling_series m) e)).
    { unfold fetchWithRetry.
      rewrite (loop_exhausted req m m) by (done || lia || (intros; apply Hlim; lia)).
      f_equal. apply advanced_eq; [done |]. by rewrite doubling_series_closed. }
    split; [done |]. by rewrite Heq.
Qed.

Lemma fetchWithRetry_backoff_witness :
  fetchWithRetry TokenTableGet 5 sample_endpoint =
    (Returns {| status := 200; body := RecordList [] |},
     Endpoint.advanced 3 1500 sample_endpoint).
Proof.
  assert (Hm : 1 <= 5) by lia.
  assert (Hlim : forall i, i < 2 ->
            Endpoint.rate_limited
              (Endpoint.script sample_endpoint (Endpoint.issued sample_endpoint + i))).
  { intros i Hi. destruct i as [|[|i]]; simpl; [reflexivity | reflexivity | lia]. }
  assert (Hk : 2 < 5) by lia.
  apply (proj1 (fetchWithRetry_backoff TokenTableGet 5 2 sample_endpoint Hm Hlim) Hk).
  - reflexivity.
  - simpl. lia.
Defined.

(** ** Record synchronizer *)

Section SynchronizerFacts.
Context {W : Type} `{World W}.

(** A read returns, whatever the transport does. *)
Lemma fetchCurrentImagesFromAirtable_answer (wid imageField : string) (w : W) :
  truthy (Some wid) = true ->
  fetchCurrentImagesFromAirtable (Some wid) imageField w =
    (Returns (images_of_answer imageField
                (fetchWithRetry (AirtableImages (AIRTABLE_TABLE_NAME w) wid imageField) 5 w).1),
     (fetchWithRetry (AirtableImages (AIRTABLE_TABLE_NAME w) wid imageField) 5 w).2).
Proof.
  intros Hwid. unfold fetchCurrentImagesFromAirtable. rewrite Hwid. mred.
  pose proof (fetchWithRetry_total
                (AirtableImages (AIRTABLE_TABLE_NAME w) wid imageField) 5 w) as Htotal.
  destruct (fetchWithRetry _ 5 w) as [[response|e|] w1]; simpl in *; [| done | done].
  destruct (ok response); simpl; [| done].
  unfold json. destruct (body response) as [|rs| | | | | |]; simpl; try done.
  destruct rs as [|record rs]; [done |].
  destruct (rec_fields record) as [fields|]; simpl; [| done].
  by destruct (fields !! imageField).
Qed.

Lemma fetchCurrentImagesFromAirtable_returns (warrantyId : option string)
    (imageField : string) (w : W) :
  exists images w',
    fetchCurrentImagesFromAirtable warrantyId imageField w = (Returns images, w').
Proof.
  destruct warrantyId as [wid|]; [| by eexists _, _].
  destruct (truthy (Some wid)) eqn:Hwid.
  - rewrite fetchCurrentImagesFromAirtable_answer by done. by eexists _, _.
  - unfold fetchCurrentImagesFromAirtable. rewrite Hwid. by eexists _, _.
Qed.

Lemma getRecordIdByWarrantyId_answer (key : string) (w : W) :
  getRecordIdByWarrantyId key w =
    (Returns (id_of_answer (fetchWithRetry (AirtableLookup (AIRTABLE_TABLE_NAME w) key) 5 w).1),
     (fetchWithRetry (AirtableLookup (AIRTABLE_TABLE_NAME w) key) 5 w).2).
Proof.
  unfold getRecordIdByWarrantyId. mred.
  pose proof (fetchWithRetry_total (AirtableLookup (AIRTABLE_TABLE_NAME w) key) 5 w) as Htotal.
  destruct (fetchWithRetry _ 5 w) as [[response|e|] w1]; simpl in *; [| done | done].
  unfold json. destruct (body response) as [|rs| | | | | |]; simpl; try done.
  by destruct rs.
Qed.

Lemma resolvedRecordId_returns (key : string) (w : W) :
  exists o w', resolvedRecordId (Some key) w = (Returns o, w').
Proof.
  unfold resolvedRecordId. destruct (startsWith key "rec"); simpl.
  - by eexists _, _.
  - rewrite getRecordIdByWarrantyId_answer. by eexists _, _.
Qed.

(** A write returns: every failure inside it is caught or reported. *)
Lemma updateAirtableRecord_returns (tableName : string) (lotNameOrRecordId : option string)
    (fields : gmap string FieldValue) (w : W) :
  exists w', updateAirtableRecord tableName lotNameOrRecordId fields w = (Returns tt, w').
Proof.
  unfold updateAirtableRecord. mred.
  destruct (onLine (ui (SaveButtonDisabled true) w)); mred; [| by eexists].
  set (w0 := ui (SaveButtonDisabled true) w).
  destruct lotNameOrRecordId as [key|]; [| by eexists].
  destruct (resolvedRecordId_returns key w0) as (o & w1 & ->).
  destruct o as [recordId|]; [| by eexists].
  destruct (truthy (Some recordId)); mred; [| by eexists].
  match goal with
  | |- context [fetchWithRetry ?req 5 w1] =>
      pose proof (fetchWithRetry_total req 5 w1) as Htotal;
      destruct (fetchWithRetry req 5 w1) as [[response|e|] w2]
  end; simpl in *; [| by eexists | done].
  destruct (ok response); simpl; [by eexists |].
  unfold json, ret, throw.
  destruct (body response); simpl; by eexists.
Qed.

End SynchronizerFacts.

(** C7: [fetchCurrentImagesFromAirtable] always returns a list and never
    throws.  Without a record identifier it returns [[]] and sends
    nothing; otherwise it returns [[]] when the transport throws, when the
    response is not OK, when its body is not a record list or lists no
    record, and when the record lacks the field; on an OK response whose
    first record has the field it returns the list stored there. *)
Theorem fetchCurrentImagesFromAirtable_never_throws {W : Type} `{World W}
    (warrantyId : option string) (imageField : string) (w : W) :
  exists images w',
    fetchCurrentImagesFromAirtable warrantyId imageField w = (Returns images, w') /\
    (truthy warrantyId = false -> images = [] /\ w' = w) /\
    (forall wid, warrantyId = Some wid -> truthy warrantyId = true ->
       match fetchWithRetry (AirtableImages (AIRTABLE_TABLE_NAME w) wid imageField) 5 w with
       | (Returns response, w1) =>
           w' = w1 /\
           (ok response = false -> images = []) /\
           (ok response = true ->
              match body response with
              | RecordList (record :: _) =>
                  match rec_fields record with
                  | Some fields =>
                      match fields !! imageField with
                      | Some stored => images = stored
                      | None => images = []
                      end
                  | None => images = []
                  end
              | _ => images = []
              end)
       | (Throws _, w1) => w' = w1 /\ images = []
       | (OutOfFuel, _) => False
       end).
Proof.
  destruct warrantyId as [wid|].
  - destruct (truthy (Some wid)) eqn:Hwid.
    + eexists _, _. split; [by apply fetchCurrentImagesFromAirtable_answer |].
      split; [done |]. intros wid' [= <-] _.
      pose proof (fetchWithRetry_total
                    (AirtableImages (AIRTABLE_TABLE_NAME w) wid imageField) 5 w) as Htotal.
      destruct (fetchWithRetry _ 5 w) as [[response|e|] w1]; simpl in *; [| done | done].
      split; [done |]. split; [by intros -> |]. intros ->.
      destruct (body response) as [|[|record rs]| | | | | |]; try done.
      destruct (rec_fields record) as [fields|]; simpl; [| done].
      by destruct (fields !! imageField).
    + exists [], w. unfold fetchCurrentImagesFromAirtable. rewrite Hwid.
      split; [done |]. split; [done |]. intros wid' _ ?. congruence.
  - exists [], w. split; [done |]. split; [done |]. intros wid' [=].
Qed.

(** ** Requests issued by a write *)

Section TraceFacts.
Context {W : Type} `{World W}.
Implicit Types (t : Traced W) (req : Request).

(** The transport sends nothing but the request it was given. *)
Lemma fetchWithRetry_loop_requests req maxRetries :
  forall fuel attempt delay t r,
    r ∈ requests (fetchWithRetry_loop fuel req maxRetries attempt delay t).2 ->
    r ∈ requests t \/ r = req.
Proof.
  induction fuel as [|fuel IH]; intros attempt delay t r; simpl.
  - destruct (attempt <? maxRetries); simpl; by left.
  - destruct (attempt <? maxRetries); simpl; [| by left].
    unfold await_fetch. mred. simpl.
    destruct (fetch req (inner t)) as [[resp|] w']; simpl.
    + destruct (status resp =? 429)%Z; simpl.
      * intros Hr. apply IH in Hr as [Hr|Hr]; [| by right]. simpl in Hr.
        apply elem_of_app in Hr as [Hr|Hr]; [by left |].
        apply list_elem_of_singleton in Hr. by right.
      * intros Hr. apply elem_of_app in Hr as [Hr|Hr]; [by left |].
        apply list_elem_of_singleton in Hr. by right.
    + intros Hr. apply elem_of_app in Hr as [Hr|Hr]; [by left |].
      apply list_elem_of_singleton in Hr. by right.
Qed.

Lemma fetchWithRetry_requests req maxRetries t r :
  r ∈ requests (fetchWithRetry req maxRetries t).2 -> r ∈ requests t \/ r = req.
Proof. apply fetchWithRetry_loop_requests. Qed.

(** Resolving a key sends at most lookups of that key. *)
Lemma resolvedRecordId_requests (key : string) t r :
  r ∈ requests (resolvedRecordId (Some key) t).2 ->
  r ∈ requests t \/ exists tbl, r = AirtableLookup tbl key.
Proof.
  unfold resolvedRecordId. destruct (startsWith key "rec"); simpl; [by left |].
  rewrite getRecordIdByWarrantyId_answer. simpl.
  intros Hr. apply fetchWithRetry_requests in Hr as [Hr| ->]; [by left |].
  right. by eexists.
Qed.

End TraceFacts.

(** The only PATCH outside [updateAirtableRecord]. *)
Section TokenPatch.
Context {W : Type} `{World W}.

Lemma await_fetch_requests (req : Request) (t : Traced W) :
  requests (await_fetch req t).2 = requests t ++ [req].
Proof.
  unfold await_fetch. simpl. by destruct (fetch req (inner t)) as [[r|] w'].
Qed.

(** The PATCH of the credential table goes to the store key of the first
    record the table itself returned. *)
Lemma refreshDropboxAccessToken_patch_key (rt ak sk : option string)
    (p : Page (Traced W)) (req : Request) :
  req ∈ requests (world (refreshDropboxAccessToken rt ak sk p).2) ->
  req ∈ requests (world p) \/ req = DropboxOAuth rt ak sk \/ req = TokenTableGet \/
  exists (rid : string) (token : option string) (t1 t2 : Traced W)
         (response : Response) (record : TokenRecord) (rest : list TokenRecord),
    req = TokenTablePatch rid token /\
    await_fetch TokenTableGet t1 = (Returns response, t2) /\
    body response = TokenRecordList (record :: rest) /\
    tok_id record = Some rid.
Proof.
  unfold refreshDropboxAccessToken. mred.
  pose proof (fun r => fetchWithRetry_requests (DropboxOAuth rt ak sk) 5 (world p) r) as Hoauth.
  destruct (fetchWithRetry (DropboxOAuth rt ak sk) 5 (world p)) as [answer t1].
  cbn [fst snd] in Hoauth.
  match goal with |- _ -> ?G => set (goal := G) end.
  assert (Hin1 : req ∈ requests t1 -> goal).
  { intros Hr. apply Hoauth in Hr as [?|?]; [by left | by right; left]. }
  assert (Hin2 : req ∈ requests t1 ++ [TokenTableGet] -> goal).
  { intros Hr. apply elem_of_app in Hr as [Hr|Hr]; [by apply Hin1 |].
    apply list_elem_of_singleton in Hr. by right; right; left. }
  destruct answer as [response|e|]; cbn [fst snd world set_world]; try exact Hin1.
  unfold json.
  destruct (body response); cbn [fst snd world set_world]; try exact Hin1;
    (destruct (ok response); mred; cbn [fst snd world set_world set_dropboxAccessToken];
     [| exact Hin1]);
    pose proof (await_fetch_requests TokenTableGet t1) as Hget;
    (destruct (await_fetch TokenTableGet t1) as [[tokenResponse|e|] t2] eqn:Hfetch;
     cbn [fst snd world set_world] in *; try (rewrite Hget; exact Hin2));
    (destruct (body tokenResponse) as [|rs|[|record rest]| | | | |] eqn:Hbody;
     cbn [fst snd world set_world]; try (rewrite Hget; exact Hin2));
    (destruct (tok_id record) as [rid|] eqn:Hrid;
     cbn [fst snd world set_world]; try (rewrite Hget; exact Hin2));
    (destruct (truthy (Some rid)); mred; cbn [fst snd world set_world];
     try (rewrite Hget; exact Hin2));
    match goal with
    | |- context [await_fetch ?q t2] =>
        pose proof (await_fetch_requests q t2) as Hpatch;
        destruct (await_fetch q t2) as [[patchResponse|e|] t3]
    end; cbn [fst snd world set_world] in *; rewrite Hpatch, Hget;
    intros Hr; (apply elem_of_app in Hr as [Hr|Hr]; [by apply Hin2 |]);
    apply list_elem_of_singleton in Hr; right; right; right;
    by eexists _, _, t1, t2, tokenResponse, record, rest.
Qed.

End TokenPatch.

(** The reliable store answers every request at once. *)
Section StoreTransport.
Import Store.
Implicit Types (s : Store.State) (req : Request).

Lemma serve_status req s : status (serve req s).1 <> 429%Z.
Proof.
  destruct req; simpl; try done;
    repeat match goal with |- context [if ?b then _ else _] => destruct b end;
    simpl; done.
Qed.

Lemma store_fetchWithRetry req s :
  fetchWithRetry req 5 s = (Returns (serve req s).1, log req (serve req s).2).
Proof.
  apply fetchWithRetry_first; [lia | | apply serve_status].
  simpl. by destruct (serve req s).
Qed.

(** A lookup on the store gives the store key of the first record with
    the business key. *)
Lemma store_getRecordIdByWarrantyId (key : string) s :
  getRecordIdByWarrantyId key s =
    (Returns (sr_id <$> head (matching key s)), log (AirtableLookup (table s) key) s).
Proof.
  rewrite getRecordIdByWarrantyId_answer, store_fetchWithRetry. simpl.
  rewrite String.eqb_refl. simpl. by destruct (matching key s).
Qed.

End StoreTransport.

(** C8: a key with the prefix "rec" is returned as it is and nothing is
    sent; any other key is looked up by business key and the result is
    the store key of the first record of the answer, or null when the
    answer has none (on the record store: the store key of the first
    record with that business key); and every PATCH that
    [updateAirtableRecord] sends goes to the key resolved this way. *)
Theorem store_key_resolution {W : Type} `{World W} (key : string) :
  (forall w : W, startsWith key "rec" = true ->
     resolvedRecordId (Some key) w = (Returns (Some key), w)) /\
  (forall w : W, startsWith key "rec" = false ->
     exists o w',
       resolvedRecordId (Some key) w = (Returns o, w') /\
       match fetchWithRetry (AirtableLookup (AIRTABLE_TABLE_NAME w) key) 5 w with
       | (Returns response, w1) =>
           w' = w1 /\
           o = match body response with
               | RecordList (record :: _) => Some (rec_id record)
               | _ => None
               end
       | (Throws _, w1) => w' = w1 /\ o = None
       | (OutOfFuel, _) => False
       end) /\
  (forall s : Store.State, startsWith key "rec" = false ->
     (resolvedRecordId (Some key) s).1 =
       Returns (Store.sr_id <$> head (Store.matching key s))) /\
  (forall (t : Traced W) (tableName : string) (fields : gmap string FieldValue) (req : Request),
     req ∈ requests (updateAirtableRecord tableName (Some key) fields t).2 ->
     req ∈ requests t \/
     (exists tbl, req = AirtableLookup tbl key) \/
     (exists recordId sent t1,
        req = AirtablePatch tableName recordId sent /\
        resolvedRecordId (Some key) (ui (SaveButtonDisabled true) t)
          = (Returns (Some recordId), t1))).
Proof.
  split; [| split; [| split]].
  - intros w Hrec. unfold resolvedRecordId. by rewrite Hrec.
  - intros w Hrec. unfold resolvedRecordId. rewrite Hrec. simpl.
    rewrite getRecordIdByWarrantyId_answer. eexists _, _. split; [done |].
    pose proof (fetchWithRetry_total (AirtableLookup (AIRTABLE_TABLE_NAME w) key) 5 w) as Htotal.
    destruct (fetchWithRetry _ 5 w) as [[response|e|] w1]; simpl in *; done.
  - intros s Hrec. unfold resolvedRecordId. rewrite Hrec. simpl.
    by rewrite store_getRecordIdByWarrantyId.
  - intros t tableName fields req. unfold updateAirtableRecord. mred.
    set (t0 := ui (SaveButtonDisabled true) t).
    assert (Ht0 : requests t0 = requests t) by done.
    destruct (onLine t0); mred; [| by left].
    destruct (resolvedRecordId_returns key t0) as (o & t1 & Hres). rewrite Hres.
    assert (Ht1 : forall r, r ∈ requests t1 ->
              r ∈ requests t \/ exists tbl, r = AirtableLookup tbl key).
    { intros r Hr. rewrite <- Ht0. apply resolvedRecordId_requests. by rewrite Hres. }
    destruct o as [recordId|]; mred;
      [| intros Hreq; apply Ht1 in Hreq as [?|?]; [by left | by right; left]].
    destruct (truthy (Some recordId)); mred;
      [| intros Hreq; apply Ht1 in Hreq as [?|?]; [by left | by right; left]].
    match goal with
    | |- context [fetchWithRetry ?q 5 t1] =>
        pose proof (fun r => fetchWithRetry_requests q 5 t1 r) as Ht2;
        destruct (fetchWithRetry q 5 t1) as [answer t2]
    end.
    cbn [fst snd] in Ht2.
    match goal with
    | |- _ -> ?G =>
        assert (Hfinal : forall t3 : Traced W, requests t3 = requests t2 ->
                  req ∈ requests t3 -> G)
    end.
    { intros t3 Heq Hreq. rewrite Heq in Hreq. apply Ht2 in Hreq as [Hreq| ->].
      - apply Ht1 in Hreq as [?|?]; [by left | by right; left].
      - right; right. by eexists _, _, _. }
    destruct answer as [response|e|]; cbn [fst snd]; try by apply Hfinal.
    destruct (ok response); cbn [fst snd]; [by apply Hfinal |].
    unfold json. destruct (body response); cbn [fst snd]; by apply Hfinal.
Qed.

(** ** The per-item delete of the open carousel *)

Lemma closeCarousel_Closed c : Closed (closeCarousel c).
Proof. unfold Closed, closeCarousel. simpl. repeat split. by destruct (overlay c). Qed.

(** C9: once the per-item delete of the open carousel went through its
    guards and the user confirmed, the working set is the re-read list
    without the entries that have the id of the deleted item; if that list
    is empty the carousel is closed, otherwise the index is the minimum of
    the previous index and the new length minus one, which is a valid
    position, and the body of the overlay shows the item at that index. *)
Theorem delete_current_attachment_updates_viewer {W : Type} `{World W}
    (p : Page W) (field : string) (fileToDelete : Attachment) :
  truthy (currentWarrantyId (carousel p)) = true ->
  currentCarouselField (carousel p) = Some field ->
  truthy (Some field) = true ->
  item (currentCarouselFiles (carousel p)) (currentCarouselIndex (carousel p))
    = Some fileToDelete ->
  truthy (att_id fileToDelete) = true ->
  confirm ("Delete " +:+ default "undefined" (att_filename fileToDelete) +:+ "?") (world p)
    = true ->
  exists existing w1 p',
    fetchCurrentImagesFromAirtable (currentWarrantyId (carousel p)) field (world p)
      = (Returns existing, w1) /\
    deleteCurrentAttachment p = (Returns tt, p') /\
    let updated :=
      List.filter (fun file => negb (bool_decide (att_id file = att_id fileToDelete))) existing in
    let c' := carousel p' in
    (updated = [] -> c' = closeCarousel (set_files [] (carousel p)) /\ Closed c') /\
    (updated <> [] ->
       currentCarouselFiles c' = updated /\
       currentCarouselIndex c'
         = Z.min (currentCarouselIndex (carousel p)) (Z.of_nat (length updated) - 1) /\
       (0 <= currentCarouselIndex c' < Z.of_nat (length updated))%Z /\
       exists file,
         item updated (currentCarouselIndex c') = Some file /\
         (forall ov, overlay (carousel p) = Some ov ->
            exists ts, ov_body <$> overlay c' = Some (rendered ts file))).
Proof.
  intros Hwid Hfield Hfieldt Hitem Hid Hconfirm.
  destruct (fetchCurrentImagesFromAirtable_returns (currentWarrantyId (carousel p)) field (world p))
    as (existing & w1 & Hread).
  exists existing, w1.
  set (updated := List.filter _ existing).
  destruct (updateAirtableRecord_returns (AIRTABLE_TABLE_NAME w1) (currentWarrantyId (carousel p))
              {[ field := FAttachments updated ]} w1) as (w2 & Hwrite).
  unfold deleteCurrentAttachment. mred.
  rewrite Hwid, Hfield, Hfieldt, Hitem, Hid. mred. rewrite Hconfirm. mred.
  rewrite Hread. mred. cbn [world set_world carousel].
  fold updated. rewrite Hwrite. mred. cbn [world set_world carousel set_carousel].
  assert (Hidx0 : (0 <= currentCarouselIndex (carousel p))%Z).
  { unfold item in Hitem. destruct (Z.ltb_spec (currentCarouselIndex (carousel p)) 0); [done | lia]. }
  destruct updated as [|a l] eqn:Hupd.
  - eexists. split; [done |].
    change (files_length (set_files [] (carousel p)) =? 0)%Z with true. cbv beta iota.
    split; [reflexivity |]. cbn [carousel set_carousel set_world].
    split; [| done]. intros _. split; [done | apply closeCarousel_Closed].
  - eexists. split; [done |].
    change (files_length (set_files (a :: l) (carousel p)) =? 0)%Z with false. cbv beta iota.
    split; [reflexivity |]. cbn [carousel set_carousel set_world world].
    split; [done |]. intros _.
    set (n := Z.of_nat (length (a :: l))).
    assert (Hn : (1 <= n)%Z) by (unfold n; simpl; lia).
    change (files_length (set_files (a :: l) (carousel p))) with n.
    set (idx := Z.min (currentCarouselIndex (carousel p)) (n - 1)).
    match goal with
    | |- context [displayCarouselItem ?ts ?i ?c0] =>
        destruct (displayCarouselItem_globals ts i c0) as [Hfiles Hindex];
        pose proof (displayCarouselItem_renders ts i c0) as Hrender
    end.
    rewrite Hfiles, Hindex. cbn [currentCarouselFiles currentCarouselIndex set_index set_files].
    split; [done |]. split; [done |]. split; [lia |].
    assert (Hfile : is_Some (item (a :: l) idx)).
    { unfold item. destruct (Z.ltb_spec idx 0); [lia |].
      apply lookup_lt_is_Some. unfold n in *. lia. }
    destruct Hfile as [file Hfile]. exists file. split; [done |].
    intros ov Hov. eexists. apply (Hrender ov file); [done | done].
Qed.

Lemma delete_current_attachment_updates_viewer_witness :
  exists p', deleteCurrentAttachment sample_page = (Returns tt, p').
Proof.
  destruct (delete_current_attachment_updates_viewer sample_page "Picture(s) of Issue"
              sample_stored)
    as (existing & w1 & p' & _ & Hrun & _); try reflexivity.
  exists p'. exact Hrun.
Defined.

(** ** Deletion on the record store *)

Section StoreFacts.
Import Store.
Implicit Types (s : Store.State) (req : Request).

Lemma store_read (wid field : string) s :
  truthy (Some wid) = true ->
  fetchCurrentImagesFromAirtable (Some wid) field s =
    (Returns (stored wid field s), log (AirtableImages (table s) wid field) s).
Proof.
  intros Hwid. rewrite fetchCurrentImagesFromAirtable_answer by done.
  rewrite store_fetchWithRetry. simpl. rewrite String.eqb_refl. simpl.
  f_equal. unfold stored. destruct (matching wid s) as [|r rs]; [done |].
  simpl. destruct (sr_fields r !! field ≫= attachments_of) as [l|]; simpl.
  - by rewrite lookup_singleton_eq.
  - by rewrite lookup_empty.
Qed.

(** The tail of a write on the store, from the PATCH on. *)
Lemma store_update (tableName key : string) (fields : gmap string FieldValue) s :
  updateAirtableRecord tableName (Some key) fields s =
    (Returns tt, after_update tableName key fields s).
Proof.
  unfold updateAirtableRecord, after_update, resolved. mred.
  cbn [ui onLine vendorDropdown Store_World].
  destruct (online s); mred; [| done].
  unfold resolvedRecordId.
  destruct (startsWith key "rec") eqn:Hrec; mred.
  - destruct (truthy (Some key)); mred; [| done].
    fold (sanitized fields s). rewrite store_fetchWithRetry.
    destruct (serve _ s) as [resp s2]. cbn [fst snd].
    destruct (ok resp); mred; [done |].
    unfold json. by destruct (body resp).
  - rewrite store_getRecordIdByWarrantyId.
    destruct (head (matching key s)) as [r|]; cbn [fmap option_fmap option_map]; [| done].
    destruct (truthy (Some (sr_id r))); mred; [| done].
    cbn [vendor log]. fold (sanitized fields s). rewrite store_fetchWithRetry.
    destruct (serve _ _) as [resp s2]. cbn [fst snd].
    destruct (ok resp); mred; [done |].
    unfold json. by destruct (body resp).
Qed.

Lemma same_data_refl s : same_data s s.
Proof. by repeat split. Qed.

Lemma same_data_trans s1 s2 s3 : same_data s1 s2 -> same_data s2 s3 -> same_data s1 s3.
Proof.
  intros (? & ? & ? & ? & ? & ?) (? & ? & ? & ? & ? & ?). repeat split; congruence.
Qed.

Lemma same_data_log req s : is_patch req = false -> same_data s (log req s).
Proof.
  intros Hreq. repeat split. unfold writes, log. simpl.
  rewrite List.filter_app. simpl. rewrite Hreq. by rewrite app_nil_r.
Qed.

Lemma same_data_matching key s s' : same_data s s' -> matching key s' = matching key s.
Proof. intros (_ & Hr & _). unfold matching. by rewrite Hr. Qed.

Lemma same_data_stored key field s s' :
  same_data s s' -> stored key field s' = stored key field s.
Proof. intros Hsame. unfold stored. by rewrite (same_data_matching _ _ _ Hsame). Qed.

(** A read leaves the data of the store as they are. *)
Lemma store_read_same (warrantyId : option string) (field : string) s :
  same_data s (fetchCurrentImagesFromAirtable warrantyId field s).2.
Proof.
  destruct warrantyId as [wid|]; [| apply same_data_refl].
  destruct (truthy (Some wid)) eqn:Hwid.
  - rewrite store_read by done. by apply same_data_log.
  - unfold fetchCurrentImagesFromAirtable. rewrite Hwid. apply same_data_refl.
Qed.

Lemma store_load (warrantyId : option string) s :
  exists s', loadImagesForLot warrantyId s = (Returns tt, s') /\ same_data s s'.
Proof.
  unfold loadImagesForLot. mred. destruct (imageSectionsPresent s); mred.
  - pose proof (store_read_same warrantyId "Picture(s) of Issue" s) as H1.
    destruct (fetchCurrentImagesFromAirtable_returns warrantyId "Picture(s) of Issue" s)
      as (l1 & s1 & E1). rewrite E1 in *. cbn [snd] in H1.
    pose proof (store_read_same warrantyId "Completed  Pictures" s1) as H2.
    destruct (fetchCurrentImagesFromAirtable_returns warrantyId "Completed  Pictures" s1)
      as (l2 & s2 & E2). rewrite E2 in *. cbn [snd] in H2.
    eexists. split; [done |]. cbn [ui Store_World]. by eapply same_data_trans.
  - eexists. split; [done |]. apply same_data_refl.
Qed.

Lemma same_data_resolved key s s' : same_data s s' -> resolved key s' = resolved key s.
Proof. intros Hsame. unfold resolved. by rewrite (same_data_matching _ _ _ Hsame). Qed.

(** A write that is not sent leaves the data as they are. *)
Lemma after_update_unsent (tableName key : string) (fields : gmap string FieldValue) s :
  online s = false \/ truthy (resolved key s) = false ->
  same_data s (after_update tableName key fields s).
Proof.
  intros Hcond. unfold after_update. destruct (online s) eqn:Hon; [| apply same_data_refl].
  destruct Hcond as [?|Hres]; [done |].
  assert (Hs1 : same_data s
            (if startsWith key "rec" then s else log (AirtableLookup (table s) key) s)).
  { destruct (startsWith key "rec"); [apply same_data_refl | by apply same_data_log]. }
  destruct (resolved key s) as [rid|]; [| done]. by rewrite Hres.
Qed.

Lemma kept_idemp ids existing : kept ids (kept ids existing) = kept ids existing.
Proof.
  unfold kept. induction existing as [|a l IH]; [done |]. simpl.
  destruct (negb (includes ids (att_id a))) eqn:Ha; simpl; [| done].
  by rewrite Ha, IH.
Qed.

Lemma kept_nil existing : kept [] existing = existing.
Proof.
  unfold kept. induction existing as [|a l IH]; [done |]. simpl.
  assert (Ha : includes [] (att_id a) = false).
  { unfold includes. destruct (att_id a); [| done].
    apply bool_decide_eq_false. apply not_elem_of_nil. }
  rewrite Ha. simpl. by rewrite IH.
Qed.

(** The delete evaluated on the store. *)
Lemma store_delete (wid : string) (ids : list string) (field : string) s :
  exists s',
    deleteImagesByLotName (Some wid) ids field s = (Returns tt, s') /\
    ((truthy (Some wid) = false \/ ids = [] \/
      length (kept ids (stored wid field s)) = length (stored wid field s)) /\
     same_data s s'
     \/
     (truthy (Some wid) = true /\
      length (kept ids (stored wid field s)) <> length (stored wid field s) /\
      same_data
        (after_update (table s) wid {[ field := FAttachments (kept ids (stored wid field s)) ]}
           (log (AirtableImages (table s) wid field) s))
        s')).
Proof.
  unfold deleteImagesByLotName.
  destruct (truthy (Some wid)) eqn:Hwid; mred;
    [| eexists; split; [done |]; left; split; [by left | apply same_data_refl]].
  destruct ids as [|i ids]; mred;
    [eexists; split; [done |]; left; split; [by right; left | apply same_data_refl] |].
  change (length (i :: ids) =? 0) with false. mred.
  rewrite store_read by done. mred.
  fold (kept (i :: ids) (stored wid field s)).
  set (read := log (AirtableImages (table s) wid field) s).
  assert (Hread : same_data s read) by by apply same_data_log.
  destruct (stored wid field s) as [|a l] eqn:Hst.
  { eexists. split; [done |]. left. split; [by right; right | done]. }
  change (length (a :: l) =? 0) with false. mred.
  destruct (Nat.eqb_spec (length (kept (i :: ids) (a :: l))) (length (a :: l))) as [Heq|Hne]; mred.
  { eexists. split; [done |]. left. split; [by right; right | done]. }
  cbn [ui AIRTABLE_TABLE_NAME Store_World]. rewrite store_update.
  replace (table read) with (table s) by done.
  destruct (store_load (Some wid)
              (after_update (table s) wid
                 {[ field := FAttachments (kept (i :: ids) (a :: l)) ]} read))
    as (s' & -> & Hload).
  eexists. split; [done |]. right. split; [done |]. split; [done | exact Hload].
Qed.

Lemma matching_key key s r : r ∈ matching key s -> sr_key r = key /\ r ∈ records s.
Proof.
  unfold matching. rewrite list_elem_of_In, filter_In, <- list_elem_of_In.
  intros [Hin Heq]. by apply String.eqb_eq in Heq.
Qed.

Lemma matching_patch key rid fields s :
  List.filter (fun r => String.eqb (sr_key r) key) (patch_record rid fields <$> records s)
    = patch_record rid fields <$> matching key s.
Proof.
  unfold matching. induction (records s) as [|r rs IH]; [done |]. simpl.
  assert (Hkey : sr_key (patch_record rid fields r) = sr_key r).
  { unfold patch_record. by destruct (String.eqb _ _). }
  rewrite Hkey. destruct (String.eqb (sr_key r) key); simpl; [f_equal |]; exact IH.
Qed.

(** After a write that is sent, the stored list is the written list. *)
Lemma after_update_stored (wid field : string) (updated : list Attachment) s :
  well_formed s ->
  stored wid field s <> [] ->
  online s = true ->
  truthy (resolved wid s) = true ->
  stored wid field
    (after_update (table s) wid {[ field := FAttachments updated ]} s) = updated \/
  stored wid field
    (after_update (table s) wid {[ field := FAttachments updated ]} s) = [].
Proof.
  intros Hwf Hst Hon Hres. unfold stored in Hst.
  destruct (matching wid s) as [|r rs] eqn:Hm; [done |].
  destruct (matching_key wid s r) as [Hkey Hr]; [rewrite Hm; apply list_elem_of_here |].
  unfold well_formed in Hwf. rewrite Forall_forall in Hwf.
  destruct (Hwf r Hr) as [Hprefix Hwr]. rewrite Hkey in Hprefix.
  unfold after_update, resolved in *. rewrite Hon, Hprefix in *. rewrite Hm in *.
  cbn [head fmap option_fmap option_map] in *. rewrite Hres.
  set (san := sanitized _ _).
  cbn [serve log table records]. rewrite String.eqb_refl.
  assert (Hex : existsb (fun r0 => String.eqb (sr_id r0) (sr_id r)) (records s) = true).
  { apply existsb_exists. exists r. split; [by apply list_elem_of_In | apply String.eqb_refl]. }
  rewrite Hex. cbn [andb snd].
  unfold stored, matching. cbn [records log set_records].
  rewrite matching_patch, Hm. cbn [fmap list_fmap].
  unfold patch_record. rewrite String.eqb_refl. cbn [sr_fields].
  assert (Hfield : field <> "Warranty Record ID").
  { intros ->. rewrite Hwr in Hst. by simpl in Hst. }
  assert (Hsan : san !! field = Some (FAttachments updated) \/
                 exists v, san !! field = Some (FLinks [v])).
  { unfold san, sanitized. rewrite lookup_delete_ne by done.
    destruct (vendor s) as [v|]; [| left; apply lookup_singleton_eq].
    destruct (truthy (Some v) && startsWith v "rec"); [| left; apply lookup_singleton_eq].
    destruct (decide (field = "Material Vendor")) as [->|Hmv].
    - right. exists v. apply lookup_insert_eq.
    - left. rewrite lookup_insert_ne by done. apply lookup_singleton_eq. }
  destruct Hsan as [Hsan|[v Hsan]].
  - rewrite (lookup_union_Some_l _ _ _ _ Hsan). simpl.
    destruct updated; [by right | by left].
  - rewrite (lookup_union_Some_l _ _ _ _ Hsan). by right.
Qed.

(** After a delete, the same delete finds nothing to write or cannot
    send its write. *)
Lemma store_delete_settles (wid : string) (ids : list string) (field : string) s s1 :
  well_formed s ->
  deleteImagesByLotName (Some wid) ids field s = (Returns tt, s1) ->
  (truthy (Some wid) = false \/ ids = [] \/
   length (kept ids (stored wid field s1)) = length (stored wid field s1)) \/
  online s1 = false \/ truthy (resolved wid s1) = false.
Proof.
  intros Hwf Hrun.
  destruct (store_delete wid ids field s) as (s1' & Hrun' & Hcase).
  rewrite Hrun in Hrun'. injection Hrun' as <-.
  destruct Hcase as [[Hquiet Hsame]|(Hwid & Hne & Hsame)].
  - left. rewrite (same_data_stored _ _ _ _ Hsame). exact Hquiet.
  - set (read := log (AirtableImages (table s) wid field) s) in *.
    assert (Hread : same_data s read) by by apply same_data_log.
    set (updated := kept ids (stored wid field s)) in *.
    destruct (online s) eqn:Hon; [destruct (truthy (resolved wid s)) eqn:Hres |].
    + left. right. right. rewrite (same_data_stored _ _ _ _ Hsame).
      assert (Hwf' : well_formed read) by done.
      assert (Hst : stored wid field read <> []).
      { rewrite (same_data_stored _ _ _ _ Hread). intros Hnil.
        unfold updated in Hne. rewrite Hnil in Hne. by apply Hne. }
      assert (Hres' : truthy (resolved wid read) = true)
        by by rewrite (same_data_resolved _ _ _ Hread).
      pose proof (after_update_stored wid field updated read Hwf' Hst Hon Hres') as Hafter.
      change (table read) with (table s) in Hafter.
      destruct Hafter as [-> | ->]; [| done].
      unfold updated. by rewrite kept_idemp.
    + right. right.
      assert (Hunsent : same_data read
                (after_update (table s) wid {[ field := FAttachments updated ]} read)).
      { apply after_update_unsent. right. by rewrite (same_data_resolved _ _ _ Hread). }
      rewrite (same_data_resolved _ _ _ Hsame), (same_data_resolved _ _ _ Hunsent).
      by rewrite (same_data_resolved _ _ _ Hread).
    + right. left.
      assert (Hunsent : same_data read
                (after_update (table s) wid {[ field := FAttachments updated ]} read)).
      { apply after_update_unsent. by left. }
      destruct Hsame as (_ & _ & -> & _). destruct Hunsent as (_ & _ & -> & _). done.
Qed.

(** A settled delete leaves the data of the store as they are. *)
Lemma store_delete_settled (wid : string) (ids : list string) (field : string) s :
  (truthy (Some wid) = false \/ ids = [] \/
   length (kept ids (stored wid field s)) = length (stored wid field s)) \/
  online s = false \/ truthy (resolved wid s) = false ->
  exists s',
    deleteImagesByLotName (Some wid) ids field s = (Returns tt, s') /\ same_data s s'.
Proof.
  intros Hsettled.
  destruct (store_delete wid ids field s) as (s' & Hrun & Hcase).
  exists s'. split; [done |].
  destruct Hcase as [[_ Hsame]|(Hwid & Hne & Hsame)]; [done |].
  destruct Hsettled as [[?|[?|?]]|Hunsent]; [congruence | | done |].
  - subst ids. by rewrite kept_nil in Hne.
  - set (read := log (AirtableImages (table s) wid field) s) in *.
    assert (Hread : same_data s read) by by apply same_data_log.
    eapply same_data_trans; [exact Hread |].
    eapply same_data_trans; [| exact Hsame].
    apply after_update_unsent.
    destruct Hunsent as [?|?]; [by left |].
    right. by rewrite (same_data_resolved _ _ _ Hread).
Qed.

End StoreFacts.

(** C3: on the record store, a second [deleteImagesByLotName] with the
    same identifiers right after the first returns without error, sends
    no PATCH and leaves every record, and so every stored attachment
    list, as the first call left it. *)
Theorem delete_twice_idempotent (warrantyId : option string) (ids : list string)
    (imageField : string) (s : Store.State) :
  Store.well_formed s ->
  let first := deleteImagesByLotName warrantyId ids imageField s in
  let second := deleteImagesByLotName warrantyId ids imageField first.2 in
  first.1 = Returns tt /\
  second.1 = Returns tt /\
  Store.records second.2 = Store.records first.2 /\
  (forall key field, Store.stored key field second.2 = Store.stored key field first.2) /\
  Store.writes second.2 = Store.writes first.2.
Proof.
  intros Hwf first second. subst first second.
  destruct warrantyId as [wid|]; [| by repeat split].
  destruct (store_delete wid ids imageField s) as (s1 & Hrun1 & _). rewrite Hrun1.
  cbn [fst snd].
  destruct (store_delete_settled wid ids imageField s1) as (s2 & Hrun2 & Hsame).
  { by eapply store_delete_settles. }
  rewrite Hrun2. cbn [fst snd].
  split; [done |]. split; [done |].
  split; [by destruct Hsame as (_ & -> & _) |].
  split; [intros; by apply same_data_stored | by destruct Hsame as (_ & _ & _ & _ & _ & ->)].
Qed.

Lemma delete_twice_idempotent_witness :
  let first :=
    deleteImagesByLotName (Some "WR-1002") ["attB2"] "Picture(s) of Issue" sample_store in
  let second :=
    deleteImagesByLotName (Some "WR-1002") ["attB2"] "Picture(s) of Issue" first.2 in
  Store.stored "WR-1002" "Picture(s) of Issue" first.2 = [sample_stored; sample_other] /\
  Store.writes second.2 = Store.writes first.2.
Proof.
  assert (Hwf : Store.well_formed sample_store).
  { unfold Store.well_formed, sample_store. simpl.
    repeat (constructor; [split; vm_compute; reflexivity |]). constructor. }
  split; [vm_compute; reflexivity |].
  exact (proj2 (proj2 (proj2 (proj2
    (delete_twice_idempotent (Some "WR-1002") ["attB2"] "Picture(s) of Issue"
       sample_store Hwf))))).
Defined.


(** ** Token expiry during an upload *)

Section UploadFacts.
Context {W : Type} `{World W}.

(** An upload never throws: its body runs inside [try] and the handler
    returns null. *)
Lemma uploadFileToDropbox_never_throws (fuel : nat) (file : File) (token : option string)
    (creds : Creds) (attempt : nat) (p : Page W) (e : Exn) :
  (uploadFileToDropbox fuel file token creds attempt p).1 <> Throws e.
Proof.
  destruct fuel as [|fuel]; [done |]. cbn [uploadFileToDropbox].
  destruct token as [tok|]; [| done].
  destruct (truthy (Some tok)); mred; [| done].
  match goal with
  | |- context [let (o, s') := ?m in _] => destruct m as [[a|e'|] p']
  end; done.
Qed.

(** The expiry branch: an upload answered by token expiry, followed by a
    refresh after which a token is read back, continues as a fresh upload
    with that token and the attempt counter back at 1. *)
Lemma uploadFileToDropbox_reenters (fuel : nat) (file : File) (tok newToken : string)
    (creds : Creds) (attempt : nat) (p p1 p2 p3 : Page W)
    (response : Response) (refreshResult : option string) :
  truthy (Some tok) = true ->
  on_world (fetchWithRetry (DropboxUpload tok file) 5) p = (Returns response, p1) ->
  status response <> 429%Z ->
  ok response = false ->
  token_expired (body response) = true ->
  refreshDropboxAccessToken (refreshToken creds) (appKey creds) (appSecret creds) p1
    = (Returns refreshResult, p2) ->
  fetchDropboxToken p2 = (Returns (Some newToken), p3) ->
  truthy (Some newToken) = true ->
  uploadFileToDropbox (S fuel) file (Some tok) creds attempt p =
    uploadFileToDropbox fuel file (Some newToken) creds 1 p3.
Proof.
  intros Htok Hupload Hstatus Hok Hexpired Hrefresh Hreload Hnew.
  cbn [uploadFileToDropbox]. rewrite Htok. mred.
  unfold on_world, zoom in Hupload. rewrite Hupload.
  destruct (Z.eqb_spec (status response) 429); [done |]. rewrite Hok. mred.
  unfold json. destruct (body response) eqn:Hbody; try done. mred.
  replace (set_world (world p1) p1) with p1 by (by destruct p1).
  rewrite Hexpired. mred. rewrite Hrefresh. mred. rewrite Hreload. mred.
  rewrite Hnew. mred.
  pose proof (uploadFileToDropbox_never_throws fuel file (Some newToken) creds 1 p3) as Hnt.
  destruct (uploadFileToDropbox fuel file (Some newToken) creds 1 p3) as [[a|e|] p4];
    [done | by destruct (Hnt e) | done].
Qed.

End UploadFacts.

Section BlobFacts.
Import Blob.
Implicit Types (b : Blob.State) (p : Page Blob.State) (req : Request).

Lemma answer_status req b : status (answer req b).1 <> 429%Z.
Proof.
  destruct req; simpl; try done.
  - destruct (expiries b); simpl; [| done]. by destruct (refusing b).
  - by destruct (granting b).
Qed.

Lemma blob_fetchWithRetry req b :
  fetchWithRetry req 5 b = (Returns (answer req b).1, (answer req b).2).
Proof.
  apply fetchWithRetry_first; [lia | | apply answer_status].
  simpl. by destruct (answer req b).
Qed.

Lemma blob_await_fetch req b :
  await_fetch req b = (Returns (answer req b).1, (answer req b).2).
Proof. unfold await_fetch. simpl. by destruct (answer req b). Qed.

Lemma ok_200 (bd : Body) : ok {| status := 200; body := bd |} = true.
Proof. reflexivity. Qed.

Lemma blob_refresh (rt ak sk : option string) p :
  truthy (tok_id (credential (world p))) = true ->
  refreshDropboxAccessToken rt ak sk p =
    (Returns (if granting (world p) then Some "fresh-token" else None), refreshed p).
Proof.
  intros Hid. unfold refreshDropboxAccessToken, refreshed. mred.
  rewrite blob_fetchWithRetry. cbn [answer fst snd].
  destruct (granting (world p)) eqn:Hgrant.
  - unfold json. cbn [body]. mred.
    rewrite ok_200. mred. cbn [world set_world set_dropboxAccessToken].
    rewrite blob_await_fetch. cbn [answer fst snd body]. mred.
    cbn [credential]. destruct (tok_id (credential (world p))) as [rid|] eqn:Erid; [| done].
    rewrite Hid. mred. cbn [world set_world set_dropboxAccessToken dropboxAccessToken].
    rewrite blob_await_fetch. cbn [answer fst snd]. mred.
    reflexivity.
  - unfold denied, json. cbn [body]. mred.
    change (ok {| status := 400; body := _ |}) with false. mred.
    by destruct p.
Qed.

Lemma blob_reload p :
  truthy (tok_appKey (credential (world p))) = true ->
  truthy (tok_appSecret (credential (world p))) = true ->
  truthy (tok_token (credential (world p))) = true ->
  fetchDropboxToken p = (Returns (tok_token (credential (world p))), reloaded p).
Proof.
  intros Hkey Hsecret Htoken. unfold fetchDropboxToken. mred.
  rewrite blob_fetchWithRetry. cbn [answer fst snd]. rewrite ok_200. mred.
  unfold json. cbn [body]. mred.
  rewrite Hkey, Hsecret, Htoken. cbn [orb]. mred.
  reflexivity.
Qed.

Lemma convert_shared_url p :
  convertToDirectLink (Some shared_url) p = (Returns (Some direct_url), p).
Proof. reflexivity. Qed.

Lemma blob_link (filePath : option string) p :
  getDropboxSharedLink filePath p = (Returns (Some direct_url), p).
Proof.
  unfold getDropboxSharedLink. mred. rewrite blob_fetchWithRetry. cbn [answer fst snd].
  cbn [status]. change (200 =? 409)%Z with false. mred. rewrite ok_200. mred.
  unfold json. cbn [body]. mred. rewrite convert_shared_url. by destruct p.
Qed.

(** The token a refresh leaves in the credential table. *)
Lemma refreshed_token p :
  tok_token (credential (world (refreshed p))) = readback (world p).
Proof. unfold refreshed, readback. cbn [world credential]. by destruct (granting (world p)). Qed.

Lemma refreshed_configured p : configured (world p) -> configured (world (refreshed p)).
Proof.
  intros (Hid & Hkey & Hsecret & Hread). unfold configured, readback, refreshed in *.
  cbn [world credential granting]. by destruct (granting (world p)).
Qed.

(** One more expiry answer, one more refresh and one more upload. *)
Lemma upload_expiry_chain (file : File) (creds : Creds) :
  forall (k fuel : nat) (tok : string) (attempt : nat) p,
    k < fuel ->
    truthy (Some tok) = true ->
    configured (world p) ->
    expiries (world p) = k ->
    exists p',
      uploadFileToDropbox fuel file (Some tok) creds attempt p =
        (Returns (if refusing (world p) then None else Some direct_url), p') /\
      uploads (world p') = uploads (world p) + k + 1 /\
      refreshes (world p') = refreshes (world p) + k /\
      last_token (world p') = match k with O => Some tok | S _ => readback (world p) end.
Proof.
  induction k as [|k IH]; intros fuel tok attempt p Hfuel Htok Hconf Hexp.
  - destruct fuel as [|fuel]; [lia |]. cbn [uploadFileToDropbox]. rewrite Htok. mred.
    rewrite blob_fetchWithRetry. cbn [answer]. rewrite Hexp. cbn [fst snd].
    destruct (refusing (world p)) eqn:Href.
    + unfold refused. cbn [status]. change (500 =? 429)%Z with false. mred.
      change (ok {| status := 500; body := _ |}) with false. mred.
      unfold json. cbn [body]. mred.
      change (token_expired _) with false. mred.
      eexists. split; [reflexivity |]. cbn [world set_world uploads refreshes last_token].
      split; [lia |]. split; [lia | done].
    + cbn [status]. change (200 =? 429)%Z with false. mred. rewrite ok_200. mred.
      unfold json. cbn [body]. mred. rewrite blob_link.
      eexists. split; [reflexivity |]. cbn [world set_world uploads refreshes last_token].
      split; [lia |]. split; [lia | done].
  - destruct fuel as [|fuel]; [lia |].
    set (b1 := {| expiries := k; refusing := refusing (world p);
                  granting := granting (world p);
                  uploads := S (uploads (world p)); refreshes := refreshes (world p);
                  last_token := Some tok; credential := credential (world p) |}).
    assert (Hans : answer (DropboxUpload tok file) (world p) = (expired, b1)).
    { cbn [answer]. by rewrite Hexp. }
    set (p1 := set_world b1 p).
    set (p3 := reloaded (refreshed p1)).
    assert (Hconf1 : configured (world p1)) by exact Hconf.
    assert (Hread1 : readback (world p1) = readback (world p)) by reflexivity.
    assert (Hup3 : uploads (world p3) = S (uploads (world p))) by reflexivity.
    assert (Href3 : refreshes (world p3) = S (refreshes (world p))) by reflexivity.
    assert (Hexp3 : expiries (world p3) = k) by reflexivity.
    assert (Hrefusing3 : refusing (world p3) = refusing (world p)) by reflexivity.
    assert (Hread3 : readback (world p3) = readback (world p)).
    { unfold readback, p3, p1, b1. cbn [reloaded refreshed world set_world granting credential].
      by destruct (granting (world p)). }
    pose proof (refreshed_configured p1 Hconf1) as Hconf3.
    destruct (readback (world p)) as [newToken|] eqn:Hnew;
      [| destruct Hconf as (_ & _ & _ & Hr); by rewrite Hnew in Hr].
    assert (Htruthy : truthy (Some newToken) = true).
    { destruct Hconf as (_ & _ & _ & Hr). by rewrite Hnew in Hr. }
    rewrite (uploadFileToDropbox_reenters fuel file tok newToken creds attempt p p1
               (refreshed p1) p3 expired
               (if granting (world p1) then Some "fresh-token" else None)).
    + destruct (IH fuel newToken 1 p3) as (p' & Hrun & Hup & Href & Hlast);
        [lia | done | exact Hconf3 | exact Hexp3 |].
      exists p'. rewrite Hrun, Hrefusing3. split; [done |].
      split; [lia |]. split; [lia |].
      rewrite Hlast. destruct k; [done | by rewrite Hread3].
    + exact Htok.
    + unfold on_world, zoom. rewrite blob_fetchWithRetry, Hans. reflexivity.
    + done.
    + reflexivity.
    + reflexivity.
    + apply blob_refresh. by destruct Hconf1.
    + unfold p3. rewrite <- Hread1, <- refreshed_token. apply blob_reload.
      * by destruct Hconf3 as (_ & ? & _).
      * by destruct Hconf3 as (_ & _ & ? & _).
      * rewrite refreshed_token, Hread1. exact Htruthy.
    + exact Htruthy.
Qed.

End BlobFacts.

(** C6, as stated, fails: against a blob store that answers token expiry
    twice, the upload is retried twice, each time after a refresh. *)
Lemma single_expiry_retry_counterexample :
  let r := uploadFileToDropbox 5 sample_file (Some "stale-token") Blob.creds0 1
             (Blob.page (Blob.expiring 2 false true)) in
  r.1 = Returns (Some Blob.direct_url) /\
  Blob.uploads (world r.2) = 3 /\
  Blob.refreshes (world r.2) = 2 /\
  ~ Blob.uploads (world r.2) <= 2.
Proof. vm_compute. repeat split; lia. Qed.

(** C6, amended: an upload answered by token expiry is followed by a token
    refresh and, the token being read back from the credential table, by
    a retry with that token through a fresh call; a retry answered by
    token expiry is refreshed and retried again.  Against a blob store
    that answers token expiry [k] times, the call sends [k + 1] upload
    requests and [k] refresh requests, the last upload carrying the token
    read back when [k >= 1]; it returns the link when the last upload is
    accepted and null, with no further retry, when it fails for another
    reason. *)
Theorem expiry_retry_until_answered (k fuel : nat) (file : File) (tok : string)
    (creds : Creds) (attempt : nat) (p : Page Blob.State) :
  k < fuel ->
  truthy (Some tok) = true ->
  Blob.configured (world p) ->
  Blob.expiries (world p) = k ->
  let r := uploadFileToDropbox fuel file (Some tok) creds attempt p in
  r.1 = Returns (if Blob.refusing (world p) then None else Some Blob.direct_url) /\
  Blob.uploads (world r.2) = Blob.uploads (world p) + k + 1 /\
  Blob.refreshes (world r.2) = Blob.refreshes (world p) + k /\
  Blob.last_token (world r.2)
    = match k with O => Some tok | S _ => Blob.readback (world p) end.
Proof.
  intros Hfuel Htok Hconf Hexp r. subst r.
  destruct (upload_expiry_chain file creds k fuel tok attempt p Hfuel Htok Hconf Hexp)
    as (p' & -> & Hrest).
  split; [done | exact Hrest].
Qed.

Lemma expiry_retry_until_answered_witness :
  Blob.uploads
    (world (uploadFileToDropbox 4 sample_file (Some "stale-token") Blob.creds0 1
              (Blob.page (Blob.expiring 3 true false))).2) = 4.
Proof.
  assert (Hfuel : 3 < 4) by lia.
  assert (Htok : truthy (Some "stale-token") = true) by reflexivity.
  assert (Hconf : Blob.configured (world (Blob.page (Blob.expiring 3 true false)))).
  { repeat split. }
  exact (proj1 (proj2
    (expiry_retry_until_answered 3 4 sample_file "stale-token" Blob.creds0 1
       (Blob.page (Blob.expiring 3 true false)) Hfuel Htok Hconf eq_refl))).
Defined.

(** ** Instances of the read and of the key resolution on the sample store *)

Lemma fetchCurrentImagesFromAirtable_never_throws_witness :
  exists images w',
    fetchCurrentImagesFromAirtable (Some "WR-1002") "Picture(s) of Issue" sample_store
      = (Returns images, w').
Proof.
  destruct (fetchCurrentImagesFromAirtable_never_throws (Some "WR-1002")
              "Picture(s) of Issue" sample_store) as (images & w' & Hrun & _).
  exists images, w'. exact Hrun.
Defined.

Lemma store_key_resolution_witness :
  resolvedRecordId (Some "recABC123") sample_store = (Returns (Some "recABC123"), sample_store) /\
  (resolvedRecordId (Some "WR-1002") sample_store).1 = Returns (Some "recABC123").
Proof.
  split.
  - apply (proj1 (store_key_resolution (W := Store.State) "recABC123")). reflexivity.
  - apply (proj1 (proj2 (proj2 (store_key_resolution (W := Store.State) "WR-1002")))).
    reflexivity.
Defined.

(** * Further properties *)

(** ** More on the resilient transport *)

Section TransportBounds.
Context {W : Type} `{World W}.

Lemma fetchWithRetry_loop_status (req : Request) (maxRetries : nat) :
  forall fuel attempt delay (w w' : W) (r : Response),
    fetchWithRetry_loop fuel req maxRetries attempt delay w = (Returns r, w') ->
    status r <> 429%Z.
Proof.
  induction fuel as [|fuel IH]; intros attempt delay w w' r; simpl.
  - by destruct (attempt <? maxRetries).
  - destruct (attempt <? maxRetries); [| done].
    unfold await_fetch. mred.
    destruct (fetch req w) as [[resp|] w1]; [| done].
    destruct (Z.eqb_spec (status resp) 429) as [Heq|Hne]; mred.
    + apply IH.
    + by intros [= <- _].
Qed.

Lemma fetchWithRetry_status (req : Request) (maxRetries : nat) (w w' : W) (r : Response) :
  fetchWithRetry req maxRetries w = (Returns r, w') -> status r <> 429%Z.
Proof. apply fetchWithRetry_loop_status. Qed.

Lemma fetchWithRetry_loop_count (req : Request) (maxRetries : nat) :
  forall fuel attempt delay (t : Traced W),
    exists j,
      requests (fetchWithRetry_loop fuel req maxRetries attempt delay t).2
        = requests t ++ replicate j req /\
      j <= maxRetries - attempt /\
      (attempt < maxRetries -> 0 < fuel -> 1 <= j).
Proof.
  induction fuel as [|fuel IH]; intros attempt delay t; simpl.
  - exists 0. destruct (attempt <? maxRetries); simpl; rewrite app_nil_r;
      (split; [done |]; split; lia).
  - destruct (Nat.ltb_spec attempt maxRetries); simpl;
      [| exists 0; rewrite app_nil_r; split; [done |]; split; lia].
    unfold await_fetch. mred. simpl.
    destruct (fetch req (inner t)) as [[resp|] w']; simpl.
    + destruct (status resp =? 429)%Z; simpl.
      * match goal with
        | |- context [fetchWithRetry_loop fuel req maxRetries (S attempt) ?d ?t'] =>
            destruct (IH (S attempt) d t') as (j & -> & Hj & _)
        end.
        exists (S j). simpl. rewrite <- app_assoc. split; [done |]. split; lia.
      * exists 1. split; [done |]. split; lia.
    + exists 1. split; [done |]. split; lia.
Qed.

End TransportBounds.

(** X1: whatever the world and the bound, a response that [fetchWithRetry]
    returns does not have the rate-limit status. *)
Theorem fetchWithRetry_never_returns_rate_limit {W : Type} `{World W}
    (req : Request) (maxRetries : nat) (w w' : W) (r : Response) :
  fetchWithRetry req maxRetries w = (Returns r, w') ->
  status r <> 429%Z.
Proof. apply fetchWithRetry_status. Qed.

Lemma fetchWithRetry_never_returns_rate_limit_witness :
  status {| status := 200; body := RecordList [] |} <> 429%Z.
Proof.
  apply (fetchWithRetry_never_returns_rate_limit TokenTableGet 5 sample_endpoint
           (Endpoint.advanced 3 1500 sample_endpoint)).
  reflexivity.
Defined.

(** X2: [fetchWithRetry] sends its request at least once (for a bound of
    at least 1) and at most [maxRetries] times, and sends nothing else. *)
Theorem fetchWithRetry_request_count {W : Type} `{World W}
    (req : Request) (maxRetries : nat) (t : Traced W) :
  exists j,
    requests (fetchWithRetry req maxRetries t).2 = requests t ++ replicate j req /\
    Nat.min 1 maxRetries <= j <= maxRetries.
Proof.
  destruct (fetchWithRetry_loop_count req maxRetries maxRetries 0 500%Z t)
    as (j & Hreq & Hj & Hone).
  exists j. split; [exact Hreq |].
  destruct maxRetries as [|m]; [simpl; lia |].
  assert (1 <= j) by (apply Hone; lia). lia.
Qed.

(** X3: the result of [uploadFileToDropbox] does not depend on its attempt
    counter: the transport never hands back the rate-limit status, so the
    branch that reads the counter is never taken. *)
Theorem uploadFileToDropbox_attempt_irrelevant {W : Type} `{World W}
    (fuel : nat) (file : File) (token : option string) (creds : Creds)
    (attempt attempt' : nat) (p : Page W) :
  uploadFileToDropbox fuel file token creds attempt p =
  uploadFileToDropbox fuel file token creds attempt' p.
Proof.
  destruct fuel as [|fuel]; [done |]. cbn [uploadFileToDropbox].
  destruct token as [tok|]; [| done].
  destruct (truthy (Some tok)); mred; [| done].
  destruct (fetchWithRetry (DropboxUpload tok file) 5 (world p)) as [[r|e|] w1] eqn:Hfetch;
    [| done | done].
  apply fetchWithRetry_status in Hfetch.
  by destruct (Z.eqb_spec (status r) 429).
Qed.

Section EndpointRejection.
Import Endpoint.
Implicit Types (e : Endpoint.State) (req : Request).

(** [k] rate-limit answers, then a rejected request, with attempts left. *)
Lemma loop_rejected req maxRetries :
  forall k fuel attempt delay e,
    attempt + k < maxRetries ->
    maxRetries <= fuel + attempt ->
    (forall i, i < k -> rate_limited (script e (issued e + i))) ->
    script e (issued e + k) = Rejected ->
    fetchWithRetry_loop fuel req maxRetries attempt delay e =
      (Throws NetworkError, advanced (S k) (delay * (2 ^ Z.of_nat k - 1)) e).
Proof.
  induction k as [|k IH]; intros fuel attempt delay e Hk Hfuel Hlim Hans.
  - destruct fuel as [|fuel]; [lia |]. simpl.
    destruct (Nat.ltb_spec attempt maxRetries); [| lia].
    unfold bind, await_fetch. simpl. rewrite Nat.add_0_r in Hans. rewrite Hans.
    f_equal. unfold advanced. f_equal; lia.
  - destruct fuel as [|fuel]; [lia |]. simpl.
    destruct (Nat.ltb_spec attempt maxRetries); [| lia].
    unfold bind at 1. unfold await_fetch. simpl.
    pose proof (Hlim 0 ltac:(lia)) as H0. rewrite Nat.add_0_r in H0.
    destruct (script e (issued e)) as [r0|] eqn:Hr0; [| done]. simpl in H0.
    rewrite H0. simpl. unfold bind at 1. unfold await_sleep, modify. simpl.
    rewrite (IH fuel (S attempt) (delay * 2)%Z); cbn [script issued elapsed]; try lia.
    + f_equal. unfold advanced. cbn [script issued elapsed]. f_equal; [lia |].
      rewrite Nat2Z.inj_succ, Z.pow_succ_r by lia. lia.
    + intros i Hi. replace (S (issued e) + i) with (issued e + S i) by lia.
      apply Hlim. lia.
    + by replace (S (issued e) + k) with (issued e + S k) by lia.
Qed.

End EndpointRejection.

(** X4: a rejected request (network failure) is not retried: after [k]
    rate-limit answers, with attempts left, a rejection makes
    [fetchWithRetry] throw at once, after [k + 1] requests and the waits
    of the [k] rate-limit answers only. *)
Theorem fetchWithRetry_rejection_not_retried (req : Request) (m k : nat)
    (e : Endpoint.State) :
  k < m ->
  (forall i, i < k -> Endpoint.rate_limited (Endpoint.script e (Endpoint.issued e + i))) ->
  Endpoint.script e (Endpoint.issued e + k) = Rejected ->
  fetchWithRetry req m e =
    (Throws NetworkError, Endpoint.advanced (S k) (Endpoint.doubling_series k) e).
Proof.
  intros Hk Hlim Hrej. unfold fetchWithRetry.
  rewrite (loop_rejected req m k) by (done || lia).
  f_equal. apply advanced_eq; [done |]. by rewrite doubling_series_closed.
Qed.

Lemma fetchWithRetry_rejection_not_retried_witness :
  fetchWithRetry TokenTableGet 5 sample_flaky_endpoint =
    (Throws NetworkError, Endpoint.advanced 2 500 sample_flaky_endpoint).
Proof.
  assert (Hk : 1 < 5) by lia.
  assert (Hlim : forall i, i < 1 ->
            Endpoint.rate_limited
              (Endpoint.script sample_flaky_endpoint
                 (Endpoint.issued sample_flaky_endpoint + i))).
  { intros i Hi. destruct i as [|i]; simpl; [reflexivity | lia]. }
  exact (fetchWithRetry_rejection_not_retried TokenTableGet 5 1 sample_flaky_endpoint
           Hk Hlim eq_refl).
Defined.

(** ** More on writes *)

(** X5: offline, [updateAirtableRecord] sends nothing; online, every PATCH
    it sends lacks the field [Warranty Record ID] and carries every other
    field of the caller as given, but for [Material Vendor]. *)
Theorem updateAirtableRecord_sends_sanitized_fields {W : Type} `{World W}
    (tableName : string) (key : option string) (fields : gmap string FieldValue)
    (t : Traced W) :
  (onLine (ui (SaveButtonDisabled true) t) = false ->
   requests (updateAirtableRecord tableName key fields t).2 = requests t) /\
  (forall tbl recordId sent,
     AirtablePatch tbl recordId sent ∈ requests (updateAirtableRecord tableName key fields t).2 ->
     AirtablePatch tbl recordId sent ∈ requests t \/
     (tbl = tableName /\
      sent !! "Warranty Record ID" = None /\
      forall k, k <> "Warranty Record ID" -> k <> "Material Vendor" ->
                sent !! k = fields !! k)).
Proof.
  split.
  - intros Hoff. unfold updateAirtableRecord. mred. by rewrite Hoff.
  - intros tbl recordId sent. unfold updateAirtableRecord. mred.
    set (t0 := ui (SaveButtonDisabled true) t).
    assert (Ht0 : requests t0 = requests t) by done.
    destruct (onLine t0); mred; [| by left].
    destruct key as [key|]; [| by left].
    destruct (resolvedRecordId_returns key t0) as (o & t1 & Hres). rewrite Hres.
    assert (Ht1 : AirtablePatch tbl recordId sent ∈ requests t1 ->
                  AirtablePatch tbl recordId sent ∈ requests t).
    { intros Hr. rewrite <- Ht0.
      assert (Hr' : AirtablePatch tbl recordId sent
                      ∈ requests (resolvedRecordId (Some key) t0).2) by by rewrite Hres.
      apply resolvedRecordId_requests in Hr' as [?|[? ?]]; done. }
    destruct o as [rid|]; mred; [| intros Hr; left; by apply Ht1].
    destruct (truthy (Some rid)); mred; [| intros Hr; left; by apply Ht1].
    match goal with
    | |- context [fetchWithRetry ?q 5 t1] =>
        pose proof (fun r => fetchWithRetry_requests q 5 t1 r) as Ht2;
        destruct (fetchWithRetry q 5 t1) as [answer t2]
    end.
    cbn [fst snd] in Ht2.
    match goal with
    | |- _ -> ?G =>
        assert (Hfinal : forall t3 : Traced W, requests t3 = requests t2 ->
                  AirtablePatch tbl recordId sent ∈ requests t3 -> G)
    end.
    { intros t3 Heq Hreq. rewrite Heq in Hreq. apply Ht2 in Hreq as [Hreq|Hreq].
      - left. by apply Ht1.
      - right. injection Hreq as -> -> ->. split; [done |].
        split; [apply lookup_delete_eq |].
        intros k Hk Hv. rewrite lookup_delete_ne by done.
        destruct (vendorDropdown _) as [v|]; [| done].
        destruct (_ && _); [| done].
        by rewrite lookup_insert_ne. }
    destruct answer as [response|e|]; cbn [fst snd]; try by apply Hfinal.
    destruct (ok response); cbn [fst snd]; [by apply Hfinal |].
    unfold json. destruct (body response); cbn [fst snd]; by apply Hfinal.
Qed.

Lemma updateAirtableRecord_sends_sanitized_fields_witness :
  let fields : gmap string FieldValue := {[ "Warranty Record ID" := FText "WR-1002" ]} in
  requests (updateAirtableRecord "Warranties" (Some "recABC123") fields
              {| inner := sample_offline_store; requests := [] |}).2 = [] /\
  AirtablePatch "Warranties" "recABC123" ∅
    ∈ requests (updateAirtableRecord "Warranties" (Some "recABC123") fields
                  {| inner := sample_store; requests := [] |}).2 /\
  (∅ : gmap string FieldValue) !! "Warranty Record ID" = None.
Proof.
  intros fields. split.
  { apply (proj1 (updateAirtableRecord_sends_sanitized_fields
                    "Warranties" (Some "recABC123") fields
                    {| inner := sample_offline_store; requests := [] |})).
    reflexivity. }
  set (t := {| inner := sample_store; requests := [] |}).
  assert (Hin : AirtablePatch "Warranties" "recABC123" ∅
                  ∈ requests (updateAirtableRecord "Warranties" (Some "recABC123") fields t).2).
  { vm_compute. constructor. }
  split; [exact Hin |].
  destruct (proj2 (updateAirtableRecord_sends_sanitized_fields
                     "Warranties" (Some "recABC123") fields t) _ _ _ Hin)
    as [Hold | (_ & Hnone & _)]; [| exact Hnone].
  exfalso. inversion Hold.
Defined.

(** ** More on the merge step *)

Section MergeMore.
Implicit Types (l new : list Attachment).

(** Files whose URLs are all present are all skipped. *)
Lemma push_unique_present new : forall l,
  (forall e, e ∈ new -> att_url e ∈ att_url <$> l) -> push_unique l new = l.
Proof.
  induction new as [|f new IH]; intros l Hall; [done |]. simpl.
  assert (Hf : some_url l f = true).
  { apply some_url_true. apply Hall. apply list_elem_of_here. }
  rewrite Hf. simpl. apply IH. intros e He. apply Hall. by apply list_elem_of_further.
Qed.

End MergeMore.

(** X6: no URL is lost in the merge, and merging the same batch into the
    merged list again changes nothing. *)
Theorem merge_covers_and_is_idempotent
    (latestFromAirtable existingImages : list Attachment) (uploaded : list (string * File)) :
  (forall e, e ∈ uploadedUrls existingImages uploaded ->
     att_url e ∈ att_url <$> combinedList latestFromAirtable existingImages uploaded) /\
  combinedList (combinedList latestFromAirtable existingImages uploaded)
    existingImages uploaded
    = combinedList latestFromAirtable existingImages uploaded.
Proof.
  split.
  - intros e He. unfold combinedList. by apply push_unique_covers.
  - unfold combinedList at 1. apply push_unique_present.
    intros e He. unfold combinedList. by apply push_unique_covers.
Qed.

Lemma merge_covers_and_is_idempotent_witness :
  let url := "https://dl.dropboxusercontent.com/s/b/roof-new.jpg?raw=1" in
  att_url (uploadedFile url sample_file)
    ∈ att_url <$> combinedList [sample_pdf] [sample_stored] [(url, sample_file)].
Proof.
  intros url.
  apply (proj1 (merge_covers_and_is_idempotent [sample_pdf] [sample_stored]
                  [(url, sample_file)])).
  vm_compute. apply list_elem_of_further, list_elem_of_here.
Defined.

(** ** More on the record store *)

Section StoreRoundTrip.
Import Store.
Implicit Types (s : Store.State) (req : Request).

(** A filter that keeps the length keeps the list. *)
Lemma filter_length_eq {A} (f : A -> bool) (l : list A) :
  length (List.filter f l) = length l -> List.filter f l = l.
Proof.
  induction l as [|a l IH]; [done |]. simpl.
  destruct (f a); simpl.
  - intros [= Hlen]. by rewrite IH.
  - intros Hlen. pose proof (List.filter_length_le f l). lia.
Qed.

(** The fields a write sends hold the written field, and no field but
    the written one and the vendor link. *)
Lemma sanitized_lookup (field field' : string) (v : FieldValue) s :
  field' <> "Material Vendor" ->
  sanitized {[ field := v ]} s !! field' =
    if decide (field' = field)
    then (if decide (field = "Warranty Record ID") then None else Some v)
    else None.
Proof.
  intros Hmv. unfold sanitized.
  assert (Hinner :
    match vendor s with
    | Some v0 =>
        if truthy (vendor s) && startsWith v0 "rec"
        then <["Material Vendor" := FLinks [v0]]> ({[ field := v ]} : gmap string FieldValue)
        else {[ field := v ]}
    | None => {[ field := v ]}
    end !! field' = ({[ field := v ]} : gmap string FieldValue) !! field').
  { destruct (vendor s) as [v0|]; [| done].
    destruct (_ && _); [| done]. by rewrite lookup_insert_ne. }
  destruct (decide (field' = field)) as [->|Hne].
  - destruct (decide (field = "Warranty Record ID")) as [->|Hw].
    + apply lookup_delete_eq.
    + rewrite lookup_delete_ne by done. rewrite Hinner. apply lookup_singleton_eq.
  - destruct (decide (field' = "Warranty Record ID")) as [->|Hw].
    + apply lookup_delete_eq.
    + rewrite lookup_delete_ne by done. rewrite Hinner. by apply lookup_singleton_ne.
Qed.

(** The records after a PATCH is served. *)
Lemma serve_patch_records (t rid : string) (fields : gmap string FieldValue) s :
  records (serve (AirtablePatch t rid fields) s).2 = records s \/
  records (serve (AirtablePatch t rid fields) s).2 = patch_record rid fields <$> records s.
Proof.
  cbn [serve]. destruct (_ && _); cbn [snd set_records records]; [by right | by left].
Qed.

(** A write leaves every field but the written one and the vendor link
    as it is, in every record. *)
Lemma after_update_frame (tableName wid field : string) (v : FieldValue)
    (key' field' : string) s :
  field' <> field -> field' <> "Material Vendor" ->
  stored key' field' (after_update tableName wid {[ field := v ]} s) = stored key' field' s.
Proof.
  intros Hne Hmv. unfold after_update.
  destruct (online s); [| done].
  set (s1 := if startsWith wid "rec" then s else log (AirtableLookup (table s) wid) s).
  assert (Hs1 : stored key' field' s1 = stored key' field' s).
  { unfold s1. by destruct (startsWith wid "rec"). }
  assert (Hrec1 : records s1 = records s).
  { unfold s1. by destruct (startsWith wid "rec"). }
  destruct (resolved wid s) as [rid|]; [| done].
  destruct (truthy (Some rid)); [| done].
  set (san := sanitized {[ field := v ]} s).
  assert (Hsan : san !! field' = None).
  { unfold san. rewrite sanitized_lookup by done. by rewrite decide_False. }
  unfold stored at 1. unfold matching. cbn [log records].
  destruct (serve_patch_records tableName rid san s1) as [-> | ->].
  - rewrite Hrec1. done.
  - rewrite Hrec1. rewrite matching_patch.
    unfold stored. destruct (matching key' s) as [|r rs]; [done |].
    cbn [fmap list_fmap]. f_equal. unfold patch_record.
    destruct (String.eqb (sr_id r) rid); [| done]. cbn [sr_fields].
    f_equal. rewrite lookup_union_r by done. done.
Qed.

(** After a write by business key that is sent, the stored list is the
    written list. *)
Lemma after_update_stored_exact (wid field : string) (updated : list Attachment) s r :
  well_formed s ->
  online s = true ->
  head (matching wid s) = Some r ->
  sr_id r <> "" ->
  field <> "Warranty Record ID" ->
  field <> "Material Vendor" ->
  stored wid field
    (after_update (table s) wid {[ field := FAttachments updated ]} s) = updated.
Proof.
  intros Hwf Hon Hhead Hid Hw Hmv.
  destruct (matching wid s) as [|r0 rs] eqn:Hm; [done |]. injection Hhead as ->.
  destruct (matching_key wid s r) as [Hkey Hr]; [rewrite Hm; apply list_elem_of_here |].
  unfold well_formed in Hwf. rewrite Forall_forall in Hwf.
  destruct (Hwf r Hr) as [Hprefix Hwr]. rewrite Hkey in Hprefix.
  unfold after_update, resolved. rewrite Hon, Hprefix, Hm.
  cbn [head fmap option_fmap option_map].
  assert (Htruthy : truthy (Some (sr_id r)) = true).
  { unfold truthy. apply negb_true_iff. by apply String.eqb_neq. }
  rewrite Htruthy.
  set (san := sanitized _ _).
  cbn [serve log table records]. rewrite String.eqb_refl.
  assert (Hex : existsb (fun r0 => String.eqb (sr_id r0) (sr_id r)) (records s) = true).
  { apply existsb_exists. exists r. split; [by apply list_elem_of_In | apply String.eqb_refl]. }
  rewrite Hex. cbn [andb snd].
  unfold stored, matching. cbn [records log set_records].
  rewrite matching_patch, Hm. cbn [fmap list_fmap].
  unfold patch_record. rewrite String.eqb_refl. cbn [sr_fields].
  assert (Hsan : san !! field = Some (FAttachments updated)).
  { unfold san. rewrite sanitized_lookup by done.
    rewrite decide_True by done. by rewrite decide_False. }
  rewrite (lookup_union_Some_l _ _ _ _ Hsan). simpl. by destruct updated.
Qed.

(** A write keeps the store well-formed, online and with the same store
    keys. *)
Lemma patch_record_id rid fields (r : StoredRecord) :
  sr_id (patch_record rid fields r) = sr_id r /\ sr_key (patch_record rid fields r) = sr_key r.
Proof. unfold patch_record. by destruct (String.eqb _ _). Qed.

Lemma after_update_invariant (tableName key : string) (fields : gmap string FieldValue) s :
  well_formed s ->
  (forall r, r ∈ records s -> sr_id r <> "") ->
  well_formed (after_update tableName key fields s) /\
  online (after_update tableName key fields s) = online s /\
  table (after_update tableName key fields s) = table s /\
  (forall r, r ∈ records (after_update tableName key fields s) -> sr_id r <> "").
Proof.
  intros Hwf Hids. unfold after_update.
  destruct (online s) eqn:Hon; [| by rewrite Hon].
  set (s1 := if startsWith key "rec" then s else log (AirtableLookup (table s) key) s).
  assert (Hs1 : records s1 = records s /\ online s1 = true /\ table s1 = table s).
  { unfold s1. by destruct (startsWith key "rec"). }
  destruct Hs1 as (Hrec1 & Hon1 & Htab1).
  destruct (resolved key s) as [rid|];
    [| unfold well_formed; rewrite Hrec1, Hon1, Htab1; done].
  destruct (truthy (Some rid));
    [| unfold well_formed; rewrite Hrec1, Hon1, Htab1; done].
  set (san := sanitized fields s).
  assert (Hsan : san !! "Warranty Record ID" = None) by apply lookup_delete_eq.
  assert (Hrest : online (serve (AirtablePatch tableName rid san) s1).2 = true /\
                  table (serve (AirtablePatch tableName rid san) s1).2 = table s).
  { cbn [serve]. by destruct (_ && _). }
  destruct Hrest as [Hon2 Htab2].
  cbn [log online table records]. rewrite Hon2, Htab2.
  unfold well_formed. cbn [log records].
  destruct (serve_patch_records tableName rid san s1) as [-> | ->]; rewrite Hrec1.
  - done.
  - split; [| split; [done |]; split; [done |]].
    + apply Forall_fmap. unfold well_formed in Hwf.
      eapply Forall_impl; [exact Hwf |]. intros r [Hprefix Hwr]. cbn.
      destruct (patch_record_id rid san r) as [_ ->]. split; [done |].
      unfold patch_record. destruct (String.eqb (sr_id r) rid); [| done].
      cbn [sr_fields]. by rewrite lookup_union_r.
    + intros r Hr. apply list_elem_of_fmap in Hr as (r0 & -> & Hr0).
      destruct (patch_record_id rid san r0) as [-> _]. by apply Hids.
Qed.

(** The delete evaluated on a well-formed store that is online: the field
    loses exactly the listed attachments, the other fields are kept, and
    the store stays well-formed and online. *)
Lemma store_delete_exact (wid : string) (ids : list string) (field : string) s :
  well_formed s ->
  online s = true ->
  (forall r, r ∈ records s -> sr_id r <> "") ->
  wid <> "" ->
  field <> "Warranty Record ID" ->
  field <> "Material Vendor" ->
  exists s',
    deleteImagesByLotName (Some wid) ids field s = (Returns tt, s') /\
    stored wid field s' = kept ids (stored wid field s) /\
    (forall key' field',
       field' <> field -> field' <> "Material Vendor" ->
       stored key' field' s' = stored key' field' s) /\
    well_formed s' /\ online s' = true /\ table s' = table s /\
    (forall r, r ∈ records s' -> sr_id r <> "").
Proof.
  intros Hwf Hon Hids Hwid Hw Hmv.
  destruct (store_delete wid ids field s) as (s' & Hrun & Hcase).
  exists s'. split; [exact Hrun |].
  destruct Hcase as [[Hquiet Hsame]|(Htr & Hne & Hsame)].
  - split; [| split; [intros; by apply same_data_stored |]].
    + rewrite (same_data_stored _ _ _ _ Hsame).
      destruct Hquiet as [Hfalse|[->|Hlen]].
      * unfold truthy in Hfalse. apply negb_false_iff, String.eqb_eq in Hfalse. done.
      * by rewrite kept_nil.
      * symmetry. by apply filter_length_eq.
    + destruct Hsame as (Htab & Hrec & Honl & _).
      unfold well_formed. rewrite Hrec, Honl, Htab. done.
  - set (read := log (AirtableImages (table s) wid field) s) in *.
    assert (Hread : same_data s read) by by apply same_data_log.
    set (updated := kept ids (stored wid field s)) in *.
    destruct (after_update_invariant (table s) wid {[ field := FAttachments updated ]} read)
      as (Hwf' & Hon' & Htab' & Hids'); [done | done |].
    split; [| split].
    + rewrite (same_data_stored _ _ _ _ Hsame).
      destruct (matching wid s) as [|r rs] eqn:Hm.
      { exfalso. apply Hne. unfold updated, stored. by rewrite Hm. }
      change (table s) with (table read).
      apply (after_update_stored_exact wid field _ read r); try done.
      * change (matching wid read) with (matching wid s). by rewrite Hm.
      * apply Hids. eapply matching_key. rewrite Hm. apply list_elem_of_here.
    + intros key' field' Hf Hv. rewrite (same_data_stored _ _ _ _ Hsame).
      rewrite after_update_frame by done. by apply same_data_stored.
    + destruct Hsame as (Htab & Hrec & Honl & _).
      unfold well_formed in *. rewrite Hrec, Honl, Htab, Hon', Htab'. done.
Qed.

End StoreRoundTrip.

(** X7: on a well-formed store that is online, a list written to an
    attachment field of an existing record by its business key is the
    list the next read of the field returns, and the reads of the other
    fields return what they returned before the write. *)
Theorem store_write_read_round_trip (wid field : string) (l : list Attachment)
    (s : Store.State) (r : Store.StoredRecord) :
  Store.well_formed s ->
  Store.online s = true ->
  head (Store.matching wid s) = Some r ->
  Store.sr_id r <> "" ->
  wid <> "" ->
  field <> "Warranty Record ID" ->
  field <> "Material Vendor" ->
  let written :=
    (updateAirtableRecord (Store.table s) (Some wid) {[ field := FAttachments l ]} s).2 in
  (fetchCurrentImagesFromAirtable (Some wid) field written).1 = Returns l /\
  forall key' field',
    key' <> "" -> field' <> field -> field' <> "Material Vendor" ->
    (fetchCurrentImagesFromAirtable (Some key') field' written).1 =
    (fetchCurrentImagesFromAirtable (Some key') field' s).1.
Proof.
  intros Hwf Hon Hhead Hid Hwid Hw Hmv written.
  assert (Htruthy : forall k, k <> "" -> truthy (Some k) = true).
  { intros k Hk. unfold truthy. apply negb_true_iff. by apply String.eqb_neq. }
  unfold written. rewrite store_update. cbn [snd]. split.
  - rewrite store_read by by apply Htruthy. cbn [fst]. f_equal.
    by eapply after_update_stored_exact.
  - intros key' field' Hk Hne Hmv'.
    rewrite !store_read by by apply Htruthy. cbn [fst]. f_equal.
    by apply after_update_frame.
Qed.

Lemma store_write_read_round_trip_witness :
  (fetchCurrentImagesFromAirtable (Some "WR-1002") "Completed  Pictures"
     (updateAirtableRecord "Warranties" (Some "WR-1002")
        {[ "Completed  Pictures" := FAttachments [sample_pdf] ]} sample_store).2).1
  = Returns [sample_pdf].
Proof.
  assert (Hwf : Store.well_formed sample_store).
  { repeat (constructor; [split; vm_compute; reflexivity |]). constructor. }
  assert (Hid : "recABC123" <> "") by discriminate.
  assert (Hwid : "WR-1002" <> "") by discriminate.
  assert (Hw : "Completed  Pictures" <> "Warranty Record ID") by discriminate.
  assert (Hmv : "Completed  Pictures" <> "Material Vendor") by discriminate.
  exact (proj1 (store_write_read_round_trip "WR-1002" "Completed  Pictures" [sample_pdf]
                  sample_store _ Hwf eq_refl eq_refl Hid Hwid Hw Hmv)).
Defined.

(** X8: on a well-formed store that is online, [deleteImagesByLotName] on
    a field other than [Material Vendor] removes from the field exactly
    the attachments whose identifier is listed and keeps the others in
    their order.  Every field other than the written one and [Material
    Vendor] is left as it is in every record; the field [Material Vendor]
    is excepted, since the write carries the vendor selected on the form
    along. *)
Theorem delete_removes_exactly_the_selected (wid : string) (ids : list string)
    (field : string) (s : Store.State) :
  Store.well_formed s ->
  Store.online s = true ->
  (forall r, r ∈ Store.records s -> Store.sr_id r <> "") ->
  wid <> "" ->
  field <> "Warranty Record ID" ->
  field <> "Material Vendor" ->
  exists s',
    deleteImagesByLotName (Some wid) ids field s = (Returns tt, s') /\
    Store.stored wid field s' = Store.kept ids (Store.stored wid field s) /\
    forall key' field',
      field' <> field -> field' <> "Material Vendor" ->
      Store.stored key' field' s' = Store.stored key' field' s.
Proof.
  intros Hwf Hon Hids Hwid Hw Hmv.
  destruct (store_delete_exact wid ids field s Hwf Hon Hids Hwid Hw Hmv)
    as (s' & Hrun & Hstored & Hframe & _).
  by exists s'.
Qed.

Lemma delete_removes_exactly_the_selected_witness :
  exists s',
    deleteImagesByLotName (Some "WR-1002") ["attB2"] "Picture(s) of Issue" sample_store
      = (Returns tt, s') /\
    Store.stored "WR-1002" "Picture(s) of Issue" s' = [sample_stored; sample_other].
Proof.
  assert (Hwf : Store.well_formed sample_store).
  { repeat (constructor; [split; vm_compute; reflexivity |]). constructor. }
  assert (Hids : forall r, r ∈ Store.records sample_store -> Store.sr_id r <> "").
  { intros r Hr. apply list_elem_of_In in Hr. simpl in Hr.
    destruct Hr as [<-|[<-|[]]]; discriminate. }
  assert (Hwid : "WR-1002" <> "") by discriminate.
  assert (Hw : "Picture(s) of Issue" <> "Warranty Record ID") by discriminate.
  assert (Hmv : "Picture(s) of Issue" <> "Material Vendor") by discriminate.
  destruct (delete_removes_exactly_the_selected "WR-1002" ["attB2"] "Picture(s) of Issue"
              sample_store Hwf eq_refl Hids Hwid Hw Hmv) as (s' & Hrun & Hst & _).
  exists s'. split; [exact Hrun |]. rewrite Hst. vm_compute. reflexivity.
Defined.

(** ** More on the credential broker *)

Section Returning.
Context {S : Type}.

Lemma always_returns_ret {A} (a : A) : always_returns (ret a : M S A).
Proof. intros s. by eexists _, _. Qed.

Lemma always_returns_reads {A} (f : S -> A) : always_returns (reads f).
Proof. intros s. by eexists _, _. Qed.

Lemma always_returns_modify (f : S -> S) : always_returns (modify f).
Proof. intros s. by eexists _, _. Qed.

Lemma always_returns_bind {A B} (m : M S A) (k : A -> M S B) :
  always_returns m -> (forall a, always_returns (k a)) -> always_returns (bind m k).
Proof.
  intros Hm Hk s. destruct (Hm s) as (a & s' & Hrun).
  unfold bind. rewrite Hrun. apply Hk.
Qed.

Lemma terminates_ret {A} (a : A) : terminates (ret a : M S A).
Proof. by intros s. Qed.

Lemma terminates_throw {A} (e : Exn) : terminates (throw e : M S A).
Proof. by intros s. Qed.

Lemma terminates_reads {A} (f : S -> A) : terminates (reads f).
Proof. by intros s. Qed.

Lemma terminates_modify (f : S -> S) : terminates (modify f).
Proof. by intros s. Qed.

Lemma terminates_bind {A B} (m : M S A) (k : A -> M S B) :
  terminates m -> (forall a, terminates (k a)) -> terminates (bind m k).
Proof.
  intros Hm Hk s. unfold bind. pose proof (Hm s) as Hs.
  destruct (m s) as [[a|e|] s']; [apply Hk | done | done].
Qed.

Lemma terminates_try_catch {A} (m : M S A) (h : Exn -> M S A) :
  terminates m -> (forall e, terminates (h e)) -> terminates (try_catch m h).
Proof.
  intros Hm Hh s. unfold try_catch. pose proof (Hm s) as Hs.
  destruct (m s) as [[a|e|] s']; [done | apply Hh | done].
Qed.

(** [try { m } catch { return v }] returns whenever [m] terminates. *)
Lemma always_returns_try_catch {A} (m : M S A) (v : A) :
  terminates m -> always_returns (try_catch m (fun _ => ret v)).
Proof.
  intros Hm s. unfold try_catch. pose proof (Hm s) as Hs.
  destruct (m s) as [[a|e|] s']; [by eexists _, _ | by eexists _, _ | done].
Qed.

Lemma always_returns_terminates {A} (m : M S A) : always_returns m -> terminates m.
Proof. intros Hm s. destruct (Hm s) as (a & s' & ->). done. Qed.

End Returning.

Section BrokerReturns.
Context {W : Type} `{World W}.

Lemma terminates_on_world {A} (m : M W A) :
  terminates m -> terminates (on_world m : M (Page W) A).
Proof.
  intros Hm p. unfold on_world, zoom. pose proof (Hm (world p)) as Hw.
  by destruct (m (world p)) as [[a|e|] w'].
Qed.

Lemma always_returns_on_world {A} (m : M W A) :
  always_returns m -> always_returns (on_world m : M (Page W) A).
Proof.
  intros Hm p. unfold on_world, zoom. destruct (Hm (world p)) as (a & w' & ->).
  by eexists _, _.
Qed.

Lemma terminates_fetchWithRetry (req : Request) (maxRetries : nat) :
  terminates (fetchWithRetry req maxRetries : M W Response).
Proof. intros w. apply fetchWithRetry_total. Qed.

Lemma terminates_await_fetch (req : Request) : terminates (await_fetch req : M W Response).
Proof. intros w. unfold await_fetch. by destruct (fetch req w) as [[r|] w']. Qed.

Lemma terminates_json (r : Response) : terminates (json r : M W Body).
Proof. intros w. unfold json. by destruct (body r). Qed.

Lemma terminates_emit (e : UiEvent) : terminates (emit e : M W unit).
Proof. by intros w. Qed.

Lemma terminates_convertToDirectLink (u : option string) :
  terminates (convertToDirectLink u : M (Page W) (option string)).
Proof.
  intros p. unfold convertToDirectLink. destruct u as [u|]; [| done].
  by destruct (bool_decide _).
Qed.

Lemma getExistingDropboxLink_returns (filePath : option string) :
  always_returns (getExistingDropboxLink filePath : M (Page W) (option string)).
Proof.
  apply always_returns_try_catch.
  apply terminates_bind; [apply terminates_reads |]. intros token.
  apply terminates_bind; [apply terminates_on_world, terminates_fetchWithRetry |].
  intros response. destruct (negb (ok response)); [apply terminates_throw |].
  apply terminates_bind; [apply terminates_on_world, terminates_json |].
  intros data. destruct data as [| | | | | | |[|link links]];
    try apply terminates_ret. apply terminates_convertToDirectLink.
Qed.

Lemma getDropboxSharedLink_returns (filePath : option string) :
  always_returns (getDropboxSharedLink filePath : M (Page W) (option string)).
Proof.
  apply always_returns_try_catch.
  apply terminates_bind; [apply terminates_reads |]. intros token.
  apply terminates_bind; [apply terminates_on_world, terminates_fetchWithRetry |].
  intros response. destruct (status response =? 409)%Z.
  { apply always_returns_terminates, getExistingDropboxLink_returns. }
  destruct (negb (ok response)).
  - apply terminates_bind; [apply terminates_on_world, terminates_json |].
    intros _. apply terminates_throw.
  - apply terminates_bind; [apply terminates_on_world, terminates_json |].
    intros data. apply terminates_convertToDirectLink.
Qed.

Lemma refreshDropboxAccessToken_returns (rt ak sk : option string) :
  always_returns (refreshDropboxAccessToken rt ak sk : M (Page W) (option string)).
Proof.
  apply always_returns_try_catch.
  apply terminates_bind; [apply terminates_on_world, terminates_fetchWithRetry |].
  intros response.
  apply terminates_bind; [apply terminates_on_world, terminates_json |].
  intros data. destruct (negb (ok response)); [apply terminates_ret |].
  apply terminates_bind; [apply terminates_modify |]. intros _.
  apply terminates_bind; [apply terminates_on_world, terminates_await_fetch |].
  intros tokenResponse.
  apply terminates_bind; [apply terminates_on_world, terminates_json |].
  intros tokenData.
  cbv zeta.
  destruct (match tokenData with TokenRecordList (r :: _) => tok_id r | _ => None end)
    as [rid|].
  - destruct (negb (truthy (Some rid))); [apply terminates_reads |].
    apply terminates_bind; [apply terminates_reads |]. intros token.
    apply terminates_bind; [apply terminates_on_world, terminates_await_fetch |].
    intros _. apply terminates_reads.
  - apply terminates_reads.
Qed.

Lemma fetchDropboxToken_returns :
  always_returns (fetchDropboxToken : M (Page W) (option string)).
Proof.
  apply always_returns_try_catch.
  apply terminates_bind; [apply terminates_on_world, terminates_fetchWithRetry |].
  intros response. destruct (negb (ok response)); [apply terminates_throw |].
  apply terminates_bind; [apply terminates_on_world, terminates_json |].
  intros data. destruct data as [| |[|record rest]| | | | |];
    try apply terminates_throw; [apply terminates_ret |].
  apply terminates_bind; [apply terminates_modify |]. intros _.
  destruct (_ || _); [apply terminates_ret |].
  destruct (truthy (tok_token record)).
  { apply terminates_bind; [apply terminates_modify |]. intros _. apply terminates_reads. }
  destruct (truthy (tok_refreshToken record)); [| apply terminates_ret].
  apply always_returns_terminates, refreshDropboxAccessToken_returns.
Qed.

End BrokerReturns.

(** X9: in every world, the four functions of the credential broker and
    of the link service return a value on every call: whatever the
    network answers or fails to answer, none of them throws. *)
Theorem credential_broker_never_throws {W : Type} `{World W}
    (rt ak sk filePath : option string) (p : Page W) :
  (exists token p', fetchDropboxToken p = (Returns token, p')) /\
  (exists token p', refreshDropboxAccessToken rt ak sk p = (Returns token, p')) /\
  (exists link p', getDropboxSharedLink filePath p = (Returns link, p')) /\
  (exists link p', getExistingDropboxLink filePath p = (Returns link, p')).
Proof.
  split; [apply fetchDropboxToken_returns |].
  split; [apply refreshDropboxAccessToken_returns |].
  split; [apply getDropboxSharedLink_returns | apply getExistingDropboxLink_returns].
Qed.

(** X10: [ensureDropboxToken] returns on every call, with [true] exactly
    when a usable token is cached afterwards; with a usable token cached
    beforehand it returns [true] and touches nothing, the network
    included. *)
Theorem ensureDropboxToken_sound {W : Type} `{World W} (p : Page W) :
  (exists b p',
     ensureDropboxToken p = (Returns b, p') /\ b = truthy (dropboxAccessToken p')) /\
  (truthy (dropboxAccessToken p) = true -> ensureDropboxToken p = (Returns true, p)).
Proof.
  unfold ensureDropboxToken. mred. split.
  - destruct (truthy (dropboxAccessToken p)) eqn:Htok; mred.
    + rewrite Htok. mred. by eexists _, _.
    + destruct (fetchDropboxToken_returns p) as (fetched & p1 & ->).
      cbn [dropboxAccessToken set_dropboxAccessToken].
      destruct (truthy fetched) eqn:Hf; mred; by eexists _, _.
  - intros Htok. rewrite Htok. mred. by rewrite Htok.
Qed.

Lemma ensureDropboxToken_sound_witness :
  ensureDropboxToken (Blob.page (Blob.expiring 0 false true))
    = (Returns true, Blob.page (Blob.expiring 0 false true)).
Proof.
  apply (proj2 (ensureDropboxToken_sound (Blob.page (Blob.expiring 0 false true)))).
  reflexivity.
Defined.

(** ** The handlers of the viewer *)

Section ViewerFacts.
Implicit Types (c : Carousel.State) (sw : Swipe).

Lemma updateCarouselNavVisibility_shown c :
  shown (updateCarouselNavVisibility c) = shown c /\
  globalSwipeEnabled (updateCarouselNavVisibility c) = globalSwipeEnabled c.
Proof.
  unfold updateCarouselNavVisibility, shown.
  destruct (overlay c) as [ov|] eqn:Hov;
    cbn [overlay set_overlay ov_display globalSwipeEnabled]; by rewrite ?Hov.
Qed.

Lemma displayCarouselItem_shown ts index c :
  shown (displayCarouselItem ts index c) = shown c /\
  globalSwipeEnabled (displayCarouselItem ts index c) = globalSwipeEnabled c.
Proof.
  unfold displayCarouselItem. destruct (overlay c) as [ov|] eqn:Hov; [| done].
  destruct (_ || _); [done |].
  destruct (item (currentCarouselFiles c) index); [| done].
  match goal with
  | |- context [updateCarouselNavVisibility ?c'] =>
      destruct (updateCarouselNavVisibility_shown c') as [-> ->]
  end.
  unfold shown. cbn [overlay set_overlay ov_display globalSwipeEnabled]. by rewrite Hov.
Qed.

Lemma nextImage_shown ts c :
  shown (nextImage ts c) = shown c /\
  globalSwipeEnabled (nextImage ts c) = globalSwipeEnabled c.
Proof.
  unfold nextImage. destruct (files_length c =? 0)%Z; [done |].
  match goal with
  | |- context [displayCarouselItem ts ?i ?c'] =>
      destruct (displayCarouselItem_shown ts i c') as [-> ->]
  end. done.
Qed.

Lemma prevImage_shown ts c :
  shown (prevImage ts c) = shown c /\
  globalSwipeEnabled (prevImage ts c) = globalSwipeEnabled c.
Proof.
  unfold prevImage. destruct (files_length c =? 0)%Z; [done |].
  match goal with
  | |- context [displayCarouselItem ts ?i ?c'] =>
      destruct (displayCarouselItem_shown ts i c') as [-> ->]
  end. done.
Qed.

Lemma closeCarousel_shown c :
  shown (closeCarousel c) = false /\ globalSwipeEnabled (closeCarousel c) = true.
Proof. unfold closeCarousel, shown. cbn [overlay]. by destruct (overlay c). Qed.

Lemma openCarousel_shown ts files startIndex warrantyId field c :
  shown (openCarousel ts files startIndex warrantyId field c) = true /\
  globalSwipeEnabled (openCarousel ts files startIndex warrantyId field c) = false.
Proof.
  unfold openCarousel.
  assert (Hov : exists ov, overlay (ensureCarouselOverlay c) = Some ov).
  { unfold ensureCarouselOverlay. destruct (overlay c) as [ov|] eqn:Hov; eauto. }
  destruct Hov as [ov ->].
  match goal with
  | |- context [displayCarouselItem ts ?i ?c'] =>
      pose proof (displayCarouselItem_shown ts i c') as [Hs Hg];
      set (c1 := displayCarouselItem ts i c') in *
  end.
  change (shown c1 = true /\ globalSwipeEnabled c1 = false).
  by rewrite Hs, Hg.
Qed.

Lemma keydown_locked ts key c : swipe_locked c -> swipe_locked (keydown ts key c).
Proof.
  unfold swipe_locked. intros Hc. unfold keydown. destruct (overlay c) as [ov|] eqn:Hov; [| done].
  destruct (String.eqb (ov_display ov) "none"); [done |].
  set (c1 := if String.eqb key "ArrowRight" then nextImage ts c else c).
  assert (H1 : globalSwipeEnabled c1 = negb (shown c1)).
  { unfold c1. destruct (String.eqb key "ArrowRight"); [| done].
    by destruct (nextImage_shown ts c) as [-> ->]. }
  set (c2 := if String.eqb key "ArrowLeft" then prevImage ts c1 else c1).
  assert (H2 : globalSwipeEnabled c2 = negb (shown c2)).
  { unfold c2. destruct (String.eqb key "ArrowLeft"); [| done].
    by destruct (prevImage_shown ts c1) as [-> ->]. }
  destruct (String.eqb key "Escape"); [| done].
  by destruct (closeCarousel_shown c2) as [-> ->].
Qed.

Lemma touchend_locked ts changedTouches sw c :
  swipe_locked c -> swipe_locked (touchend ts changedTouches sw c).
Proof.
  unfold swipe_locked. intros Hc. unfold touchend. destruct (negb (touchMoved sw)); [done |].
  destruct changedTouches as [|t [|t' l]]; try done.
  destruct (_ >? 40)%Z; [| done].
  destruct (_ >? 0)%Z.
  - by destruct (prevImage_shown ts c) as [-> ->].
  - by destruct (nextImage_shown ts c) as [-> ->].
Qed.

Lemma viewer_step_locked ts ev sw c :
  swipe_locked c -> swipe_locked (viewer_step ts (sw, c) ev).2.
Proof.
  intros Hc. destruct ev; cbn [viewer_step snd]; try done;
    try (by apply keydown_locked); try (by apply touchend_locked);
    unfold swipe_locked in *.
  - by destruct (openCarousel_shown ts files startIndex warrantyId field c) as [-> ->].
  - by destruct (nextImage_shown ts c) as [-> ->].
  - by destruct (prevImage_shown ts c) as [-> ->].
  - by destruct (closeCarousel_shown c) as [-> ->].
Qed.

Lemma viewer_run_locked ts evs :
  forall sw c, swipe_locked c -> swipe_locked (viewer_run ts evs (sw, c)).2.
Proof.
  unfold viewer_run. induction evs as [|ev evs IH]; intros sw c Hc; [done |].
  cbn [foldl]. pose proof (viewer_step_locked ts ev sw c Hc) as Hstep.
  destruct (viewer_step ts (sw, c) ev) as [sw' c']. by apply IH.
Qed.

(** The moves of a gesture raise the flag and leave the start point. *)
Lemma touchmove_run ts (moves : list Touch) :
  forall sw c,
    viewer_run ts ((fun t => TouchMove [t]) <$> moves) (sw, c) =
      ({| startX := startX sw; startY := startY sw;
          touchMoved := touchMoved sw || existsb (horizontal_move sw) moves |}, c).
Proof.
  unfold viewer_run. induction moves as [|t moves IH]; intros sw c.
  - cbn. rewrite orb_false_r. by destruct sw.
  - cbn [fmap list_fmap foldl viewer_step touchmove existsb].
    destruct (horizontal_move sw t) eqn:Hmove.
    + rewrite IH. cbn [startX startY touchMoved]. f_equal. f_equal.
      by rewrite orb_true_r.
    + rewrite IH. by rewrite orb_false_l.
Qed.

(** [findIndex] returns the position of the first element that
    satisfies the test. *)
Lemma findIndex_from_spec {A} (pred : A -> bool) (l : list A) :
  forall (i : Z) (x : A),
    x ∈ l -> pred x = true ->
    exists (k : nat) (y : A),
      findIndex_from pred l i = (i + Z.of_nat k)%Z /\
      l !! k = Some y /\ pred y = true /\
      forall j z, j < k -> l !! j = Some z -> pred z = false.
Proof.
  induction l as [|a l IH]; intros i x Hx Hp; [by apply elem_of_nil in Hx |].
  cbn [findIndex_from]. destruct (pred a) eqn:Ha.
  - exists 0, a. split; [lia |]. split; [done |]. split; [done |]. intros j z Hj. lia.
  - apply elem_of_cons in Hx as [-> | Hx]; [congruence |].
    destruct (IH (i + 1)%Z x Hx Hp) as (k & y & Hk & Hy & Hpy & Hbefore).
    exists (S k), y. split; [lia |]. split; [done |]. split; [done |].
    intros [|j] z Hj Hz; [by injection Hz as <- |].
    apply (Hbefore j); [lia | done].
Qed.

(** Rendering and opening and the two identifiers of the viewer. *)
Lemma displayCarouselItem_ids ts index c :
  currentWarrantyId (displayCarouselItem ts index c) = currentWarrantyId c /\
  currentCarouselField (displayCarouselItem ts index c) = currentCarouselField c.
Proof.
  unfold displayCarouselItem. destruct (overlay c) as [ov|]; [| done].
  destruct (_ || _); [done |].
  destruct (item _ _) as [file|]; [| done].
  unfold updateCarouselNavVisibility. cbn [overlay set_overlay]. done.
Qed.

Lemma openCarousel_ids ts files startIndex warrantyId field c :
  currentWarrantyId (openCarousel ts files startIndex warrantyId field c) = warrantyId /\
  currentCarouselField (openCarousel ts files startIndex warrantyId field c) = field.
Proof.
  unfold openCarousel.
  assert (Hov : exists ov, overlay (ensureCarouselOverlay c) = Some ov).
  { unfold ensureCarouselOverlay. destruct (overlay c) as [ov|] eqn:Hov; eauto. }
  destruct Hov as [ov ->]. cbn [currentWarrantyId currentCarouselField].
  match goal with
  | |- context [displayCarouselItem ts ?i ?c'] =>
      destruct (displayCarouselItem_ids ts i c') as [-> ->]
  end. done.
Qed.

(** Opening the viewer on an item of the list shows that item. *)
Lemma openCarousel_renders ts files (k : nat) file warrantyId field c :
  files !! k = Some file ->
  ov_body <$> overlay (openCarousel ts files (Z.of_nat k) warrantyId field c)
    = Some (rendered ts file).
Proof.
  intros Hk. unfold openCarousel.
  assert (Hov : exists ov, overlay (ensureCarouselOverlay c) = Some ov).
  { unfold ensureCarouselOverlay. destruct (overlay c) as [ov|] eqn:Hov; eauto. }
  destruct Hov as [ov ->]. cbn [overlay currentCarouselIndex].
  eapply displayCarouselItem_renders; [done |].
  cbn [currentCarouselFiles]. unfold item.
  destruct (Z.ltb_spec (Z.of_nat k) 0); [lia |]. by rewrite Nat2Z.id.
Qed.

End ViewerFacts.

(** X11: the page swipe is enabled exactly when the overlay of the viewer
    is not shown, whatever sequence of viewer events (preview clicks,
    button clicks, keys, touches) was handled; so the page-level swipe
    never leaves the page while the viewer is shown. *)
Theorem page_swipe_locked_while_viewer_shown {W : Type} `{World W}
    (ts : Z) (evs : list ViewerEvent) (sw : Swipe) (p : Page W)
    (n : Navigation) (screenX : Z) :
  globalSwipeEnabled (carousel p) = negb (shown (carousel p)) ->
  let c' := (viewer_run ts evs (sw, carousel p)).2 in
  globalSwipeEnabled c' = negb (shown c') /\
  (shown c' = true -> href (page_touchend screenX (set_carousel c' p) n) = href n).
Proof.
  intros Hswipe_locked c'.
  assert (Hc' : globalSwipeEnabled c' = negb (shown c')) by by apply viewer_run_locked.
  split; [exact Hc' |]. intros Hshown.
  unfold page_touchend, handleSwipeGesture. cbn [carousel set_carousel].
  rewrite Hc', Hshown. done.
Qed.

Lemma page_swipe_locked_while_viewer_shown_witness :
  href (page_touchend 0
          (set_carousel
             (viewer_run 7 [NextClick; KeyDown "ArrowLeft"]
                (no_swipe, carousel sample_page)).2 sample_page)
          {| touchStartX := 400; touchEndX := 0; hasUnsavedChanges := false;
             href := "job-details.html" |})
    = "job-details.html".
Proof.
  apply (page_swipe_locked_while_viewer_shown 7 [NextClick; KeyDown "ArrowLeft"]
           no_swipe sample_page
           {| touchStartX := 400; touchEndX := 0; hasUnsavedChanges := false;
              href := "job-details.html" |} 0); reflexivity.
Defined.

(** X12: a one-finger gesture on the body of the viewer (touch start, any
    number of moves, touch end) navigates exactly when one of its moves
    was mostly horizontal and longer than 10 pixels from the start and
    the end lies more than 40 pixels from the start horizontally: to the
    previous item when the finger went right, to the next one when it
    went left. *)
Theorem carousel_swipe_gesture (ts : Z) (t0 t1 : Touch) (moves : list Touch)
    (sw : Swipe) (c : Carousel.State) :
  let start := {| startX := clientX t0; startY := clientY t0; touchMoved := false |} in
  let diffX := (clientX t1 - clientX t0)%Z in
  (viewer_run ts
     (TouchStart [t0] :: ((fun t => TouchMove [t]) <$> moves) ++ [TouchEnd [t1]])
     (sw, c)).2 =
  if existsb (horizontal_move start) moves && (Z.abs diffX >? 40)%Z
  then (if (diffX >? 0)%Z then prevImage ts c else nextImage ts c)
  else c.
Proof.
  intros start diffX. unfold viewer_run. cbn [foldl viewer_step touchstart].
  rewrite foldl_app. fold start.
  pose proof (touchmove_run ts moves start c) as Hmoves. unfold viewer_run in Hmoves.
  rewrite Hmoves. cbn [foldl viewer_step snd touchend touchMoved startX start orb].
  destruct (existsb (horizontal_move start) moves); cbn [negb andb]; [| done].
  unfold touchend. cbn [touchMoved startX negb]. fold diffX.
  by destruct (Z.abs diffX >? 40)%Z.
Qed.

(** X13: on a shown viewer the Escape key closes it: the globals are
    reset, the overlay is hidden and every later key is ignored. *)
Theorem escape_closes_and_mutes_keys (ts : Z) (c : Carousel.State) :
  shown c = true ->
  let c' := keydown ts "Escape" c in
  c' = closeCarousel c /\ Closed c' /\ shown c' = false /\
  forall ts' key, keydown ts' key c' = c'.
Proof.
  intros Hshown c'.
  assert (Hc' : c' = closeCarousel c).
  { unfold c', keydown. unfold shown in Hshown.
    destruct (overlay c) as [ov|]; [| done].
    by destruct (String.eqb (ov_display ov) "none"). }
  split; [exact Hc' |]. rewrite Hc'.
  split; [apply closeCarousel_Closed |].
  split; [apply closeCarousel_shown |].
  intros ts' key. unfold keydown, closeCarousel. cbn [overlay].
  by destruct (overlay c) as [ov|].
Qed.

Lemma escape_closes_and_mutes_keys_witness :
  keydown 7 "ArrowRight" (keydown 7 "Escape" sample_carousel)
    = keydown 7 "Escape" sample_carousel.
Proof.
  assert (Hshown : shown sample_carousel = true) by reflexivity.
  exact (proj2 (proj2 (proj2 (escape_closes_and_mutes_keys 7 sample_carousel Hshown)))
           7%Z "ArrowRight").
Defined.

(** X14: a click on the preview of a file of the grid, when the form
    holds a warranty id or the carousel globals were assigned, opens the
    viewer on the whole list of the grid with the id that [getWarrantyId]
    returns, at the first item with the URL of the clicked file, and shows
    that item; when the URLs of the list are distinct it is the clicked
    file itself.  With no id in the form and the globals not assigned yet,
    the click raises a ReferenceError and the viewer is not opened. *)
Theorem previewClick_opens_at_clicked_file (assigned : bool) (ts : Z)
    (inputValue : option string) (files : list Attachment) (file : Attachment)
    (fieldName : string) (c : Carousel.State) :
  file ∈ files ->
  (truthy inputValue = true \/ assigned = true ->
   exists (warrantyId : option string) (c' : Carousel.State),
     getWarrantyId assigned inputValue c = Returns warrantyId /\
     previewClick assigned ts inputValue files file fieldName c = (Returns tt, c') /\
     currentCarouselFiles c' = files /\
     currentWarrantyId c' = warrantyId /\
     currentCarouselField c' = Some fieldName /\
     exists (k : nat) (shownFile : Attachment),
       currentCarouselIndex c' = Z.of_nat k /\
       files !! k = Some shownFile /\
       att_url shownFile = att_url file /\
       (forall j g, j < k -> files !! j = Some g -> att_url g <> att_url file) /\
       ov_body <$> overlay c' = Some (rendered ts shownFile) /\
       (NoDup (att_url <$> files) -> shownFile = file)) /\
  (truthy inputValue = false -> assigned = false ->
   previewClick assigned ts inputValue files file fieldName c = (Throws ReferenceError, c)).
Proof.
  intros Hin. split.
  2:{ intros Hinput ->. unfold previewClick, outcome, getWarrantyId. mred.
      by rewrite Hinput. }
  intros Hfound.
  assert (Hid : exists warrantyId, getWarrantyId assigned inputValue c = Returns warrantyId).
  { unfold getWarrantyId. destruct (truthy inputValue); [by eexists |].
    destruct Hfound as [? | ->]; [done |]. cbn [negb].
    destruct (truthy (currentWarrantyId c)); by eexists. }
  destruct Hid as [warrantyId Hid].
  destruct (findIndex_from_spec (fun f => bool_decide (att_url f = att_url file))
              files 0 file Hin) as (k & y & Hk & Hy & Hpy & Hbefore).
  { by apply bool_decide_eq_true. }
  apply bool_decide_eq_true in Hpy.
  exists warrantyId,
    (openCarousel ts files (Z.of_nat k) warrantyId (Some fieldName) c).
  split; [exact Hid |]. split.
  { unfold previewClick, outcome, findIndex. mred. rewrite Hid, Hk, Z.add_0_l.
    destruct (Z.geb_spec (Z.of_nat k) 0); [done | lia]. }
  pose proof (openCarousel_globals ts files (Z.of_nat k)
                warrantyId (Some fieldName) c) as (Hfiles & Hindex & _).
  split; [exact Hfiles |].
  pose proof (openCarousel_ids ts files (Z.of_nat k)
                warrantyId (Some fieldName) c) as Hids.
  destruct Hids as [Hwid Hfield].
  split; [exact Hwid |]. split; [exact Hfield |].
  exists k, y. split; [exact Hindex |]. split; [exact Hy |]. split; [exact Hpy |].
  split.
  { intros j g Hj Hg Hurl. specialize (Hbefore j g Hj Hg).
    apply bool_decide_eq_false in Hbefore. done. }
  split; [by apply openCarousel_renders |].
  intros Hnodup. apply list_elem_of_lookup in Hin as [i Hi].
  assert (Heq : k = i).
  { eapply NoDup_lookup; [exact Hnodup | |].
    - rewrite list_lookup_fmap, Hy. done.
    - rewrite list_lookup_fmap, Hi. cbn. by rewrite Hpy. }
  subst i. congruence.
Qed.

Lemma previewClick_opens_at_clicked_file_witness :
  (exists (c' : Carousel.State) (k : nat),
     previewClick false 7 (Some "WR-1002") [sample_stored; sample_pdf; sample_other]
       sample_pdf "Picture(s) of Issue" blank_carousel = (Returns tt, c') /\
     currentCarouselIndex c' = Z.of_nat k /\
     [sample_stored; sample_pdf; sample_other] !! k = Some sample_pdf) /\
  previewClick false 7 None [sample_stored; sample_pdf; sample_other]
    sample_pdf "Picture(s) of Issue" blank_carousel
    = (Throws ReferenceError, blank_carousel).
Proof.
  assert (Hin : sample_pdf ∈ [sample_stored; sample_pdf; sample_other]).
  { apply list_elem_of_further, list_elem_of_here. }
  assert (Hnodup : NoDup (att_url <$> [sample_stored; sample_pdf; sample_other])).
  { apply (bool_decide_unpack _). vm_compute. exact I. }
  split.
  - destruct (proj1 (previewClick_opens_at_clicked_file false 7 (Some "WR-1002")
                       [sample_stored; sample_pdf; sample_other] sample_pdf
                       "Picture(s) of Issue" blank_carousel Hin) (or_introl eq_refl))
      as (warrantyId & c' & _ & Hrun & _ & _ & _ & k & shownFile & Hindex & Hk & _ & _ & _
          & Hsame).
    exists c', k. split; [exact Hrun |]. split; [exact Hindex |].
    rewrite Hk. f_equal. exact (Hsame Hnodup).
  - exact (proj2 (previewClick_opens_at_clicked_file false 7 None
                    [sample_stored; sample_pdf; sample_other] sample_pdf
                    "Picture(s) of Issue" blank_carousel Hin) eq_refl eq_refl).
Defined.

(** ** The delete handlers *)

Section DeleteHandlers.
Context {W : Type} `{World W}.

Lemma getWarrantyId_truthy (assigned : bool) (inputValue : option string)
    (c : Carousel.State) (wid : string) :
  getWarrantyId assigned inputValue c = Returns (Some wid) -> wid <> "".
Proof.
  unfold getWarrantyId.
  destruct (truthy inputValue) eqn:Hin.
  - intros [= ->]. unfold truthy in Hin. apply negb_true_iff in Hin.
    by apply String.eqb_neq.
  - destruct assigned; [| done]. cbn [negb].
    destruct (truthy (currentWarrantyId c)) eqn:Hc; [| done].
    intros [= Heq]. rewrite Heq in Hc. unfold truthy in Hc.
    apply negb_true_iff in Hc. by apply String.eqb_neq.
Qed.

(** [getWarrantyId] returns when the form holds an id or the globals
    were assigned, and raises a ReferenceError otherwise. *)
Lemma getWarrantyId_outcome (assigned : bool) (inputValue : option string)
    (c : Carousel.State) :
  (truthy inputValue = true \/ assigned = true ->
   exists warrantyId, getWarrantyId assigned inputValue c = Returns warrantyId) /\
  (truthy inputValue = false -> assigned = false ->
   getWarrantyId assigned inputValue c = Throws ReferenceError).
Proof.
  unfold getWarrantyId. split.
  - intros Hfound. destruct (truthy inputValue); [by eexists |].
    destruct Hfound as [? | ->]; [done |]. cbn [negb].
    destruct (truthy (currentWarrantyId c)); by eexists.
  - by intros -> ->.
Qed.

End DeleteHandlers.

(** X15: on a page where the carousel globals were not assigned yet, the
    per-item delete raises a ReferenceError at its first test and changes
    nothing.  From their first assignment on, when a guard of the handler
    fails (no warranty id, no field name, no current item, an item without
    id) or the user declines the confirmation, the handler returns having
    shown at most one alert: no request is sent and the viewer is left as
    it is. *)
Theorem deleteCurrentAttachment_guarded {W : Type} `{World W} (p : Page W) :
  deleteCurrentAttachment_from_load false p = (Throws ReferenceError, p) /\
  (let c := carousel p in
   truthy (currentWarrantyId c) = false \/
   truthy (currentCarouselField c) = false \/
   match item (currentCarouselFiles c) (currentCarouselIndex c) with
   | None => True
   | Some fileToDelete =>
       truthy (att_id fileToDelete) = false \/
       confirm ("Delete " +:+ default "undefined" (att_filename fileToDelete) +:+ "?")
         (world p) = false
   end ->
   exists p',
     deleteCurrentAttachment_from_load true p = (Returns tt, p') /\
     carousel p' = carousel p /\
     (world p' = world p \/ exists message, world p' = ui (Alert message) (world p))).
Proof.
  split; [done |].
  intros c Hguard. unfold deleteCurrentAttachment_from_load, read_global.
  unfold deleteCurrentAttachment. mred. fold c.
  destruct (truthy (currentWarrantyId c)) eqn:Hwid; mred.
  2:{ eexists. split; [done |]. split; [done |]. right. by eexists. }
  destruct Hguard as [Hguard|Hguard]; [done |].
  destruct (currentCarouselField c) as [field|] eqn:Hfield.
  2:{ eexists. split; [done |]. split; [done |]. right. by eexists. }
  destruct (truthy (Some field)) eqn:Hfieldt; mred.
  2:{ eexists. split; [done |]. split; [done |]. right. by eexists. }
  destruct Hguard as [Hguard|Hguard]; [done |].
  destruct (item (currentCarouselFiles c) (currentCarouselIndex c)) as [fileToDelete|].
  2:{ eexists. split; [done |]. split; [done |]. right. by eexists. }
  destruct (truthy (att_id fileToDelete)) eqn:Hid; mred.
  2:{ eexists. split; [done |]. split; [done |]. right. by eexists. }
  destruct Hguard as [Hguard|Hguard]; [done |].
  rewrite Hguard. mred. eexists. split; [done |]. split; [done |]. by left.
Qed.

Lemma deleteCurrentAttachment_guarded_witness :
  exists p',
    deleteCurrentAttachment_from_load true
      {| world := sample_store; carousel := blank_carousel;
         dropboxAccessToken := None; dropboxAppKey := None;
         dropboxAppSecret := None; dropboxRefreshToken := None |} = (Returns tt, p') /\
    carousel p' = blank_carousel.
Proof.
  destruct (proj2 (deleteCurrentAttachment_guarded
                     {| world := sample_store; carousel := blank_carousel;
                        dropboxAccessToken := None; dropboxAppKey := None;
                        dropboxAppSecret := None; dropboxRefreshToken := None |}))
    as (p' & Hrun & Hc & _).
  - left. reflexivity.
  - exists p'. split; [exact Hrun | exact Hc].
Defined.

(** X16: on a well-formed store that is online, the bulk delete of the
    grid returns and removes from both picture fields of the record
    exactly the attachments whose identifier is among the non-empty
    checked ones; a selection that is empty or holds only empty
    identifiers removes nothing.  The viewer is left as it is. *)
Theorem deleteSelectedImages_filters_both_fields (assigned : bool)
    (inputValue : option string) (checked : list string) (wid : string)
    (p : Page Store.State) :
  Store.well_formed (world p) ->
  Store.online (world p) = true ->
  (forall r, r ∈ Store.records (world p) -> Store.sr_id r <> "") ->
  getWarrantyId assigned inputValue (carousel p) = Returns (Some wid) ->
  let ids := List.filter (fun id => truthy (Some id)) checked in
  exists p',
    deleteSelectedImages assigned inputValue checked p = (Returns tt, p') /\
    carousel p' = carousel p /\
    Store.stored wid "Picture(s) of Issue" (world p')
      = Store.kept ids (Store.stored wid "Picture(s) of Issue" (world p)) /\
    Store.stored wid "Completed  Pictures" (world p')
      = Store.kept ids (Store.stored wid "Completed  Pictures" (world p)).
Proof.
  intros Hwf Hon Hids Hwid ids.
  pose proof (getWarrantyId_truthy _ _ _ _ Hwid) as Hne.
  unfold deleteSelectedImages, outcome. mred. rewrite Hwid.
  destruct checked as [|x checked].
  { mred. unfold ids. cbn [List.filter]. rewrite !kept_nil.
    eexists. split; [done |]. done. }
  change (length (x :: checked) =? 0) with false. mred. fold ids.
  destruct ids as [|i ids'] eqn:Hidseq.
  { mred. rewrite !kept_nil. eexists. split; [done |]. done. }
  change (length (i :: ids') =? 0) with false. mred.
  destruct (store_delete_exact wid (i :: ids') "Picture(s) of Issue" (world p))
    as (s1 & -> & Hst1 & Hframe1 & Hwf1 & Hon1 & Htab1 & Hids1); try done.
  cbn [world set_world].
  destruct (store_delete_exact wid (i :: ids') "Completed  Pictures" s1)
    as (s2 & -> & Hst2 & Hframe2 & Hwf2 & Hon2 & Htab2 & Hids2); try done.
  cbn [world set_world].
  destruct (store_load (Some wid) s2) as (s3 & -> & Hsame).
  eexists. split; [done |]. cbn [world carousel set_world].
  split; [done |]. rewrite !(same_data_stored _ _ _ _ Hsame). split.
  - rewrite Hframe2 by done. exact Hst1.
  - rewrite Hst2. by rewrite Hframe1.
Qed.

Lemma deleteSelectedImages_filters_both_fields_witness :
  exists p',
    deleteSelectedImages true (Some "WR-1002") ["attB2"; ""] sample_page
      = (Returns tt, p') /\
    Store.stored "WR-1002" "Picture(s) of Issue" (world p') = [sample_stored; sample_other].
Proof.
  assert (Hwf : Store.well_formed (world sample_page)).
  { repeat (constructor; [split; vm_compute; reflexivity |]). constructor. }
  assert (Hids : forall r, r ∈ Store.records (world sample_page) -> Store.sr_id r <> "").
  { intros r Hr. apply list_elem_of_In in Hr. simpl in Hr.
    destruct Hr as [<-|[<-|[]]]; discriminate. }
  destruct (deleteSelectedImages_filters_both_fields true (Some "WR-1002") ["attB2"; ""]
              "WR-1002" sample_page Hwf eq_refl Hids eq_refl)
    as (p' & Hrun & _ & Hst & _).
  exists p'. split; [exact Hrun |]. rewrite Hst. vm_compute. reflexivity.
Defined.

(** ** Reads and refreshes *)

Section ReadOnly.
Context {W : Type} `{World W}.
Implicit Types (t : Traced W).

Lemma fetchCurrentImagesFromAirtable_sent (warrantyId : option string) (field : string) t :
  exists sent,
    requests (fetchCurrentImagesFromAirtable warrantyId field t).2 = requests t ++ sent /\
    Forall (fun req => is_image_read req = true) sent.
Proof.
  destruct warrantyId as [wid|]; [| exists []; by rewrite app_nil_r].
  destruct (truthy (Some wid)) eqn:Hwid.
  - rewrite fetchCurrentImagesFromAirtable_answer by done. cbn [snd].
    destruct (fetchWithRetry_loop_count
                (AirtableImages (AIRTABLE_TABLE_NAME t) wid field) 5 5 0 500%Z t)
      as (j & Hreq & _).
    exists (replicate j (AirtableImages (AIRTABLE_TABLE_NAME t) wid field)).
    split; [exact Hreq |]. by apply Forall_replicate.
  - unfold fetchCurrentImagesFromAirtable. rewrite Hwid. exists []. by rewrite app_nil_r.
Qed.

Lemma loadImagesForLot_sent (warrantyId : option string) t :
  exists sent,
    (loadImagesForLot warrantyId t).1 = Returns tt /\
    requests (loadImagesForLot warrantyId t).2 = requests t ++ sent /\
    Forall (fun req => is_image_read req = true) sent.
Proof.
  unfold loadImagesForLot. mred.
  destruct (imageSectionsPresent t); mred; [| exists []; by rewrite app_nil_r].
  destruct (fetchCurrentImagesFromAirtable_sent warrantyId "Picture(s) of Issue" t)
    as (sent1 & Hreq1 & Hall1).
  destruct (fetchCurrentImagesFromAirtable_returns warrantyId "Picture(s) of Issue" t)
    as (l1 & t1 & E1). rewrite E1 in *. cbn [snd] in Hreq1.
  destruct (fetchCurrentImagesFromAirtable_sent warrantyId "Completed  Pictures" t1)
    as (sent2 & Hreq2 & Hall2).
  destruct (fetchCurrentImagesFromAirtable_returns warrantyId "Completed  Pictures" t1)
    as (l2 & t2 & E2). rewrite E2 in *. cbn [snd] in Hreq2.
  exists (sent1 ++ sent2). cbn [fst snd]. split; [done |]. split.
  - cbn [ui Traced_World requests]. rewrite Hreq2, Hreq1. by rewrite app_assoc.
  - by apply Forall_app.
Qed.

End ReadOnly.

(** X17: in every world, [refreshImageContainers] leaves the viewer and
    the cached credentials as they are and sends nothing but reads of
    attachment fields: no record is written.  It returns when the form
    holds a warranty id or the carousel globals were assigned; with
    neither, it raises a ReferenceError before any request. *)
Theorem refreshImageContainers_reads_only {W : Type} `{World W}
    (assigned : bool) (inputValue : option string) (p : Page (Traced W)) :
  exists o p' sent,
    refreshImageContainers assigned inputValue p = (o, p') /\
    p' = set_world (world p') p /\
    requests (world p') = requests (world p) ++ sent /\
    Forall (fun req => is_image_read req = true) sent /\
    (truthy inputValue = true \/ assigned = true -> o = Returns tt) /\
    (truthy inputValue = false -> assigned = false ->
     o = Throws ReferenceError /\ p' = p).
Proof.
  unfold refreshImageContainers, outcome. mred.
  destruct (getWarrantyId_outcome assigned inputValue (carousel p)) as [Hfound Hthrows].
  destruct (getWarrantyId assigned inputValue (carousel p)) as [warrantyId|e|] eqn:Hid.
  - destruct (truthy warrantyId); mred.
    + destruct (loadImagesForLot_sent warrantyId (world p)) as (sent & Hret & Hreq & Hall).
      destruct (loadImagesForLot _ (world p)) as [r t1]. cbn [fst snd] in *. subst r.
      eexists _, _, sent. split; [done |]. split; [done |]. split; [done |].
      split; [done |]. split; [done |].
      intros Hinput Hassigned. by specialize (Hthrows Hinput Hassigned).
    + exists (Returns tt), p, []. split; [done |]. split; [by destruct p |].
      split; [by rewrite app_nil_r |]. split; [done |]. split; [done |].
      intros Hinput Hassigned. by specialize (Hthrows Hinput Hassigned).
  - exists (Throws e), p, []. split; [done |]. split; [by destruct p |].
    split; [by rewrite app_nil_r |]. split; [done |]. split.
    + intros Hf. by destruct (Hfound Hf) as [w Hw].
    + intros Hinput Hassigned. specialize (Hthrows Hinput Hassigned).
      by injection Hthrows as ->.
  - exfalso. unfold getWarrantyId in Hid.
    destruct (truthy inputValue); [done |]. destruct (negb assigned); [done |].
    by destruct (truthy (currentWarrantyId (carousel p))).
Qed.

Lemma refreshImageContainers_reads_only_witness :
  (exists p',
     refreshImageContainers false (Some "WR-1002")
       {| world := {| inner := sample_store; requests := [] |};
          carousel := blank_carousel;
          dropboxAccessToken := None; dropboxAppKey := None;
          dropboxAppSecret := None; dropboxRefreshToken := None |} = (Returns tt, p')) /\
  (exists p',
     refreshImageContainers false None
       {| world := {| inner := sample_store; requests := [] |};
          carousel := blank_carousel;
          dropboxAccessToken := None; dropboxAppKey := None;
          dropboxAppSecret := None; dropboxRefreshToken := None |}
       = (Throws ReferenceError, p')).
Proof.
  split.
  - destruct (refreshImageContainers_reads_only false (Some "WR-1002")
                {| world := {| inner := sample_store; requests := [] |};
                   carousel := blank_carousel;
                   dropboxAccessToken := None; dropboxAppKey := None;
                   dropboxAppSecret := None; dropboxRefreshToken := None |})
      as (o & p' & sent & Hrun & _ & _ & _ & Hret & _).
    exists p'. rewrite Hrun. f_equal. apply Hret. left. reflexivity.
  - destruct (refreshImageContainers_reads_only false None
                {| world := {| inner := sample_store; requests := [] |};
                   carousel := blank_carousel;
                   dropboxAccessToken := None; dropboxAppKey := None;
                   dropboxAppSecret := None; dropboxRefreshToken := None |})
      as (o & p' & sent & Hrun & _ & _ & _ & _ & Hthrow).
    exists p'. rewrite Hrun. f_equal. by apply Hthrow.
Defined.

(** ** Phone numbers *)

Section Phone.

Lemma strip_phone_idemp (s : string) : strip_phone (strip_phone s) = strip_phone s.
Proof.
  induction s as [|a s IH]; [done |]. cbn [strip_phone].
  destruct (digit_or_plus a) eqn:Ha; [| exact IH].
  cbn [strip_phone]. rewrite Ha. by rewrite IH.
Qed.

Lemma strip_phone_chars (s : string) :
  Forall (fun a => digit_or_plus a = true) (String.list_ascii_of_string (strip_phone s)).
Proof.
  induction s as [|a s IH]; [constructor |]. cbn [strip_phone].
  destruct (digit_or_plus a) eqn:Ha; [| exact IH].
  cbn [String.list_ascii_of_string]. by constructor.
Qed.

Lemma strip_phone_fixed (s : string) :
  Forall (fun a => digit_or_plus a = true) (String.list_ascii_of_string s) -> strip_phone s = s.
Proof.
  induction s as [|a s IH]; [done |]. cbn [String.list_ascii_of_string strip_phone].
  intros Hall. apply Forall_cons in Hall as [-> Hall]. by rewrite IH.
Qed.

End Phone.

(** X18: [normalizePhoneForTel] returns a string of digits and plus signs
    only, returns a string of digits and plus signs as it is, and
    normalising its own result changes nothing. *)
Theorem normalizePhoneForTel_normal_form (phoneRaw : option string) :
  Forall (fun a => digit_or_plus a = true)
    (String.list_ascii_of_string (normalizePhoneForTel phoneRaw)) /\
  normalizePhoneForTel (Some (normalizePhoneForTel phoneRaw)) = normalizePhoneForTel phoneRaw /\
  forall s,
    Forall (fun a => digit_or_plus a = true) (String.list_ascii_of_string s) ->
    normalizePhoneForTel (Some s) = s.
Proof.
  assert (Hsome : forall s, normalizePhoneForTel (Some s) = strip_phone s).
  { intros s. unfold normalizePhoneForTel, truthy.
    destruct (String.eqb_spec s ""); [by subst |]. done. }
  split; [| split].
  - destruct phoneRaw as [s|]; [| constructor].
    rewrite Hsome. apply strip_phone_chars.
  - destruct phoneRaw as [s|]; [| done].
    rewrite !Hsome. apply strip_phone_idemp.
  - intros s Hall. rewrite Hsome. by apply strip_phone_fixed.
Qed.

Lemma normalizePhoneForTel_normal_form_witness :
  normalizePhoneForTel (Some "+15550100") = "+15550100".
Proof.
  apply (proj2 (proj2 (normalizePhoneForTel_normal_form None))).
  repeat constructor.
Defined.

(** ** The upload pipeline *)

(** Unfolds the monad operations, the session ones included. *)
Ltac sred :=
  cbv beta iota delta
    [bind ret throw diverge reads modify get try_catch finally zoom
     emit await_sleep on_world on_carousel on_page in_world write_dom];
  repeat (progress (try change (negb true) with false;
                    try change (negb false) with true;
                    cbv beta iota)).

Section CloudFacts.
Import Store Cloud.
Implicit Types (c : Cloud.State) (p : Page Cloud.State) (s : Session Cloud.State).

Lemma cloud_answer_status req c : status (answer req c).1 <> 429%Z.
Proof.
  destruct req as [t k f|t k|t r f| | |tok file| | tok [path|] |]; cbn [answer];
    try (pose proof (serve_status (AirtableImages t k f) (store c)) as Hs;
         by destruct (serve _ (store c)));
    try (pose proof (serve_status (AirtableLookup t k) (store c)) as Hs;
         by destruct (serve _ (store c)));
    try (pose proof (serve_status (AirtablePatch t r f) (store c)) as Hs;
         by destruct (serve _ (store c)));
    try done.
  by destruct (refused c file).
Qed.

Lemma cloud_fetchWithRetry req c :
  fetchWithRetry req 5 c = (Returns (answer req c).1, (answer req c).2).
Proof.
  apply fetchWithRetry_first; [lia | | apply cloud_answer_status].
  simpl. by destruct (answer req c).
Qed.

Lemma set_store_same c : set_store (store c) c = c.
Proof. by destruct c. Qed.

Lemma cloud_read (wid field : string) c :
  truthy (Some wid) = true ->
  fetchCurrentImagesFromAirtable (Some wid) field c =
    (Returns (stored wid field (store c)),
     set_store (log (AirtableImages (table (store c)) wid field) (store c)) c).
Proof.
  intros Hwid. rewrite fetchCurrentImagesFromAirtable_answer by done.
  rewrite cloud_fetchWithRetry. cbn [AIRTABLE_TABLE_NAME Cloud_World answer serve].
  rewrite String.eqb_refl. cbn [fst snd].
  f_equal. unfold images_of_answer. cbn [ok status body].
  change ((200 <=? 200)%Z && (200 <=? 299)%Z) with true. cbv iota.
  unfold stored. destruct (matching wid (store c)) as [|r rs]; [done |].
  cbn [fmap list_fmap project rec_fields mbind option_bind default].
  destruct (sr_fields r !! field ≫= attachments_of) as [l|]; cbn.
  - by rewrite lookup_singleton_eq.
  - by rewrite lookup_empty.
Qed.

Lemma cloud_getRecordIdByWarrantyId (key : string) c :
  getRecordIdByWarrantyId key c =
    (Returns (sr_id <$> head (matching key (store c))),
     set_store (log (AirtableLookup (table (store c)) key) (store c)) c).
Proof.
  rewrite getRecordIdByWarrantyId_answer, cloud_fetchWithRetry.
  cbn [AIRTABLE_TABLE_NAME Cloud_World answer serve]. rewrite String.eqb_refl.
  cbn [fst snd]. f_equal. unfold id_of_answer. cbn [body].
  by destruct (matching key (store c)).
Qed.

(** A write on the store behind the cloud. *)
Lemma cloud_update (tableName key : string) (fields : gmap string FieldValue) c :
  updateAirtableRecord tableName (Some key) fields c =
    (Returns tt, set_store (after_update tableName key fields (store c)) c).
Proof.
  unfold updateAirtableRecord, after_update, resolved. mred.
  cbn [ui onLine vendorDropdown Cloud_World].
  destruct (online (store c)) eqn:Hon; mred; [| by rewrite set_store_same].
  unfold resolvedRecordId.
  destruct (startsWith key "rec") eqn:Hrec; mred.
  - destruct (truthy (Some key)); mred; [| by rewrite set_store_same].
    fold (sanitized fields (store c)).
    rewrite cloud_fetchWithRetry. cbn [answer].
    destruct (serve _ (store c)) as [resp st2]. cbn [fst snd].
    destruct (ok resp); mred; [done |].
    unfold json. by destruct (body resp).
  - rewrite cloud_getRecordIdByWarrantyId.
    destruct (head (matching key (store c))) as [r|];
      cbn [fmap option_fmap option_map]; [| done].
    destruct (truthy (Some (sr_id r))); mred; [| done].
    cbn [vendor log store set_store]. fold (sanitized fields (store c)).
    rewrite cloud_fetchWithRetry. cbn [answer store set_store].
    destruct (serve _ _) as [resp st2]. cbn [fst snd].
    destruct (ok resp); mred; [done |].
    unfold json. by destruct (body resp).
Qed.

End CloudFacts.

Section CloudUpload.
Import Store Cloud.
Implicit Types (c : Cloud.State) (p : Page Cloud.State) (s : Session Cloud.State).

Lemma set_world_same p : set_world (world p) p = p.
Proof. by destruct p. Qed.

Lemma set_page_same s : set_page (page s) s = s.
Proof. by destruct s. Qed.

Lemma cloud_compressImage (file : File) c :
  compressImage file c = (Returns (compressed c file), c).
Proof.
  unfold compressImage, compressed, await_compression. mred.
  destruct (startsWith (file_type file) "image/"); [| done].
  cbn [imageCompression Cloud_Browser]. by destruct (compressor c file).
Qed.

Lemma cloud_link (path : string) p :
  getDropboxSharedLink (Some path) p =
    (Returns (direct_link <$> link (world p) path), p).
Proof.
  unfold getDropboxSharedLink. mred. rewrite cloud_fetchWithRetry. cbn [answer fst snd].
  cbn [status]. change (200 =? 409)%Z with false. mred. rewrite ok_200. mred.
  unfold json. cbn [body]. mred. rewrite set_world_same.
  unfold convertToDirectLink, direct_link.
  destruct (link (world p) path) as [u|]; mred; rewrite ?set_world_same; [| done].
  cbn [fmap option_fmap option_map]. by destruct (bool_decide _).
Qed.

(** One upload against the cloud: the link of the file, and nothing
    changes. *)
Lemma cloud_upload (fuel : nat) (file : File) (tok : string) (creds : Creds)
    (attempt : nat) p :
  truthy (Some tok) = true ->
  uploadFileToDropbox (S fuel) file (Some tok) creds attempt p =
    (Returns (link_of (world p) file), p).
Proof.
  intros Htok. cbn [uploadFileToDropbox]. rewrite Htok. mred.
  rewrite cloud_fetchWithRetry. cbn [answer fst snd]. unfold link_of.
  destruct (refused (world p) file).
  - unfold Blob.refused. cbn [status]. change (500 =? 429)%Z with false.
    change (ok {| status := 500;
                  body := ErrorBody (Some "internal_error") (Some "internal_error/") None |})
      with false. mred.
    unfold json. cbn [body]. mred.
    change (token_expired (ErrorBody (Some "internal_error") (Some "internal_error/") None))
      with false.
    mred. by rewrite !set_world_same.
  - cbn [status]. change (200 =? 429)%Z with false. rewrite ok_200. mred.
    unfold json. cbn [body]. mred. rewrite !set_world_same. rewrite cloud_link. done.
Qed.

(** The loop against the cloud: the links of the accepted files are
    pushed in order, and nothing changes. *)
Lemma cloud_upload_files (fuel : nat) (targetField : string) (creds : Creds)
    (tok : string) (total : nat) s :
  dropboxAccessToken (page s) = Some tok ->
  truthy (Some tok) = true ->
  forall (files : list File) (index : nat) (uploaded : list (string * File)),
    upload_files (S fuel) files index total targetField creds uploaded s =
      (Returns (uploaded ++ pushed (world (page s)) files), s).
Proof.
  intros Htoken Htok.
  induction files as [|file files IH]; intros index uploaded.
  { cbn [upload_files pushed omap list_omap]. by rewrite app_nil_r. }
  cbn [upload_files]. sred. cbn [render Cloud_Browser].
  rewrite !set_world_same, !set_page_same.
  rewrite cloud_compressImage. rewrite !set_world_same, !set_page_same.
  rewrite Htoken. rewrite cloud_upload by done. rewrite !set_page_same.
  cbn [pushed omap list_omap]. fold (pushed (world (page s)) files).
  destruct (link_of (world (page s)) (compressed (world (page s)) file)) as [url|].
  - destruct (truthy (Some url)); sred.
    + cbn [render Cloud_Browser]. rewrite !set_world_same, !set_page_same.
      rewrite IH. by rewrite <- app_assoc.
    + rewrite !set_world_same, !set_page_same. by rewrite IH.
  - sred. rewrite !set_world_same, !set_page_same. by rewrite IH.
Qed.

End CloudUpload.

Section CloudPipeline.
Import Store Cloud.
Implicit Types (c : Cloud.State) (p : Page Cloud.State) (s : Session Cloud.State).

Lemma cloud_uploadToDropbox (assigned : bool) (fuel : nat) (files : list File)
    (field wid tok : string) s :
  getWarrantyId assigned (input (world (page s))) (carousel (page s)) = Returns (Some wid) ->
  dropboxAccessToken (page s) = Some tok ->
  tok <> "" ->
  progress (world (page s)) = true ->
  let c := world (page s) in
  let read := log (AirtableImages (table (store c)) wid field) in
  let before := stored wid field (store c) in
  let combined := combinedList before before (pushed c files) in
  uploadToDropbox assigned (S fuel) files field s =
    (Returns tt,
     {| page :=
          set_world
            (set_store
               (after_update (table (store c)) wid {[ field := FAttachments combined ]}
                  (read (read (store c))))
               c)
            (page s);
        uploadInProgress := false |}).
Proof.
  intros Hwid Htoken Htok Hprogress c read before combined.
  assert (Htruthy : truthy (Some tok) = true).
  { unfold truthy. apply negb_true_iff. by apply String.eqb_neq. }
  assert (Hwidt : truthy (Some wid) = true).
  { pose proof (getWarrantyId_truthy _ _ _ _ Hwid) as Hne.
    unfold truthy. apply negb_true_iff. by apply String.eqb_neq. }
  unfold uploadToDropbox, outcome. sred.
  rewrite Htoken, Htruthy. sred.
  cbn [page world carousel set_uploadInProgress warrantyIdInput Cloud_Browser].
  rewrite Hwid. rewrite cloud_read by done.
  unfold element, set_page, set_world, set_uploadInProgress.
  repeat (cbn [page world progressContainer progressBar progressLabel render ui
               Cloud_Browser Cloud_World progress set_store
               dropboxAccessToken dropboxAppKey dropboxAppSecret dropboxRefreshToken
               uploadInProgress carousel];
          rewrite Hprogress; cbv beta iota).
  cbn [page world progressContainer progressBar progressLabel render ui
       Cloud_Browser Cloud_World progress set_store
       dropboxAccessToken dropboxAppKey dropboxAppSecret dropboxRefreshToken
       uploadInProgress carousel].
  match goal with
  | |- context [upload_files _ _ _ _ _ ?creds _ ?S] =>
      rewrite (cloud_upload_files fuel field creds tok (length files) S Htoken Htruthy)
  end.
  cbn [page world app carousel dropboxAccessToken dropboxAppKey dropboxAppSecret
       dropboxRefreshToken uploadInProgress].
  rewrite cloud_read by done.
  cbn [page world app carousel dropboxAccessToken dropboxAppKey dropboxAppSecret
       dropboxRefreshToken uploadInProgress AIRTABLE_TABLE_NAME Cloud_World].
  rewrite cloud_update.
  cbn [page world app carousel dropboxAccessToken dropboxAppKey dropboxAppSecret
       dropboxRefreshToken uploadInProgress render ui Cloud_Browser Cloud_World].
  reflexivity.
Qed.


(** A read against the cloud leaves the data of the store as they are. *)
Lemma cloud_read_same (warrantyId : option string) (field : string) c :
  exists l c',
    fetchCurrentImagesFromAirtable warrantyId field c = (Returns l, c') /\
    same_data (store c) (store c') /\
    link c' = link c /\ refused c' = refused c /\ compressor c' = compressor c /\
    input c' = input c /\ progress c' = progress c.
Proof.
  destruct warrantyId as [wid|].
  - destruct (truthy (Some wid)) eqn:Hwid.
    + rewrite cloud_read by done. eexists _, _. split; [done |].
      split; [by apply same_data_log | done].
    + unfold fetchCurrentImagesFromAirtable. rewrite Hwid.
      eexists _, _. split; [done |]. split; [apply same_data_refl | done].
  - eexists _, _. split; [done |]. split; [apply same_data_refl | done].
Qed.

(** The upload listener with a usable token cached runs the pipeline. *)
Lemma uploadChange_cached (assigned : bool) (fuel : nat) (files : list File)
    (targetField info : string) s s' :
  files <> [] ->
  truthy (dropboxAccessToken (page s)) = true ->
  uploadToDropbox assigned fuel files targetField s = (Returns tt, s') ->
  uploadChange assigned fuel files targetField info s = (Returns tt, s').
Proof.
  intros Hfiles Htoken Hrun. unfold uploadChange.
  destruct files as [|file files]; [done |]. cbn [length Nat.ltb Nat.leb].
  unfold ensureDropboxToken. sred. rewrite Htoken. sred. rewrite Htoken. sred.
  cbn [ui Cloud_World]. rewrite !set_world_same, !set_page_same. rewrite Hrun.
  cbn [ui Cloud_World]. by rewrite !set_world_same, !set_page_same.
Qed.

End CloudPipeline.

(** X19: against the cloud, with the progress elements on the page, a
    usable token cached and a warranty id that [getWarrantyId] returns,
    [uploadToDropbox] on a field other than [Material Vendor] returns with
    the flag [uploadInProgress] cleared and leaves in the field of the
    record the list stored before followed by one entry per accepted file
    whose link was not stored yet: every attachment stored before is kept
    in place, a refused file is skipped without stopping the others and
    every link obtained is stored.  Every field other than the written one
    and [Material Vendor] is left as it is in every record; the field
    [Material Vendor] is excepted, since the write carries the vendor
    selected on the form along.  The upload listener with files selected
    does the same. *)
Theorem uploadToDropbox_appends_to_stored_list (assigned : bool) (fuel : nat)
    (files : list File) (field info wid tok : string) (r : Store.StoredRecord)
    (s : Session Cloud.State) :
  let c := world (page s) in
  Store.well_formed (Cloud.store c) ->
  Store.online (Cloud.store c) = true ->
  head (Store.matching wid (Cloud.store c)) = Some r ->
  Store.sr_id r <> "" ->
  getWarrantyId assigned (Cloud.input c) (carousel (page s)) = Returns (Some wid) ->
  dropboxAccessToken (page s) = Some tok ->
  tok <> "" ->
  Cloud.progress c = true ->
  field <> "Warranty Record ID" ->
  field <> "Material Vendor" ->
  exists s',
    uploadToDropbox assigned (S fuel) files field s = (Returns tt, s') /\
    (files <> [] ->
     uploadChange assigned (S fuel) files field info s = (Returns tt, s')) /\
    uploadInProgress s' = false /\
    let before := Store.stored wid field (Cloud.store c) in
    let after := Store.stored wid field (Cloud.store (world (page s'))) in
    after = combinedList before before (Cloud.pushed c files) /\
    before `prefix_of` after /\
    (forall url file, (url, file) ∈ Cloud.pushed c files -> Some url ∈ att_url <$> after) /\
    (forall key' field',
       field' <> field -> field' <> "Material Vendor" ->
       Store.stored key' field' (Cloud.store (world (page s')))
         = Store.stored key' field' (Cloud.store c)).
Proof.
  intros c Hwf Hon Hhead Hid Hwid Htoken Htok Hprogress Hw Hmv.
  pose proof (cloud_uploadToDropbox assigned fuel files field wid tok s
                Hwid Htoken Htok Hprogress) as Hrun. cbv zeta in Hrun. fold c in Hrun.
  eexists. split; [exact Hrun |].
  split.
  { intros Hfiles. apply uploadChange_cached; [done | | exact Hrun].
    rewrite Htoken. unfold truthy. apply negb_true_iff. by apply String.eqb_neq. }
  split; [done |]. cbn [page world Cloud.store Cloud.set_store].
  set (read := Store.log (AirtableImages (Store.table (Cloud.store c)) wid field)).
  set (before := Store.stored wid field (Cloud.store c)).
  set (combined := combinedList before before (Cloud.pushed c files)).
  assert (Hafter :
    Store.stored wid field
      (Store.after_update (Store.table (Cloud.store c)) wid
         {[ field := FAttachments combined ]} (read (read (Cloud.store c)))) = combined).
  { change (Store.table (Cloud.store c))
      with (Store.table (read (read (Cloud.store c)))).
    by apply (after_update_stored_exact wid field combined _ r). }
  cbv zeta. unfold set_world, Cloud.set_store. cbn [world Cloud.store]. rewrite Hafter.
  split; [done |]. split; [apply push_unique_prefix |]. split.
  - intros url file Hin.
    assert (Hnew : uploadedFile url file ∈ uploadedUrls before (Cloud.pushed c files)).
    { unfold uploadedUrls. apply elem_of_app. right.
      apply list_elem_of_In, in_map_iff. exists (url, file).
      split; [done | by apply list_elem_of_In]. }
    apply (push_unique_covers _ before) in Hnew. exact Hnew.
  - intros key' field' Hf Hv. by rewrite after_update_frame.
Qed.

Lemma uploadToDropbox_appends_to_stored_list_witness :
  exists s',
    uploadToDropbox false 1
      [sample_file; {| file_name := "broken.jpg"; file_type := "image/jpeg" |}]
      "Completed  Pictures" sample_session = (Returns tt, s') /\
    Store.stored "WR-1002" "Completed  Pictures" (Cloud.store (world (page s'))) =
      [uploadedFile "https://dl.dropboxusercontent.com/s/uploads/roof-new.jpg?raw=1"
         sample_file].
Proof.
  assert (Hwf : Store.well_formed (Cloud.store (world (page sample_session)))).
  { repeat (constructor; [split; vm_compute; reflexivity |]). constructor. }
  assert (Hid : "recABC123" <> "") by discriminate.
  assert (Htok : "token" <> "") by discriminate.
  assert (Hw : "Completed  Pictures" <> "Warranty Record ID") by discriminate.
  assert (Hmv : "Completed  Pictures" <> "Material Vendor") by discriminate.
  destruct (uploadToDropbox_appends_to_stored_list false 0
              [sample_file; {| file_name := "broken.jpg"; file_type := "image/jpeg" |}]
              "Completed  Pictures" "Uploading completed photo..." "WR-1002" "token"
              _ sample_session Hwf eq_refl eq_refl Hid eq_refl eq_refl Htok eq_refl Hw Hmv)
    as (s' & Hrun & _ & _ & Hafter & _).
  exists s'. split; [exact Hrun |]. rewrite Hafter. vm_compute. reflexivity.
Defined.

(** X20: [uploadToDropbox] without a usable token cached returns at once
    and changes nothing.  With a usable token, it first sets the flag
    [uploadInProgress] and asks for the warranty id: on a page whose form
    holds none and whose carousel globals were never assigned this raises
    a ReferenceError, before any request, and the flag stays set.  Against
    the cloud, where the warranty id is found but the progress elements
    are not on the page, it throws a [TypeError] before any file is
    handled: the record is not written, and the flag [uploadInProgress]
    stays set.  In both cases leaving the page then raises the upload
    warning. *)
Theorem uploadToDropbox_guards (assigned : bool) (fuel : nat) (files : list File)
    (field : string) (s : Session Cloud.State) :
  (truthy (dropboxAccessToken (page s)) = false ->
   uploadToDropbox assigned fuel files field s = (Returns tt, s)) /\
  (truthy (dropboxAccessToken (page s)) = true ->
   truthy (Cloud.input (world (page s))) = false ->
   assigned = false ->
   uploadToDropbox assigned fuel files field s
     = (Throws ReferenceError, set_uploadInProgress true s) /\
   beforeunload false (set_uploadInProgress true s)
     = Some "Uploads are still in progress. Are you sure you want to leave?") /\
  (truthy (dropboxAccessToken (page s)) = true ->
   truthy (Cloud.input (world (page s))) = true \/ assigned = true ->
   Cloud.progress (world (page s)) = false ->
   exists s',
     uploadToDropbox assigned fuel files field s = (Throws TypeError, s') /\
     uploadInProgress s' = true /\
     beforeunload false s'
       = Some "Uploads are still in progress. Are you sure you want to leave?" /\
     Store.same_data (Cloud.store (world (page s))) (Cloud.store (world (page s')))).
Proof.
  unfold uploadToDropbox, outcome. sred. split; [| split].
  - intros ->. done.
  - intros -> Hinput ->. sred.
    cbn [page world carousel set_uploadInProgress warrantyIdInput Cloud.Cloud_Browser].
    rewrite (proj2 (getWarrantyId_outcome false (Cloud.input (world (page s)))
                      (carousel (page s))) Hinput eq_refl).
    done.
  - intros -> Hfound Hprogress. sred.
    cbn [page world carousel set_uploadInProgress warrantyIdInput Cloud.Cloud_Browser].
    destruct (proj1 (getWarrantyId_outcome assigned (Cloud.input (world (page s)))
                       (carousel (page s))) Hfound) as [warrantyId ->].
    destruct (cloud_read_same warrantyId field (world (page s)))
      as (l & c' & -> & Hsame & _ & _ & _ & _ & Hp).
    unfold element. cbn [page world set_page set_world set_uploadInProgress
                         progressContainer Cloud.Cloud_Browser] in *.
    rewrite Hp, Hprogress. cbv beta iota.
    eexists. split; [done |]. done.
Qed.

Lemma uploadToDropbox_guards_witness :
  uploadToDropbox false 1 [sample_file] "Completed  Pictures"
    {| page := sample_page_cloud_without_token; uploadInProgress := false |}
  = (Returns tt, {| page := sample_page_cloud_without_token; uploadInProgress := false |}) /\
  uploadToDropbox false 1 [sample_file] "Completed  Pictures" sample_session_without_input
  = (Throws ReferenceError, set_uploadInProgress true sample_session_without_input) /\
  exists s',
    uploadToDropbox false 1 [sample_file] "Completed  Pictures" sample_session_without_progress
      = (Throws TypeError, s') /\
    uploadInProgress s' = true.
Proof.
  split; [| split].
  - apply (proj1 (uploadToDropbox_guards false 1 [sample_file] "Completed  Pictures"
                    {| page := sample_page_cloud_without_token;
                       uploadInProgress := false |})).
    reflexivity.
  - apply (proj1 (proj2 (uploadToDropbox_guards false 1 [sample_file] "Completed  Pictures"
                           sample_session_without_input))); reflexivity.
  - destruct (proj2 (proj2 (uploadToDropbox_guards false 1 [sample_file]
                              "Completed  Pictures" sample_session_without_progress))
                eq_refl (or_introl eq_refl) eq_refl)
      as (s' & Hrun & Hflag & _).
    exists s'. split; [exact Hrun | exact Hflag].
Defined.

(** ** What the viewer shows *)

Section Showing.
Implicit Types (c : Carousel.State) (sw : Swipe).

Lemma item_Some (files : list Attachment) (i : Z) (file : Attachment) :
  item files i = Some file -> (0 <= i < Z.of_nat (length files))%Z.
Proof.
  unfold item. destruct (Z.ltb_spec i 0); [done |].
  intros Hl. apply lookup_lt_Some in Hl. lia.
Qed.

Lemma item_in_range (files : list Attachment) (i : Z) :
  (0 <= i < Z.of_nat (length files))%Z -> is_Some (item files i).
Proof.
  intros Hi. unfold item. destruct (Z.ltb_spec i 0); [lia |].
  apply lookup_lt_is_Some. lia.
Qed.

(** Rendering an item of the list. *)
Lemma displayCarouselItem_spec ts index c ov file :
  overlay c = Some ov ->
  item (currentCarouselFiles c) index = Some file ->
  displayCarouselItem ts index c =
    set_overlay
      (Some {| ov_display := ov_display ov;
               ov_body := rendered ts file;
               ov_nav := if (files_length c <=? 1)%Z then "none" else "block" |}) c.
Proof.
  intros Hov Hitem. pose proof (item_Some _ _ _ Hitem) as Hrange.
  unfold displayCarouselItem. rewrite Hov, Hitem.
  destruct (Z.ltb_spec index 0); [lia |].
  unfold files_length at 1. destruct (Z.geb_spec index (Z.of_nat (length (currentCarouselFiles c))));
    [lia |]. cbn [orb].
  unfold updateCarouselNavVisibility. cbn [overlay set_overlay ov_display ov_body].
  done.
Qed.

Lemma showing_display ts index c ov file :
  overlay c = Some ov ->
  ov_display ov = "flex" ->
  item (currentCarouselFiles c) index = Some file ->
  showing ts (displayCarouselItem ts index (set_index index c)).
Proof.
  intros Hov Hflex Hitem.
  rewrite (displayCarouselItem_spec ts index (set_index index c) ov file) by done.
  exists {| ov_display := ov_display ov; ov_body := rendered ts file;
            ov_nav := if (files_length (set_index index c) <=? 1)%Z
                      then "none" else "block" |}, file.
  cbn [overlay set_overlay set_index currentCarouselFiles currentCarouselIndex
       ov_display ov_body ov_nav].
  done.
Qed.

Lemma showing_nextImage ts c : showing ts c -> showing ts (nextImage ts c).
Proof.
  intros (ov & file & Hov & Hitem & Hflex & _ & _).
  pose proof (item_Some _ _ _ Hitem) as Hrange. fold (files_length c) in Hrange.
  unfold nextImage. destruct (Z.eqb_spec (files_length c) 0); [lia |]. cbv zeta.
  cbn [currentCarouselIndex set_index].
  destruct (item_in_range (currentCarouselFiles c)
              (Z.rem (currentCarouselIndex c + 1) (files_length c))) as [file' Hfile'].
  { fold (files_length c). rewrite Z.rem_mod_nonneg by lia.
    apply Z.mod_pos_bound. lia. }
  by eapply showing_display.
Qed.

Lemma showing_prevImage ts c : showing ts c -> showing ts (prevImage ts c).
Proof.
  intros (ov & file & Hov & Hitem & Hflex & _ & _).
  pose proof (item_Some _ _ _ Hitem) as Hrange. fold (files_length c) in Hrange.
  unfold prevImage. destruct (Z.eqb_spec (files_length c) 0); [lia |]. cbv zeta.
  cbn [currentCarouselIndex set_index].
  destruct (item_in_range (currentCarouselFiles c)
              (Z.rem (currentCarouselIndex c - 1 + files_length c) (files_length c)))
    as [file' Hfile'].
  { fold (files_length c). rewrite Z.rem_mod_nonneg by lia.
    apply Z.mod_pos_bound. lia. }
  by eapply showing_display.
Qed.

Lemma showing_openCarousel ts files (k : nat) file warrantyId field c :
  files !! k = Some file ->
  showing ts (openCarousel ts files (Z.of_nat k) warrantyId field c).
Proof.
  intros Hk. unfold openCarousel.
  assert (Hov : exists ov, overlay (ensureCarouselOverlay c) = Some ov).
  { unfold ensureCarouselOverlay. destruct (overlay c) as [ov|] eqn:Hov; eauto. }
  destruct Hov as [ov ->]. cbn [currentCarouselIndex].
  assert (Hitem : item files (Z.of_nat k) = Some file).
  { unfold item. destruct (Z.ltb_spec (Z.of_nat k) 0); [lia |]. by rewrite Nat2Z.id. }
  match goal with
  | |- context [displayCarouselItem ts ?i ?c'] =>
      rewrite (displayCarouselItem_spec ts i c'
                 {| ov_display := "flex"; ov_body := ov_body ov; ov_nav := ov_nav ov |}
                 file eq_refl Hitem)
  end.
  eexists _, file. cbn [overlay set_overlay currentCarouselFiles currentCarouselIndex].
  split; [done |]. split; [exact Hitem |]. done.
Qed.

(** The list and the two identifiers of the viewer under navigation. *)
Lemma nextImage_ids ts c :
  currentCarouselFiles (nextImage ts c) = currentCarouselFiles c /\
  currentWarrantyId (nextImage ts c) = currentWarrantyId c /\
  currentCarouselField (nextImage ts c) = currentCarouselField c.
Proof.
  split; [apply nextImage_files |].
  unfold nextImage. destruct (files_length c =? 0)%Z; [done |].
  match goal with
  | |- context [displayCarouselItem ts ?i ?c'] =>
      destruct (displayCarouselItem_ids ts i c') as [-> ->]
  end. done.
Qed.

Lemma prevImage_ids ts c :
  currentCarouselFiles (prevImage ts c) = currentCarouselFiles c /\
  currentWarrantyId (prevImage ts c) = currentWarrantyId c /\
  currentCarouselField (prevImage ts c) = currentCarouselField c.
Proof.
  split; [apply prevImage_files |].
  unfold prevImage. destruct (files_length c =? 0)%Z; [done |].
  match goal with
  | |- context [displayCarouselItem ts ?i ?c'] =>
      destruct (displayCarouselItem_ids ts i c') as [-> ->]
  end. done.
Qed.

(** One event that leaves the viewer open. *)
Lemma viewer_step_showing ts ev sw c :
  keeps_open ev = true ->
  showing ts c ->
  let c' := (viewer_step ts (sw, c) ev).2 in
  showing ts c' /\
  currentCarouselFiles c' = currentCarouselFiles c /\
  currentWarrantyId c' = currentWarrantyId c /\
  currentCarouselField c' = currentCarouselField c.
Proof.
  intros Hev Hc. destruct ev; cbn [viewer_step snd keeps_open] in *; try done.
  - split; [by apply showing_nextImage | apply nextImage_ids].
  - split; [by apply showing_prevImage | apply prevImage_ids].
  - unfold keydown. destruct Hc as (ov & file & Hov & Hitem & Hflex & Hbody & Hnav).
    rewrite Hov, Hflex. change (String.eqb "flex" "none") with false. cbv iota.
    apply negb_true_iff in Hev. rewrite Hev.
    assert (Hc : showing ts c) by by exists ov, file.
    destruct (String.eqb key "ArrowRight"), (String.eqb key "ArrowLeft").
    + pose proof (showing_nextImage ts c Hc) as H1.
      split; [by apply showing_prevImage |].
      destruct (prevImage_ids ts (nextImage ts c)) as (-> & -> & ->).
      apply nextImage_ids.
    + split; [by apply showing_nextImage | apply nextImage_ids].
    + split; [by apply showing_prevImage | apply prevImage_ids].
    + done.
  - unfold touchend. destruct (negb (touchMoved sw)); [done |].
    destruct changedTouches as [|t [|t' l]]; try done.
    destruct (_ >? 40)%Z; [| done].
    destruct (_ >? 0)%Z.
    + split; [by apply showing_prevImage | apply prevImage_ids].
    + split; [by apply showing_nextImage | apply nextImage_ids].
Qed.

Lemma viewer_run_showing ts evs :
  forall sw c,
    forallb keeps_open evs = true ->
    showing ts c ->
    let c' := (viewer_run ts evs (sw, c)).2 in
    showing ts c' /\
    currentCarouselFiles c' = currentCarouselFiles c /\
    currentWarrantyId c' = currentWarrantyId c /\
    currentCarouselField c' = currentCarouselField c.
Proof.
  unfold viewer_run. induction evs as [|ev evs IH]; intros sw c Hevs Hc; [done |].
  cbn [forallb] in Hevs. apply andb_true_iff in Hevs as [Hev Hevs].
  cbn [foldl].
  pose proof (viewer_step_showing ts ev sw c Hev Hc) as (H1 & H2 & H3 & H4).
  destruct (viewer_step ts (sw, c) ev) as [sw' c1]. cbn [snd] in *.
  destruct (IH sw' c1 Hevs H1) as (H1' & H2' & H3' & H4').
  split; [exact H1' |]. by rewrite H2', H3', H4'.
Qed.

End Showing.

(** X21: once the viewer was opened on an item of a list, after any
    sequence of button clicks, keys other than Escape and touches its
    overlay is displayed with the current item of that same list in its
    body, the navigation buttons are hidden exactly when the list has at
    most one item, and the warranty id and the field of the viewer are
    the ones it was opened with. *)
Theorem viewer_shows_current_item (ts : Z) (files : list Attachment) (k : nat)
    (file : Attachment) (warrantyId field : option string) (evs : list ViewerEvent)
    (sw : Swipe) (c : Carousel.State) :
  files !! k = Some file ->
  forallb keeps_open evs = true ->
  let c' := (viewer_run ts evs
               (sw, openCarousel ts files (Z.of_nat k) warrantyId field c)).2 in
  showing ts c' /\
  currentCarouselFiles c' = files /\
  currentWarrantyId c' = warrantyId /\
  currentCarouselField c' = field.
Proof.
  intros Hk Hevs c'.
  pose proof (showing_openCarousel ts files k file warrantyId field c Hk) as Hopen.
  destruct (viewer_run_showing ts evs sw _ Hevs Hopen) as (H1 & H2 & H3 & H4).
  split; [exact H1 |]. fold c' in H2, H3, H4. rewrite H2, H3, H4.
  destruct (openCarousel_globals ts files (Z.of_nat k) warrantyId field c) as (-> & _ & _).
  by destruct (openCarousel_ids ts files (Z.of_nat k) warrantyId field c) as [-> ->].
Qed.

Lemma viewer_shows_current_item_witness :
  showing 7
    (viewer_run 7 [NextClick; KeyDown "ArrowLeft"; PrevClick]
       (no_swipe,
        openCarousel 7 [sample_stored; sample_pdf; sample_other] 1 (Some "WR-1002")
          (Some "Picture(s) of Issue") blank_carousel)).2.
Proof.
  exact (proj1 (viewer_shows_current_item 7 [sample_stored; sample_pdf; sample_other] 1
                  sample_pdf (Some "WR-1002") (Some "Picture(s) of Issue")
                  [NextClick; KeyDown "ArrowLeft"; PrevClick] no_swipe blank_carousel
                  eq_refl eq_refl)).
Defined.

(** ** The cache-buster of the viewer *)

(** X22: the source of an image shown by the viewer carries the time of
    its rendering: two renderings of the same image at different times
    have different sources.  A file that is not an image is rendered the
    same at all times. *)
Theorem image_source_fresh_per_rendering (ts1 ts2 : Z) (file : Attachment) :
  (forall url type,
     att_url file = Some url -> url <> "" ->
     att_type file = Some type -> startsWith type "image/" = true ->
     ts1 <> ts2 -> rendered ts1 file <> rendered ts2 file) /\
  ((forall type, att_type file = Some type -> startsWith type "image/" = false) ->
   rendered ts1 file = rendered ts2 file).
Proof.
  split.
  - intros url type Hurl Hne Htype Himage Hts. unfold rendered.
    rewrite Hurl, Htype, Himage.
    assert (Htruthy : truthy (Some url) = true).
    { unfold truthy. apply negb_true_iff. by apply String.eqb_neq. }
    rewrite Htruthy. intros [= Heq]. apply Hts.
    apply String.app_inj in Heq. apply String.app_inj in Heq.
    apply String.app_inj in Heq. by apply pretty_Z_inj in Heq.
  - intros Hother. unfold rendered.
    destruct (att_url file) as [url|]; [| done].
    destruct (truthy (Some url)); [| done].
    destruct (att_type file) as [type|]; [| done].
    by rewrite (Hother type eq_refl).
Qed.

Lemma image_source_fresh_per_rendering_witness :
  rendered 1 sample_stored <> rendered 2 sample_stored /\
  rendered 1 sample_pdf = rendered 2 sample_pdf.
Proof.
  assert (Hne : "https://dl.dropboxusercontent.com/s/a/roof.jpg?raw=1" <> "") by discriminate.
  assert (Hts : 1%Z <> 2%Z) by discriminate.
  split.
  - exact (proj1 (image_source_fresh_per_rendering 1 2 sample_stored) _ _
             eq_refl Hne eq_refl eq_refl Hts).
  - apply (proj2 (image_source_fresh_per_rendering 1 2 sample_pdf)).
    intros type [= <-]. reflexivity.
Defined.

(** ** The per-item delete on the store *)

(** X23: on a well-formed store that is online, the per-item delete of
    the viewer on a field other than [Material Vendor], once confirmed,
    returns and leaves in the field of the record exactly the attachments
    stored before whose identifier differs from the one of the current
    item, in their order.  Every field other than the written one and
    [Material Vendor] is left as it is in every record; the field
    [Material Vendor] is excepted, since the write carries the vendor
    selected on the form along. *)
Theorem deleteCurrentAttachment_removes_current_item (p : Page Store.State)
    (wid field : string) (fileToDelete : Attachment) (r : Store.StoredRecord) :
  let s := world p in
  Store.well_formed s ->
  Store.online s = true ->
  head (Store.matching wid s) = Some r ->
  Store.sr_id r <> "" ->
  wid <> "" ->
  currentWarrantyId (carousel p) = Some wid ->
  currentCarouselField (carousel p) = Some field ->
  field <> "" ->
  field <> "Warranty Record ID" ->
  field <> "Material Vendor" ->
  item (currentCarouselFiles (carousel p)) (currentCarouselIndex (carousel p))
    = Some fileToDelete ->
  truthy (att_id fileToDelete) = true ->
  exists p',
    deleteCurrentAttachment p = (Returns tt, p') /\
    Store.stored wid field (world p') =
      List.filter (fun file => negb (bool_decide (att_id file = att_id fileToDelete)))
        (Store.stored wid field s) /\
    forall key' field',
      field' <> field -> field' <> "Material Vendor" ->
      Store.stored key' field' (world p') = Store.stored key' field' s.
Proof.
  intros s Hwf Hon Hhead Hid Hwid Hcw Hcf Hfield Hw Hmv Hitem Hfid.
  assert (Htruthy : forall k, k <> "" -> truthy (Some k) = true).
  { intros k Hk. unfold truthy. apply negb_true_iff. by apply String.eqb_neq. }
  unfold deleteCurrentAttachment. mred.
  rewrite Hcw, (Htruthy wid Hwid). mred. rewrite Hcf, (Htruthy field Hfield). mred.
  rewrite Hitem, Hfid. mred. cbn [confirm Store.Store_World]. mred.
  rewrite store_read by by apply Htruthy. mred.
  cbn [world set_world AIRTABLE_TABLE_NAME Store.Store_World Store.log Store.table].
  rewrite store_update. mred.
  set (updated := List.filter _ (Store.stored wid field (world p))).
  set (read := Store.log (AirtableImages (Store.table (world p)) wid field) (world p)).
  set (written := Store.after_update (Store.table (world p)) wid
                    {[ field := FAttachments updated ]} read).
  assert (Hstored : Store.stored wid field written = updated).
  { unfold written. change (Store.table (world p)) with (Store.table read).
    by apply (after_update_stored_exact wid field updated read r). }
  assert (Hframe : forall key' field',
            field' <> field -> field' <> "Material Vendor" ->
            Store.stored key' field' written = Store.stored key' field' (world p)).
  { intros key' field' Hf Hv. unfold written. by rewrite after_update_frame. }
  cbn [world set_world carousel set_carousel].
  match goal with
  | |- context [if ?b then _ else _] => destruct b
  end; mred; cbn [world set_world carousel set_carousel now ui Store.Store_World];
    (eexists; split; [done |]); cbn [world]; by split.
Qed.

Lemma deleteCurrentAttachment_removes_current_item_witness :
  exists p',
    deleteCurrentAttachment sample_page = (Returns tt, p') /\
    Store.stored "WR-1002" "Picture(s) of Issue" (world p') = [sample_pdf; sample_other].
Proof.
  assert (Hwf : Store.well_formed (world sample_page)).
  { repeat (constructor; [split; vm_compute; reflexivity |]). constructor. }
  assert (Hid : "recABC123" <> "") by discriminate.
  assert (Hwid : "WR-1002" <> "") by discriminate.
  assert (Hfield : "Picture(s) of Issue" <> "") by discriminate.
  assert (Hw : "Picture(s) of Issue" <> "Warranty Record ID") by discriminate.
  assert (Hmv : "Picture(s) of Issue" <> "Material Vendor") by discriminate.
  destruct (deleteCurrentAttachment_removes_current_item sample_page "WR-1002"
              "Picture(s) of Issue" sample_stored _ Hwf eq_refl eq_refl Hid Hwid
              eq_refl eq_refl Hfield Hw Hmv eq_refl eq_refl)
    as (p' & Hrun & Hst & _).
  exists p'. split; [exact Hrun |]. rewrite Hst. vm_compute. reflexivity.
Defined.
